(** * onmt/utils/optimizers.py: learning-rate schedules, optimizer builder,
      training controller and AdaFactor

    A shallow embedding of the module and proofs about it.

    Conventions of the embedding.
    - Python [int] is [Z]; Python [float] is [R].  Rounding, infinities and
      NaN of IEEE arithmetic are outside the model: a float operation is the
      real operation it approximates.
    - A Python expression that may raise is a value of [result]: [Ok v] for
      normal termination, [Raise e] for an exception [e].
    - Code that mutates an object and may raise afterwards is a function
      from the object to the (possibly partly mutated) object together with
      a [result]; see the monad [M] below. *)

From Stdlib Require Import Reals Lra ZArith Lia List String Bool Permutation.
Import ListNotations.

Local Open Scope Z_scope.
Local Open Scope R_scope.
Local Open Scope string_scope.
Local Open Scope list_scope.

(** ** Exceptions and fallible expressions *)

Inductive exn : Type :=
| NotImplementedError
| ValueError (msg : string)
| RuntimeError
| ZeroDivisionError
| KeyError (key : string)
| IndexError
| AttributeError (attr : string)
| TypeError
| AssertionError
| TorchSizeError
| ComplexValue.
(* [TorchSizeError]: the [RuntimeError] with which torch refuses tensors
   whose sizes do not fit an operation.  In Python it has the class of
   [RuntimeError] and another message; [RuntimeError] here is the exception
   that this module raises itself (line 503), and the two are kept apart.
   [ComplexValue]: Python would continue with a [complex] number (a negative
   base raised to a fractional power); the embedding has no complex scalars
   and stops the evaluation there. *)

Inductive result (A : Type) : Type :=
| Ok (v : A)
| Raise (e : exn).
Arguments Ok {A} v.
Arguments Raise {A} e.

Definition rbind {A B} (r : result A) (k : A -> result B) : result B :=
  match r with
  | Ok v => k v
  | Raise e => Raise e
  end.

Declare Scope result_scope.
Delimit Scope result_scope with result.
Notation "x <- c ;; k" := (rbind c (fun x => k))
  (at level 61, c at next level, right associativity) : result_scope.
Local Open Scope result_scope.

Definition is_ok {A} (r : result A) : bool :=
  match r with Ok _ => true | Raise _ => false end.

(** ** Python arithmetic *)

(* [x / y] on floats (or ints, true division). *)
Definition py_div (x y : R) : result R :=
  if Req_dec_T y 0 then Raise ZeroDivisionError else Ok (x / y).

(* [a // b] on ints: floor division, as [Z.div]. *)
Definition py_floordiv (a b : Z) : result Z :=
  if (b =? 0)%Z then Raise ZeroDivisionError else Ok (a / b)%Z.

(* [x ** e] with a float base and an int exponent. *)
Definition py_pow_int (x : R) (e : Z) : result R :=
  if (0 <=? e)%Z then Ok (x ^ Z.to_nat e)
  else if Req_dec_T x 0 then Raise ZeroDivisionError
  else Ok (/ (x ^ Z.to_nat (- e))).

(* [x ** y] with a fractional float exponent [y] (-0.5, -1.5 and 0.5 in
   this module). *)
Definition py_pow_frac (x y : R) : result R :=
  if Rlt_dec 0 x then Ok (Rpower x y)
  else if Req_dec_T x 0 then
         (if Rlt_dec y 0 then Raise ZeroDivisionError else Ok 0)
       else Raise ComplexValue.

(* [math.sqrt]. *)
Definition py_sqrt (x : R) : result R :=
  if Rlt_dec x 0 then Raise (ValueError "math domain error") else Ok (sqrt x).

(* [l[i]] for an index that is not negative. *)
Definition index {A} (l : list A) (i : Z) : result A :=
  match nth_error l (Z.to_nat i) with
  | Some v => Ok v
  | None => Raise IndexError
  end.

(* [sub in s] on strings. *)
Fixpoint contains (sub s : string) : bool :=
  String.prefix sub s ||
  match s with
  | EmptyString => false
  | String _ s' => contains sub s'
  end.

(** ** Options (the fields of [opt] this module reads) *)

Record Opt : Type := {
  optim : string;
  learning_rate : R;
  adam_beta1 : R;
  adam_beta2 : R;
  adagrad_accumulator_init : R;
  disc_ft : R;
  dec_lr_factor : R;
  dec_layers : Z;
  decoder_type : string;
  share_decoder_embeddings : bool;
  share_embeddings : bool;
  encdec_share_params : bool;
  simple_fusion : bool;
  copy_attn : bool;
  full_gen_bias : bool;
  full_context_lr : bool;
  model_dtype : string;
  loss_scale : R;
  decay_method : string;
  warmup_steps : Z;
  train_steps : Z;
  rnn_size : Z;
  stlr_ratio : R;
  warmup_init_factor : R;
  start_decay_steps : option Z;
  learning_rate_decay : R;
  decay_steps : Z
}.

(** ** Decay functions *)

Definition invsq_decay (step warmup_steps : Z) (warmup_init_factor : R)
  : result R :=
  if (step <? warmup_steps)%Z then
    a <- py_div 1 warmup_init_factor ;;
    b <- py_div 1 warmup_init_factor ;;
    c <- py_div (1 - b) (IZR warmup_steps) ;;
    Ok (a + c * IZR step)
  else
    q <- py_div (IZR warmup_steps) (IZR step) ;;
    py_pow_frac q (1 / 2).

Definition stlr_decay (step warmup_steps train_steps : Z) (ratio : R)
  : result R :=
  let cut := warmup_steps in
  cut_frac <- py_div (IZR warmup_steps) (IZR train_steps) ;;
  a <- py_div (IZR step) (IZR cut) ;;
  inv <- py_div 1 cut_frac ;;
  b <- py_div (IZR (step - cut)) (IZR cut * (inv - 1)) ;;
  let p := Rmin a (1 - b) in
  py_div (1 + p * (ratio - 1)) ratio.

Definition noam_decay (step warmup_steps model_size : Z) : result R :=
  m <- py_pow_frac (IZR model_size) (- (1 / 2)) ;;
  a <- py_pow_frac (IZR step) (- (1 / 2)) ;;
  w <- py_pow_frac (IZR warmup_steps) (- (3 / 2)) ;;
  Ok (m * Rmin a (IZR step * w)).

Definition exponential_decay (step : Z) (rate : R) (decay_steps start_step : Z)
  : result R :=
  e <- py_floordiv (Z.max (step - start_step + decay_steps) 0) decay_steps ;;
  py_pow_int rate e.

Definition rsqrt_decay (step warmup_steps : Z) : result R :=
  s <- py_sqrt (IZR (Z.max step warmup_steps)) ;;
  py_div 1 s.

(* A decay function as the controller sees it: a callable of the step. *)
Definition DecayFn : Type := Z -> result R.

(* [functools.partial(f, ...)] is the closure over the remaining argument;
   falling off the end of the function returns [None]. *)
Definition make_learning_rate_decay_fn (opt : Opt) : result (option DecayFn) :=
  if decay_method opt =? "noam" then
    Ok (Some (fun step => noam_decay step (warmup_steps opt) (rnn_size opt)))
  else if decay_method opt =? "rsqrt" then
    Ok (Some (fun step => rsqrt_decay step (warmup_steps opt)))
  else if decay_method opt =? "stlr" then
    if (warmup_steps opt >? train_steps opt)%Z then
      Raise (ValueError "warmup_steps should be smaller than train_steps")
    else
      Ok (Some (fun step =>
                  stlr_decay step (warmup_steps opt) (train_steps opt)
                             (stlr_ratio opt)))
  else if decay_method opt =? "invsq" then
    Ok (Some (fun step =>
                invsq_decay step (warmup_steps opt) (warmup_init_factor opt)))
  else
    match start_decay_steps opt with
    | Some start =>
        Ok (Some (fun step =>
                    exponential_decay step (learning_rate_decay opt)
                                      (decay_steps opt) start))
    | None => Ok None
    end.

(** ** Tensors, parameters and the model *)

(* A dense tensor: its size and its elements in row-major order. *)
Record Tensor : Type := {
  shape : list nat;
  data : list R
}.

(* [p.grad]: [grad.is_sparse] and [grad.data]. *)
Record Grad : Type := {
  is_sparse : bool;
  grad_data : Tensor
}.

Record Param : Type := {
  p_data : Tensor;
  p_grad : option Grad;
  requires_grad : bool
}.

Definition nelement (p : Param) : nat :=
  fold_right Nat.mul 1%nat (shape (p_data p)).

(* The attributes of the model that the builder reads.  A module is given
   by its [named_parameters()]; [parameters()] is their second components.
   [encoder] is [None] when the model has no such attribute; an attribute
   of the generator that is [None] here does not exist on the object. *)
Record Decoder : Type := {
  dec_named_parameters : list (string * Param);
  layer_norm : list (string * Param);
  transformer_layers : list (list (string * Param));
  embeddings : list (string * Param)
}.

Record Generator : Type := {
  gen_parameters : list Param;
  gen_0_bias : option Param;
  gen_linear_copy : option (list Param);
  gen_linear_bias : option Param
}.

Record Model : Type := {
  named_parameters : list (string * Param);
  encoder : option (list (string * Param));
  decoder : Decoder;
  generator : Generator
}.

Definition parameters (named : list (string * Param)) : list Param :=
  map snd named.

Definition attribute {A} (name : string) (a : option A) : result A :=
  match a with
  | Some v => Ok v
  | None => Raise (AttributeError name)
  end.

(* [x > y] and [x != y] on floats, as tests. *)
Definition Rgtb (x y : R) : bool := if Rlt_dec y x then true else false.
Definition Rneqb (x y : R) : bool := if Req_dec_T x y then false else true.

(** ** The tensor engine *)

(* The operations of torch that AdaFactor uses. *)
Definition numel (sh : list nat) : nat := fold_right Nat.mul 1%nat sh.

Fixpoint same_size (a b : list nat) : bool :=
  match a, b with
  | [], [] => true
  | x :: a', y :: b' => (x =? y)%nat && same_size a' b'
  | _, _ => false
  end.

Definition zeros (sh : list nat) : Tensor :=
  {| shape := sh; data := repeat 0 (numel sh) |}.

(* [t.view(sh)]: the elements of [t] under another size; torch refuses a
   size with another number of elements. *)
Definition view (t : Tensor) (sh : list nat) : result Tensor :=
  if (numel (shape t) =? numel sh)%nat
  then Ok {| shape := sh; data := data t |}
  else Raise TorchSizeError.

Definition tmap (f : R -> R) (t : Tensor) : Tensor :=
  {| shape := shape t; data := map f (data t) |}.

Definition map2 (f : R -> R -> R) (xs ys : list R) : list R :=
  map (fun xy => f (fst xy) (snd xy)) (combine xs ys).

(* An elementwise operation on two tensors, in place on [a] or with a
   result of its own.  AdaFactor applies these to operands of one size,
   which is the case that is embedded: sizes that differ are refused, as
   torch refuses them where it cannot broadcast one operand to the other
   (broadcasting is embedded for [outer] only, where AdaFactor uses it). *)
Definition tmap2 (f : R -> R -> R) (a b : Tensor) : result Tensor :=
  if same_size (shape a) (shape b)
  then Ok {| shape := shape a; data := map2 f (data a) (data b) |}
  else Raise TorchSizeError.

Definition sum_list (xs : list R) : R := fold_right Rplus 0 xs.

(* The rows of a matrix with [cols] columns. *)
Fixpoint rows (n cols : nat) (xs : list R) : list (list R) :=
  match n with
  | O => []
  | S n' => firstn cols xs :: rows n' cols (skipn cols xs)
  end.

Definition nrows (t : Tensor) : nat := nth 0 (shape t) 0%nat.
Definition ncols (t : Tensor) : nat := nth 1 (shape t) 0%nat.

(* [torch.sum(t, dim=0, keepdim=True)] and [torch.sum(t, dim=1,
   keepdim=True)] of a matrix. *)
Definition sum_dim0 (t : Tensor) : Tensor :=
  {| shape := [1%nat; ncols t];
     data := fold_right (map2 Rplus) (repeat 0 (ncols t))
                        (rows (nrows t) (ncols t) (data t)) |}.

Definition sum_dim1 (t : Tensor) : Tensor :=
  {| shape := [nrows t; 1%nat];
     data := map sum_list (rows (nrows t) (ncols t) (data t)) |}.

(* [torch.mul(c, r)] of a column [c] and a row [r], by broadcasting. *)
Definition outer (c r : Tensor) : Tensor :=
  {| shape := [nrows c; ncols r];
     data := flat_map (fun ci => map (fun rj => ci * rj) (data r)) (data c) |}.

Definition tsum (t : Tensor) : R := sum_list (data t).

Definition mean (t : Tensor) : R := tsum t / INR (List.length (data t)).

(** ** AdaFactor *)

Module AdaFactor.

(* [self.state[p]], a dict with these keys at most; [None] is an absent
   key, and the state is empty when every key is absent. *)
Record State : Type := {
  st_step : option Z;
  exp_avg : option Tensor;
  exp_avg_sq_R : option Tensor;
  exp_avg_sq_C : option Tensor;
  exp_avg_sq : option Tensor;
  exp_avg_sq_hat : option Tensor
}.

Definition empty_state : State :=
  {| st_step := None; exp_avg := None; exp_avg_sq_R := None;
     exp_avg_sq_C := None; exp_avg_sq := None; exp_avg_sq_hat := None |}.

Definition is_empty (s : State) : bool :=
  match st_step s, exp_avg s, exp_avg_sq_R s, exp_avg_sq_C s,
        exp_avg_sq s, exp_avg_sq_hat s with
  | None, None, None, None, None, None => true
  | _, _, _, _, _, _ => false
  end.

(* A parameter of a group together with its entry of [self.state], which
   is keyed by the identity of the parameter. *)
Record Slot : Type := {
  param : Param;
  state : State
}.

(* The entries of [defaults]; [lr] is [None] unless the caller gives one. *)
Record Hyper : Type := {
  beta1 : R;
  beta2 : R;
  eps1 : R;
  eps2 : R;
  cliping_threshold : R;
  weight_decay : R;
  ams_grad : bool;
  enable_factorization : bool;
  enable_momentum : bool;
  non_constant_decay : bool
}.

(* A param group: [group['params']], [group['lr']], the key ['factor']
   when the group has one, and the remaining entries. *)
Record Group : Type := {
  params : list Slot;
  lr : option R;
  factor : option R;
  hyper : Hyper
}.

Definition t : Type := list Group.

(* [__init__] up to the call of the base class: the dict [defaults]. *)
Definition defaults (lr : option R)
           (beta1 beta2 eps1 eps2 cliping_threshold : R)
           (non_constant_decay enable_factorization ams_grad : bool)
           (weight_decay : R) : option R * Hyper :=
  let enable_momentum := Rneqb beta1 0 in
  let ams_grad := if non_constant_decay then false else ams_grad in
  (lr,
   {| beta1 := beta1; beta2 := beta2; eps1 := eps1; eps2 := eps2;
      cliping_threshold := cliping_threshold; weight_decay := weight_decay;
      ams_grad := ams_grad; enable_factorization := enable_factorization;
      enable_momentum := enable_momentum;
      non_constant_decay := non_constant_decay |}).

(* [__init__] for a list of tensors: the base class makes one group with
   the defaults and starts with an empty [self.state]. *)
Definition init (ps : list Param) (lr : option R)
           (beta1 beta2 eps1 eps2 cliping_threshold : R)
           (non_constant_decay enable_factorization ams_grad : bool)
           (weight_decay : R) : t :=
  let d := defaults lr beta1 beta2 eps1 eps2 cliping_threshold
                    non_constant_decay enable_factorization ams_grad
                    weight_decay in
  [ {| params := map (fun p => {| param := p; state := empty_state |}) ps;
       lr := fst d; factor := None; hyper := snd d |} ].

(* The default values of the keyword arguments of [__init__]. *)
Definition default_beta1 : R := 9 / 10.
Definition default_beta2 : R := 999 / 1000.
Definition default_eps1 : R := / 10 ^ 30.
Definition default_eps2 : R := / 10 ^ 3.
Definition default_cliping_threshold : R := 1.
Definition default_ams_grad : bool := true.

(** *** Mutation of one parameter and its state, with exceptions *)

(* A computation on a slot: the slot after it, as far as the computation
   got, and its value or the exception that stopped it. *)
Definition M (A : Type) : Type := Slot -> Slot * result A.

Definition ret {A} (a : A) : M A := fun s => (s, Ok a).

Definition bind {A B} (m : M A) (k : A -> M B) : M B :=
  fun s =>
    match m s with
    | (s', Ok a) => k a s'
    | (s', Raise e) => (s', Raise e)
    end.

Definition lift {A} (r : result A) : M A := fun s => (s, r).

Definition get : M Slot := fun s => (s, Ok s).

Definition modify_state (f : State -> State) : M unit :=
  fun s => ({| param := param s; state := f (state s) |}, Ok tt).

(* An operation in place on [p.data]; when it raises, [p.data] is as it
   was. *)
Definition inplace_data (f : Tensor -> result Tensor) : M unit :=
  fun s =>
    match f (p_data (param s)) with
    | Ok d =>
        ({| param := {| p_data := d;
                        p_grad := p_grad (param s);
                        requires_grad := requires_grad (param s) |};
            state := state s |}, Ok tt)
    | Raise e => (s, Raise e)
    end.

Notation "x <-- c ;; k" := (bind c (fun x => k))
  (at level 61, c at next level, right associativity).
Notation "c ;;; k" := (bind c (fun _ => k))
  (at level 61, right associativity).

(* [state[key] = v] and [state[key]] for each key. *)
Definition set_step (v : Z) (s : State) : State :=
  {| st_step := Some v; exp_avg := exp_avg s;
     exp_avg_sq_R := exp_avg_sq_R s; exp_avg_sq_C := exp_avg_sq_C s;
     exp_avg_sq := exp_avg_sq s; exp_avg_sq_hat := exp_avg_sq_hat s |}.

Definition set_exp_avg (v : Tensor) (s : State) : State :=
  {| st_step := st_step s; exp_avg := Some v;
     exp_avg_sq_R := exp_avg_sq_R s; exp_avg_sq_C := exp_avg_sq_C s;
     exp_avg_sq := exp_avg_sq s; exp_avg_sq_hat := exp_avg_sq_hat s |}.

Definition set_exp_avg_sq_R (v : Tensor) (s : State) : State :=
  {| st_step := st_step s; exp_avg := exp_avg s;
     exp_avg_sq_R := Some v; exp_avg_sq_C := exp_avg_sq_C s;
     exp_avg_sq := exp_avg_sq s; exp_avg_sq_hat := exp_avg_sq_hat s |}.

Definition set_exp_avg_sq_C (v : Tensor) (s : State) : State :=
  {| st_step := st_step s; exp_avg := exp_avg s;
     exp_avg_sq_R := exp_avg_sq_R s; exp_avg_sq_C := Some v;
     exp_avg_sq := exp_avg_sq s; exp_avg_sq_hat := exp_avg_sq_hat s |}.

Definition set_exp_avg_sq (v : Tensor) (s : State) : State :=
  {| st_step := st_step s; exp_avg := exp_avg s;
     exp_avg_sq_R := exp_avg_sq_R s; exp_avg_sq_C := exp_avg_sq_C s;
     exp_avg_sq := Some v; exp_avg_sq_hat := exp_avg_sq_hat s |}.

Definition set_exp_avg_sq_hat (v : Tensor) (s : State) : State :=
  {| st_step := st_step s; exp_avg := exp_avg s;
     exp_avg_sq_R := exp_avg_sq_R s; exp_avg_sq_C := exp_avg_sq_C s;
     exp_avg_sq := exp_avg_sq s; exp_avg_sq_hat := Some v |}.

Definition lookup {A} (key : string) (field : State -> option A) : M A :=
  s <-- get ;;
  lift (match field (state s) with
        | Some v => Ok v
        | None => Raise (KeyError key)
        end).

(* An operation in place on the tensor stored under [key]; its value is
   that tensor after the operation.  When the operation raises, the tensor
   is as it was. *)
Definition inplace (key : string) (field : State -> option Tensor)
           (set : Tensor -> State -> State) (f : Tensor -> result Tensor)
  : M Tensor :=
  v <-- lookup key field ;;
  w <-- lift (f v) ;;
  modify_state (set w) ;;;
  ret w.

(* [state['step'] += 1]; its value is the new count. *)
Definition incr_step : M Z :=
  step <-- lookup "step" st_step ;;
  modify_state (set_step (step + 1)) ;;;
  ret (step + 1)%Z.

(** *** The methods *)

Definition _experimental_reshape (shape : list nat)
  : result (list nat * list nat) :=
  let temp_shape := skipn 2 shape in
  new_shape <-
    (if (List.length temp_shape =? 1)%nat then
       s0 <- index shape 0 ;;
       s1 <- index shape 1 ;;
       s2 <- index shape 2 ;;
       Ok [s0; (s1 * s2)%nat]
     else
       let tmp_div :=
         (List.length temp_shape / 2 + List.length temp_shape mod 2)%nat in
       s0 <- index shape 0 ;;
       a <- Ok (fold_left Nat.mul (skipn tmp_div temp_shape) 1%nat) ;;
       s1 <- index shape 1 ;;
       b <- Ok (fold_left Nat.mul (firstn tmp_div temp_shape) 1%nat) ;;
       Ok [(s0 * a)%nat; (s1 * b)%nat]) ;;
  Ok (new_shape, shape).

(* output1: the algorithm for matrices; output2: a reshape is needed. *)
Definition _check_shape (shape : list nat) : bool * bool :=
  if (2 <? List.length shape)%nat then (true, true)
  else if (List.length shape =? 2)%nat then (true, false)
  else if (List.length shape =? 2)%nat
          && ((nth 0 shape 0 =? 1) || (nth 1 shape 0 =? 1))%nat
       then (false, false)
  else (false, false).

Definition _rms (x : Tensor) : R := sqrt (mean (tmap (fun v => v ^ 2) x)).

(* [beta * (1 - beta ** (step - 1)) / (1 - beta ** step)] when
   [non_constant_decay], else [beta]. *)
Definition beta_t (non_constant_decay : bool) (beta : R) (step : Z)
  : result R :=
  if non_constant_decay then
    a <- py_pow_int beta (step - 1) ;;
    b <- py_pow_int beta step ;;
    py_div (beta * (1 - a)) (1 - b)
  else Ok beta.

(* Lines 514-537: the first touch of a parameter. *)
Definition init_state (group : Group) (is_matrix : bool)
           (new_shape : list nat) : M unit :=
  modify_state (set_step 0) ;;;
  (if enable_momentum (hyper group)
   then modify_state (set_exp_avg (zeros new_shape))
   else ret tt) ;;;
  (if is_matrix && enable_factorization (hyper group) then
     c <-- lift (index new_shape 1) ;;
     modify_state (set_exp_avg_sq_R (zeros [1%nat; c])) ;;;
     r <-- lift (index new_shape 0) ;;
     modify_state (set_exp_avg_sq_C (zeros [r; 1%nat]))
   else modify_state (set_exp_avg_sq (zeros new_shape))) ;;;
  (if ams_grad (hyper group)
   then modify_state (set_exp_avg_sq_hat (zeros new_shape))
   else ret tt).

(* Lines 539-549: the accumulators are fetched from the state. *)
Definition fetch_state (group : Group) (is_matrix : bool) : M unit :=
  (if enable_momentum (hyper group)
   then lookup "exp_avg" exp_avg ;;; ret tt else ret tt) ;;;
  (if is_matrix && enable_factorization (hyper group) then
     lookup "exp_avg_sq_R" exp_avg_sq_R ;;;
     lookup "exp_avg_sq_C" exp_avg_sq_C ;;; ret tt
   else lookup "exp_avg_sq" exp_avg_sq ;;; ret tt) ;;;
  (if ams_grad (hyper group)
   then lookup "exp_avg_sq_hat" exp_avg_sq_hat ;;; ret tt else ret tt).

(* Lines 551-600: the state is advanced and the update [u] computed; the
   value is [lr_t] and [u].  [beta1_t] is only bound, and only used, with
   momentum. *)
Definition compute_update (group : Group) (is_matrix : bool) (grad : Tensor)
  : M (R * Tensor) :=
  let h := hyper group in
  step <-- incr_step ;;
  lr0 <-- lift (match lr group with
                | Some v => Ok v
                | None => Raise TypeError
                end) ;;
  p <-- get ;;
  let lr_t := lr0 * Rmax (eps2 h) (_rms (p_data (param p))) in
  beta1_t <--
    (if enable_momentum h then
       b <-- lift (beta_t (non_constant_decay h) (beta1 h) step) ;;
       inplace "exp_avg" exp_avg set_exp_avg
               (fun e => tmap2 (fun e g => e * b + (1 - b) * g) e grad) ;;;
       ret b
     else ret 0) ;;
  beta2_t <-- lift (beta_t (non_constant_decay h) (beta2 h) step) ;;
  v <--
    (if is_matrix && enable_factorization h then
       let sq := tmap (fun x => x * x + eps1 h) grad in
       r <-- inplace "exp_avg_sq_R" exp_avg_sq_R set_exp_avg_sq_R
               (fun r => tmap2 (fun r s => r * beta2_t + (1 - beta2_t) * s)
                               r (sum_dim0 sq)) ;;
       c <-- inplace "exp_avg_sq_C" exp_avg_sq_C set_exp_avg_sq_C
               (fun c => tmap2 (fun c s => c * beta2_t + (1 - beta2_t) * s)
                               c (sum_dim1 sq)) ;;
       ret (tmap (fun x => x / tsum r) (outer c r))
     else
       inplace "exp_avg_sq" exp_avg_sq set_exp_avg_sq
               (fun a => tmap2 (fun a g => a * beta2_t + (1 - beta2_t) * (g * g)
                                           + (1 - beta2_t) * eps1 h)
                               a grad)) ;;
  g <--
    (if enable_momentum h then
       e <-- lookup "exp_avg" exp_avg ;;
       d <-- lift (py_pow_int beta1_t step) ;;
       ret (tmap (fun x => x / (1 - d)) e)
     else ret grad) ;;
  u <--
    (if ams_grad h then
       hat <-- inplace "exp_avg_sq_hat" exp_avg_sq_hat set_exp_avg_sq_hat
                 (fun hat => tmap2 Rmax hat v) ;;
       d <-- lift (py_pow_int beta2_t step) ;;
       lift (tmap2 (fun g v => g / (sqrt (v / (1 - d)) + eps1 h)) g hat)
     else lift (tmap2 (fun g v => g / sqrt v) g v)) ;;
  q <-- lift (py_div (_rms u) (cliping_threshold h)) ;;
  ret (lr_t, tmap (fun x => x / Rmax 1 q) u).

(* Lines 601-605: the update is applied to [p.data]. *)
Definition apply_update (group : Group) (reshaped : option (list nat))
           (lr_t : R) (u : Tensor) : M unit :=
  u <-- lift (match reshaped with
              | Some old_shape => view u old_shape
              | None => Ok u
              end) ;;
  inplace_data (fun d => tmap2 (fun x y => x + - lr_t * y) d u) ;;;
  (if Rneqb (weight_decay (hyper group)) 0
   then inplace_data
          (fun d => tmap2 (fun x y => x + - weight_decay (hyper group) * lr_t * y)
                          d d)
   else ret tt).

(* Lines 507-510: [new_shape], and [old_shape] when it is bound, for a
   parameter of size [size]. *)
Definition shapes_for (reshape : bool) (size : list nat)
  : result (list nat * option (list nat)) :=
  if reshape then
    r <- _experimental_reshape size ;;
    Ok (fst r, Some (snd r))
  else Ok (size, None).

(* Lines 498-605: the body of the loop, for the parameter [p] as it is when
   the iteration starts. *)
Definition param_body (group : Group) (p : Slot) : M unit :=
  match p_grad (param p) with
  | None => ret tt
  | Some g =>
      let grad := grad_data g in
      if is_sparse g then lift (Raise RuntimeError)
      else
        let (is_matrix, is_need_reshape) := _check_shape (shape grad) in
        let new_shape := shape (p_data (param p)) in
        let reshape :=
          is_need_reshape && enable_factorization (hyper group) in
        shapes <-- lift (shapes_for reshape new_shape) ;;
        let new_shape := fst (shapes : list nat * option (list nat)) in
        let old_shape := snd shapes in
        grad <-- lift (if reshape then view grad new_shape else Ok grad) ;;
        (if is_empty (state p) then init_state group is_matrix new_shape
         else ret tt) ;;;
        fetch_state group is_matrix ;;;
        lu <-- compute_update group is_matrix grad ;;
        apply_update group old_shape (fst lu) (snd lu)
  end.

Definition param_step (group : Group) : M unit :=
  p <-- get ;; param_body group p.

(* The loop over the parameters of a group: it stops at the first
   exception, which leaves the later parameters as they were. *)
Fixpoint step_params (group : Group) (slots : list Slot)
  : list Slot * result unit :=
  match slots with
  | [] => ([], Ok tt)
  | s :: rest =>
      match param_step group s with
      | (s', Ok _) =>
          let (rest', r) := step_params group rest in (s' :: rest', r)
      | (s', Raise e) => (s' :: rest, Raise e)
      end
  end.

Definition set_params (group : Group) (slots : list Slot) : Group :=
  {| params := slots; lr := lr group; factor := factor group;
     hyper := hyper group |}.

(* [step()], called without a closure: the loop over the groups. *)
Fixpoint step (o : t) : t * result unit :=
  match o with
  | [] => ([], Ok tt)
  | group :: rest =>
      match step_params group (params group) with
      | (slots, Ok _) =>
          let (rest', r) := step rest in (set_params group slots :: rest', r)
      | (slots, Raise e) => (set_params group slots :: rest, Raise e)
      end
  end.

End AdaFactor.

(** ** The optimizer builder *)

(* A group of the discriminative fine-tuning scheme:
   [{'params': ..., 'factor': ...}]. *)
Record ParamGroup : Type := {
  pg_params : list Param;
  pg_factor : R
}.

(* The first argument of [optim.Adam]: a list of tensors or of groups. *)
Inductive ParamsArg : Type :=
| Tensors (ps : list Param)
| Groups (gs : list ParamGroup).

(* What the builder returns.  An optimizer of torch or apex is recorded as
   the call that constructs it. *)
#[warnings="-register-all"]
Inductive TorchOptimizer : Type :=
| SGD (ps : list Param) (lr : R)
| Adagrad (ps : list Param) (lr initial_accumulator_value : R)
| Adadelta (ps : list Param) (lr : R)
| AdaFactorOptimizer (o : AdaFactor.t)
| Adam (ps : ParamsArg) (lr : R) (betas : R * R) (eps : R)
| FusedAdam (ps : ParamsArg) (lr : R) (betas : R * R)
| SparseAdam (ps : list Param) (lr : R) (betas : R * R) (eps : R)
| MultipleOptimizer (op : list TorchOptimizer)
| FP16_Optimizer (fused : bool) (inner : TorchOptimizer)
                 (static_loss_scale : R) (dynamic_loss_scale : bool).

(* [range(n - 1, -1, -1)]. *)
Definition range_down (n : Z) : list Z :=
  map Z.of_nat (rev (seq 0 (Z.to_nat n))).

Definition is_context (name : string) : bool :=
  contains "context" name || contains "ctx" name.

(* Lines 104-107: the parameters of one decoder layer that go into its
   group. *)
Definition layer_params (opt : Opt) (layer : list (string * Param))
  : list Param :=
  if full_context_lr opt
  then parameters (filter (fun np => negb (contains "context" (fst np))
                                     && negb (contains "ctx" (fst np)))
                          layer)
  else parameters layer.

(* Lines 102-109: the loop over the decoder layers, last layer first,
   carrying [factor] and [param_groups]. *)
Fixpoint layer_groups (opt : Opt) (dec : Decoder) (layer_nums : list Z)
         (factor : R) (param_groups : list ParamGroup)
  : result (R * list ParamGroup) :=
  match layer_nums with
  | [] => Ok (factor, param_groups)
  | layer_num :: rest =>
      factor <- py_div factor (disc_ft opt) ;;
      layer <- index (transformer_layers dec) layer_num ;;
      layer_groups opt dec rest factor
                   (param_groups
                      ++ [{| pg_params := layer_params opt layer;
                             pg_factor := factor |}])
  end.

(* Lines 65-118: the groups of discriminative fine-tuning. *)
Definition disc_ft_param_groups (model : Model) (opt : Opt)
  : result (list ParamGroup) :=
  let enc_params :=
    if encdec_share_params opt then []
    else match encoder model with
         | Some enc =>
             if share_embeddings opt
             then parameters (filter (fun np =>
                                        negb (contains "embeddings" (fst np)))
                                     enc)
             else parameters enc
         | None => []
         end in
  let decoder := decoder model in
  let param_groups :=
    match enc_params with
    | _ :: _ => [{| pg_params := enc_params; pg_factor := 1 |}]
    | [] => []
    end in
  gen_params <-
    (if share_decoder_embeddings opt then
       if full_gen_bias opt then
         b <- attribute "bias" (gen_0_bias (generator model)) ;; Ok [b]
       else if copy_attn opt then
         attribute "linear_copy" (gen_linear_copy (generator model))
       else Ok []
     else Ok (gen_parameters (generator model))) ;;
  let params_end := gen_params ++ parameters (layer_norm decoder) in
  let params_end :=
    if full_context_lr opt
    then params_end
           ++ parameters (filter (fun np => is_context (fst np))
                                 (dec_named_parameters decoder))
    else params_end in
  factor <- py_div 1 (dec_lr_factor opt) ;;
  let param_groups :=
    param_groups ++ [{| pg_params := params_end; pg_factor := factor |}] in
  fg <- layer_groups opt decoder (range_down (dec_layers opt))
                     factor param_groups ;;
  let (factor, param_groups) := (fg : R * list ParamGroup) in
  factor <- py_div factor (disc_ft opt) ;;
  let emb_params := parameters (embeddings decoder) in
  emb_params <-
    (if share_decoder_embeddings opt && negb (full_gen_bias opt) then
       if copy_attn opt then
         b <- attribute "bias" (gen_linear_bias (generator model)) ;;
         Ok (emb_params ++ [b])
       else
         b <- attribute "bias" (gen_0_bias (generator model)) ;;
         Ok (emb_params ++ [b])
     else Ok emb_params) ;;
  Ok (param_groups ++ [{| pg_params := emb_params; pg_factor := factor |}]).

(* Lines 120-127 count the elements of the grouped parameters that require
   a gradient, for a message on standard output. *)
Definition num_params (param_groups : list ParamGroup) : nat :=
  fold_left
    (fun n group =>
       fold_left (fun n p => if requires_grad p then (n + nelement p)%nat else n)
                 (pg_params group) n)
    param_groups 0%nat.

Definition build_torch_optimizer (model : Model) (opt : Opt)
  : result TorchOptimizer :=
  let is_adam := (optim opt =? "adam") || (optim opt =? "fusedadam") in
  if Rgtb (disc_ft opt) 0 && negb is_adam then Raise NotImplementedError
  else if Rgtb (disc_ft opt) 0 && share_decoder_embeddings opt
          && simple_fusion opt then Raise NotImplementedError
  else if Rgtb (disc_ft opt) 0 && share_decoder_embeddings opt
          && copy_attn opt && full_gen_bias opt then Raise NotImplementedError
  else if Rgtb (disc_ft opt) 0
          && negb (contains "transformer" (decoder_type opt))
       then Raise NotImplementedError
  else
  let params := filter requires_grad (parameters (named_parameters model)) in
  let betas := (adam_beta1 opt, adam_beta2 opt) in
  optimizer <-
    (if optim opt =? "sgd" then Ok (SGD params (learning_rate opt))
     else if optim opt =? "adagrad" then
       Ok (Adagrad params (learning_rate opt) (adagrad_accumulator_init opt))
     else if optim opt =? "adadelta" then
       Ok (Adadelta params (learning_rate opt))
     else if optim opt =? "adafactor" then
       Ok (AdaFactorOptimizer
             (AdaFactor.init params None
                AdaFactor.default_beta1 AdaFactor.default_beta2
                AdaFactor.default_eps1 AdaFactor.default_eps2
                AdaFactor.default_cliping_threshold
                true true AdaFactor.default_ams_grad 0))
     else if is_adam then
       param_groups <-
         (if Rgtb (disc_ft opt) 0
          then gs <- disc_ft_param_groups model opt ;; Ok (Groups gs)
          else Ok (Tensors params)) ;;
       if optim opt =? "adam"
       then Ok (Adam param_groups (learning_rate opt) betas (/ 10 ^ 9))
       else Ok (FusedAdam param_groups (learning_rate opt) betas)
     else if optim opt =? "sparseadam" then
       let trainable :=
         filter (fun np => requires_grad (snd np)) (named_parameters model) in
       let sparse :=
         parameters (filter (fun np => contains "embed" (fst np)) trainable) in
       let dense :=
         parameters (filter (fun np => negb (contains "embed" (fst np)))
                            trainable) in
       Ok (MultipleOptimizer
             [Adam (Tensors dense) (learning_rate opt) betas (/ 10 ^ 8);
              SparseAdam sparse (learning_rate opt) betas (/ 10 ^ 8)])
     else Raise (ValueError ("Invalid optimizer type: " ++ optim opt)%string)) ;;
  if model_dtype opt =? "fp16" then
    Ok (FP16_Optimizer (String.prefix "fused" (optim opt)) optimizer
                       (loss_scale opt) (negb (Rneqb (loss_scale opt) 0)))
  else Ok optimizer.

(* The groups handed to Adam or fused Adam, also below the mixed-precision
   wrapper. *)
Fixpoint built_param_groups (o : TorchOptimizer) : option (list ParamGroup) :=
  match o with
  | Adam (Groups gs) _ _ _ => Some gs
  | FusedAdam (Groups gs) _ _ => Some gs
  | FP16_Optimizer _ inner _ _ => built_param_groups inner
  | _ => None
  end.

(* The AdaFactor instance of a built optimizer, also below the wrapper. *)
Fixpoint built_adafactor (o : TorchOptimizer) : option AdaFactor.t :=
  match o with
  | AdaFactorOptimizer a => Some a
  | FP16_Optimizer _ inner _ _ => built_adafactor inner
  | _ => None
  end.

(** ** The training controller *)

(* What the controller asks of the optimizer it wraps, of its param groups
   (dicts with the keys [params] and [lr] and, for some, [factor]), of the
   loss and of torch.  [O] is the optimizer, [G] a param group, [P] a
   parameter, [L] a loss and [SD] the state dict of the optimizer.  An
   attribute that only some optimizers have is an option: [None] when
   [hasattr] is false. *)
Record TorchOps (O G P L SD : Type) : Type := {
  class_name : O -> string;
  param_groups : O -> list G;
  set_param_groups : O -> list G -> O;
  group_factor : G -> option R;
  group_lr : G -> option R;
  group_set_lr : G -> R -> G;
  group_params : G -> list P;
  group_set_params : G -> list P -> G;
  clip_grad_norm_ : list P -> R -> list P;
  optimizer_zero_grad : O -> O;
  optimizer_step : O -> O * result unit;
  optimizer_state_dict : O -> SD;
  optimizer_load_state_dict : O -> SD -> O * result unit;
  optimizer_backward : O -> L -> bool -> O;
  backward_takes_update_master_grads : O -> bool;
  update_master_grads : O -> option O;
  clip_master_grads : O -> option (R -> O);
  loss_backward : L -> O -> O
}.

Arguments class_name {O G P L SD}.
Arguments param_groups {O G P L SD}.
Arguments set_param_groups {O G P L SD}.
Arguments group_factor {O G P L SD}.
Arguments group_lr {O G P L SD}.
Arguments group_set_lr {O G P L SD}.
Arguments group_params {O G P L SD}.
Arguments group_set_params {O G P L SD}.
Arguments clip_grad_norm_ {O G P L SD}.
Arguments optimizer_zero_grad {O G P L SD}.
Arguments optimizer_step {O G P L SD}.
Arguments optimizer_state_dict {O G P L SD}.
Arguments optimizer_load_state_dict {O G P L SD}.
Arguments optimizer_backward {O G P L SD}.
Arguments backward_takes_update_master_grads {O G P L SD}.
Arguments update_master_grads {O G P L SD}.
Arguments clip_master_grads {O G P L SD}.
Arguments loss_backward {O G P L SD}.

(* Writing a key of a group dict leaves the other keys as they are. *)
Record GroupLaws {O G P L SD} (ops : TorchOps O G P L SD) : Prop := {
  lr_set_lr : forall g x, group_lr ops (group_set_lr ops g x) = Some x;
  params_set_lr :
    forall g x, group_params ops (group_set_lr ops g x) = group_params ops g;
  lr_set_params :
    forall g ps, group_lr ops (group_set_params ops g ps) = group_lr ops g;
  params_set_params :
    forall g ps, group_params ops (group_set_params ops g ps) = ps;
  groups_set_groups :
    forall o gs, param_groups ops (set_param_groups ops o gs) = gs
}.

Module Optimizer.

(* A call that [step] makes on the optimizer or on torch. *)
Inductive Call (P : Type) : Type :=
| CallUpdateMasterGrads
| CallClipMasterGrads (max_norm : R)
| CallClipGradNorm (ps : list P) (max_norm : R)
| CallStep.
Arguments CallUpdateMasterGrads {P}.
Arguments CallClipMasterGrads {P} max_norm.
Arguments CallClipGradNorm {P} ps max_norm.
Arguments CallStep {P}.

(* The dict of [state_dict] and [load_state_dict]: [None] is an absent
   key. *)
Record StateDict (SD : Type) : Type := {
  sd_training_step : option Z;
  sd_decay_step : option Z;
  sd_optimizer : option SD
}.
Arguments sd_training_step {SD}.
Arguments sd_decay_step {SD}.
Arguments sd_optimizer {SD}.

Record t (O : Type) : Type := {
  _optimizer : O;
  _learning_rate : R;
  _learning_rate_decay_fn : option DecayFn;
  _max_grad_norm : R;
  _training_step : Z;
  _decay_step : Z;
  _with_fp16_wrapper : bool
}.
Arguments _optimizer {O}.
Arguments _learning_rate {O}.
Arguments _learning_rate_decay_fn {O}.
Arguments _max_grad_norm {O}.
Arguments _training_step {O}.
Arguments _decay_step {O}.
Arguments _with_fp16_wrapper {O}.

Section Controller.
Context {O G P L SD : Type}.
Variable ops : TorchOps O G P L SD.

Definition set_optimizer (c : t O) (o : O) : t O :=
  {| _optimizer := o;
     _learning_rate := _learning_rate c;
     _learning_rate_decay_fn := _learning_rate_decay_fn c;
     _max_grad_norm := _max_grad_norm c;
     _training_step := _training_step c;
     _decay_step := _decay_step c;
     _with_fp16_wrapper := _with_fp16_wrapper c |}.

Definition set_training_step (c : t O) (n : Z) : t O :=
  {| _optimizer := _optimizer c;
     _learning_rate := _learning_rate c;
     _learning_rate_decay_fn := _learning_rate_decay_fn c;
     _max_grad_norm := _max_grad_norm c;
     _training_step := n;
     _decay_step := _decay_step c;
     _with_fp16_wrapper := _with_fp16_wrapper c |}.

Definition set_decay_step (c : t O) (n : Z) : t O :=
  {| _optimizer := _optimizer c;
     _learning_rate := _learning_rate c;
     _learning_rate_decay_fn := _learning_rate_decay_fn c;
     _max_grad_norm := _max_grad_norm c;
     _training_step := _training_step c;
     _decay_step := n;
     _with_fp16_wrapper := _with_fp16_wrapper c |}.

(* [max_grad_norm or 0]. *)
Definition init (optimizer : O) (learning_rate : R)
           (learning_rate_decay_fn : option DecayFn)
           (max_grad_norm : option R) : t O :=
  {| _optimizer := optimizer;
     _learning_rate := learning_rate;
     _learning_rate_decay_fn := learning_rate_decay_fn;
     _max_grad_norm := match max_grad_norm with
                       | Some x => x
                       | None => 0
                       end;
     _training_step := 1;
     _decay_step := 1;
     _with_fp16_wrapper := (class_name ops optimizer =? "FP16_Optimizer") |}.

Definition training_step (c : t O) : Z := _training_step c.

Definition learning_rate (c : t O) : result R :=
  match _learning_rate_decay_fn c with
  | None => Ok (_learning_rate c)
  | Some decay_fn =>
      scale <- decay_fn (_decay_step c) ;;
      Ok (scale * _learning_rate c)
  end.

Definition state_dict (c : t O) : StateDict SD :=
  {| sd_training_step := Some (_training_step c);
     sd_decay_step := Some (_decay_step c);
     sd_optimizer := Some (optimizer_state_dict ops (_optimizer c)) |}.

Definition load_state_dict (c : t O) (state_dict : StateDict SD)
  : t O * result unit :=
  match sd_training_step state_dict with
  | None => (c, Raise (KeyError "training_step"))
  | Some n =>
      let c := set_training_step c n in
      let c := match sd_decay_step state_dict with
               | Some n => set_decay_step c n
               | None => c
               end in
      match sd_optimizer state_dict with
      | Some sd =>
          let (o, r) := optimizer_load_state_dict ops (_optimizer c) sd in
          (set_optimizer c o, r)
      | None => (c, Ok tt)
      end
  end.

Definition zero_grad (c : t O) : t O :=
  set_optimizer c (optimizer_zero_grad ops (_optimizer c)).

Definition backward (c : t O) (loss : L) : t O :=
  if _with_fp16_wrapper c then
    let update_master_grads :=
      backward_takes_update_master_grads ops (_optimizer c) in
    set_optimizer c
      (optimizer_backward ops (_optimizer c) loss update_master_grads)
  else set_optimizer c (loss_backward ops loss (_optimizer c)).

(* Lines 419-424: the calls on the mixed-precision wrapper. *)
Definition master_grads (c : t O) : O * list (Call P) :=
  if _with_fp16_wrapper c then
    let (o, calls) :=
      match update_master_grads ops (_optimizer c) with
      | Some o => (o, [CallUpdateMasterGrads])
      | None => (_optimizer c, [])
      end in
    match clip_master_grads ops o with
    | Some clip =>
        if Rgtb (_max_grad_norm c) 0
        then (clip (_max_grad_norm c),
              calls ++ [CallClipMasterGrads (_max_grad_norm c)])
        else (o, calls)
    | None => (o, calls)
    end
  else (_optimizer c, []).

(* [group['factor']*learning_rate] or [learning_rate]. *)
Definition group_rate (learning_rate : R) (group : G) : R :=
  match group_factor ops group with
  | Some factor => factor * learning_rate
  | None => learning_rate
  end.

(* Lines 426-431: the body of the loop for one group. *)
Definition update_group (c : t O) (learning_rate : R) (group : G)
  : G * list (Call P) :=
  let group := group_set_lr ops group (group_rate learning_rate group) in
  if negb (_with_fp16_wrapper c) && Rgtb (_max_grad_norm c) 0 then
    (group_set_params ops group
       (clip_grad_norm_ ops (group_params ops group) (_max_grad_norm c)),
     [CallClipGradNorm (group_params ops group) (_max_grad_norm c)])
  else (group, []).

(* Lines 425-431: the loop over the groups. *)
Fixpoint update_groups (c : t O) (learning_rate : R) (groups : list G)
  : list G * list (Call P) :=
  match groups with
  | [] => ([], [])
  | group :: rest =>
      let (group, calls) := update_group c learning_rate group in
      let (rest, calls') := update_groups c learning_rate rest in
      (group :: rest, calls ++ calls')
  end.

(* Lines 418-431: the optimizer as [step] hands it to the underlying
   [step()], with the calls made so far. *)
Definition prepare (c : t O) : result (O * list (Call P)) :=
  learning_rate <- learning_rate c ;;
  let (o, calls) := master_grads c in
  let (groups, calls') := update_groups c learning_rate (param_groups ops o) in
  Ok (set_param_groups ops o groups, calls ++ calls').

(* [step()]: the controller after it, the calls it made, and its outcome.
   An exception leaves the counters as they are. *)
Definition step (c : t O) : t O * list (Call P) * result unit :=
  match prepare c with
  | Raise e => (c, [], Raise e)
  | Ok (o, calls) =>
      match optimizer_step ops o with
      | (o, Ok _) =>
          let c := set_optimizer c o in
          let c := set_decay_step c (_decay_step c + 1) in
          let c := set_training_step c (_training_step c + 1) in
          (c, calls ++ [CallStep], Ok tt)
      | (o, Raise e) => (set_optimizer c o, calls ++ [CallStep], Raise e)
      end
  end.

(* The operations of a controller. *)
Inductive Op : Type :=
| OpTrainingStep
| OpLearningRate
| OpStateDict
| OpLoadStateDict (state_dict : StateDict SD)
| OpZeroGrad
| OpBackward (loss : L)
| OpStep.

Definition is_load (op : Op) : bool :=
  match op with OpLoadStateDict _ => true | _ => false end.

Definition is_step (op : Op) : bool :=
  match op with OpStep => true | _ => false end.

(* The controller after an operation, and whether the operation
   completed. *)
Definition apply (op : Op) (c : t O) : t O * bool :=
  match op with
  | OpTrainingStep => (c, true)
  | OpLearningRate => (c, is_ok (learning_rate c))
  | OpStateDict => (c, true)
  | OpLoadStateDict sd =>
      let (c, r) := load_state_dict c sd in (c, is_ok r)
  | OpZeroGrad => (zero_grad c, true)
  | OpBackward loss => (backward c loss, true)
  | OpStep => let '(c, _, r) := step c in (c, is_ok r)
  end.

Definition run (ops_list : list Op) (c : t O) : t O :=
  fold_left (fun c op => fst (apply op c)) ops_list c.

(* The number of calls of [step] in a run that completed. *)
Fixpoint steps_completed (ops_list : list Op) (c : t O) : Z :=
  match ops_list with
  | [] => 0
  | op :: rest =>
      (match op with
       | OpStep => if snd (apply op c) then 1 else 0
       | _ => 0
       end + steps_completed rest (fst (apply op c)))%Z
  end.

(* [n] calls of [step] in a row, all completing, lead from [c] to [c']. *)
Inductive steps : nat -> t O -> t O -> Prop :=
| steps_O c : steps 0 c c
| steps_S n c calls c' c'' :
    step c = (c', calls, Ok tt) -> steps n c' c'' -> steps (S n) c c''.

End Controller.

End Optimizer.

(** ** Specification vocabulary for AdaFactor *)

Definition allocated {A} (o : option A) : bool :=
  match o with Some _ => true | None => false end.

(* Which keys a state has, with the sizes of the tensors. *)
Definition layout (s : AdaFactor.State)
  : bool * option (list nat) * option (list nat) * option (list nat)
    * option (list nat) * option (list nat) :=
  (allocated (AdaFactor.st_step s),
   option_map shape (AdaFactor.exp_avg s),
   option_map shape (AdaFactor.exp_avg_sq_R s),
   option_map shape (AdaFactor.exp_avg_sq_C s),
   option_map shape (AdaFactor.exp_avg_sq s),
   option_map shape (AdaFactor.exp_avg_sq_hat s)).

(* Two slots that differ at most in the values of [p.data] and of the
   tensors of the state. *)
Definition similar (s s' : AdaFactor.Slot) : Prop :=
  p_grad (AdaFactor.param s') = p_grad (AdaFactor.param s) /\
  requires_grad (AdaFactor.param s') = requires_grad (AdaFactor.param s) /\
  shape (p_data (AdaFactor.param s')) = shape (p_data (AdaFactor.param s)) /\
  layout (AdaFactor.state s') = layout (AdaFactor.state s).

Definition keeps {A} (m : AdaFactor.M A) : Prop :=
  forall s, similar s (fst (m s)).

(* The factored pair (either half of it) and the dense accumulator. *)
Definition has_factored (s : AdaFactor.State) : bool :=
  allocated (AdaFactor.exp_avg_sq_R s) || allocated (AdaFactor.exp_avg_sq_C s).

Definition has_dense (s : AdaFactor.State) : bool :=
  allocated (AdaFactor.exp_avg_sq s).

(* The sizes that [param_step] computes for a parameter with a dense
   gradient [g]: [is_matrix], and [new_shape] when the reshape succeeds. *)
Definition is_matrix_of (g : Grad) : bool :=
  fst (AdaFactor._check_shape (shape (grad_data g))).

Definition needs_reshape (group : AdaFactor.Group) (g : Grad) : bool :=
  snd (AdaFactor._check_shape (shape (grad_data g)))
  && AdaFactor.enable_factorization (AdaFactor.hyper group).

(* Line 511: the gradient as the visit uses it, viewed in [new_shape] when
   a reshape is needed. *)
Definition viewed (group : AdaFactor.Group) (g : Grad) (new_shape : list nat)
  : result Tensor :=
  if needs_reshape group g then view (grad_data g) new_shape
  else Ok (grad_data g).

(* The gradient of a parameter has the size of the parameter: torch checks
   it when [p.grad] is assigned. *)
Definition grad_fits (p : Param) : Prop :=
  match p_grad p with
  | Some g => shape (grad_data g) = shape (p_data p)
  | None => True
  end.

(* What happens to a parameter and its state over a training run: the
   optimizer visits it in a step, for a group that satisfies [G]; or the
   parameter changes outside the optimizer (the backward pass and
   [zero_grad] replace its gradient, clipping scales it), keeping its size. *)
Inductive slot_reachable (G : AdaFactor.Group -> Prop) (s0 : AdaFactor.Slot)
  : AdaFactor.Slot -> Prop :=
| reach_start : slot_reachable G s0 s0
| reach_step s group :
    slot_reachable G s0 s -> G group ->
    slot_reachable G s0 (fst (AdaFactor.param_step group s))
| reach_param s p :
    slot_reachable G s0 s ->
    shape (p_data p) = shape (p_data (AdaFactor.param s)) -> grad_fits p ->
    slot_reachable G s0 {| AdaFactor.param := p;
                           AdaFactor.state := AdaFactor.state s |}.

(* Lines 604-605 on [p.data]. *)
Definition weight_decayed (group : AdaFactor.Group) (lr_t : R) (d : Tensor)
  : result Tensor :=
  if Rneqb (AdaFactor.weight_decay (AdaFactor.hyper group)) 0
  then tmap2 (fun x y => x + - AdaFactor.weight_decay (AdaFactor.hyper group)
                             * lr_t * y) d d
  else Ok d.

(* Computations that leave the parameter alone. *)
Definition state_only {A} (m : AdaFactor.M A) : Prop :=
  forall s, AdaFactor.param (fst (m s)) = AdaFactor.param s.

(* The parameters in the order in which [step] visits them, each with its
   group. *)
Definition work (o : AdaFactor.t) : list (AdaFactor.Group * AdaFactor.Slot) :=
  flat_map (fun g => map (pair g) (AdaFactor.params g)) o.

Definition all_slots (o : AdaFactor.t) : list AdaFactor.Slot :=
  flat_map AdaFactor.params o.

Definition visit (gs : AdaFactor.Group * AdaFactor.Slot)
  : AdaFactor.Slot * result unit :=
  AdaFactor.param_step (fst gs) (snd gs).

(* The loop of [step] over that list. *)
Fixpoint run (w : list (AdaFactor.Group * AdaFactor.Slot))
  : list AdaFactor.Slot * result unit :=
  match w with
  | [] => ([], Ok tt)
  | v :: rest =>
      match visit v with
      | (s', Ok _) => let (rest', r) := run rest in (s' :: rest', r)
      | (s', Raise e) => (s' :: map snd rest, Raise e)
      end
  end.

Definition sparse_grad (s : AdaFactor.Slot) : Prop :=
  exists g, p_grad (AdaFactor.param s) = Some g /\ is_sparse g = true.

(* Expressions and computations that do not raise [RuntimeError]. *)
Definition calm {A} (r : result A) : Prop := r <> Raise RuntimeError.

Definition quiet {A} (m : AdaFactor.M A) : Prop :=
  forall s, calm (snd (m s)).

(* What the rest of training may do to an optimizer between its steps:
   anything that leaves the settings of the groups other than [lr] and
   [factor], and the state of every parameter, as they are. *)
Definition external (o o' : AdaFactor.t) : Prop :=
  Forall2 (fun g g' =>
             AdaFactor.hyper g' = AdaFactor.hyper g /\
             Forall2 (fun s s' => AdaFactor.state s' = AdaFactor.state s)
                     (AdaFactor.params g) (AdaFactor.params g'))
          o o'.

Inductive reachable (o0 : AdaFactor.t) : AdaFactor.t -> Prop :=
| reachable_start : reachable o0 o0
| reachable_step o :
    reachable o0 o -> reachable o0 (fst (AdaFactor.step o))
| reachable_external o o' :
    reachable o0 o -> external o o' -> reachable o0 o'.

(* No group with AMS tracking, no parameter with a running maximum. *)
Definition no_ams (o : AdaFactor.t) : Prop :=
  Forall (fun g =>
            AdaFactor.ams_grad (AdaFactor.hyper g) = false /\
            Forall (fun s => AdaFactor.exp_avg_sq_hat (AdaFactor.state s) = None)
                   (AdaFactor.params g))
         o.

(** ** Sample parameters for AdaFactor *)

Definition dense_param : Param :=
  {| p_data := {| shape := [2%nat]; data := [1; 2] |};
     p_grad := Some {| is_sparse := false;
                       grad_data := {| shape := [2%nat];
                                       data := [1 / 2; 1 / 2] |} |};
     requires_grad := true |}.

Definition sparse_param : Param :=
  {| p_data := {| shape := [2%nat]; data := [3; 4] |};
     p_grad := Some {| is_sparse := true;
                       grad_data := {| shape := [2%nat];
                                       data := [1 / 2; 0] |} |};
     requires_grad := true |}.

(* The settings of the AdaFactor that the builder makes. *)
Definition builder_hyper : AdaFactor.Hyper :=
  {| AdaFactor.beta1 := 9 / 10; AdaFactor.beta2 := 999 / 1000;
     AdaFactor.eps1 := / 10 ^ 30; AdaFactor.eps2 := / 10 ^ 3;
     AdaFactor.cliping_threshold := 1; AdaFactor.weight_decay := 0;
     AdaFactor.ams_grad := false; AdaFactor.enable_factorization := true;
     AdaFactor.enable_momentum := true;
     AdaFactor.non_constant_decay := true |}.

Definition fresh (p : Param) : AdaFactor.Slot :=
  {| AdaFactor.param := p; AdaFactor.state := AdaFactor.empty_state |}.

(* One group with a dense and a sparse parameter, after the controller has
   set its learning rate to 1. *)
Definition mixed_group : AdaFactor.Group :=
  {| AdaFactor.params := [fresh dense_param; fresh sparse_param];
     AdaFactor.lr := Some 1; AdaFactor.factor := None;
     AdaFactor.hyper := builder_hyper |}.

Definition mixed_adafactor : AdaFactor.t := [mixed_group].

(** ** Sample configurations and models *)

(* A configuration given by the fields that the samples below vary. *)
Definition sample_opt (optim : string) (disc_ft dec_lr_factor : R)
           (decay_method : string) (warmup train : Z) (ratio : R) : Opt := {|
  optim := optim;
  learning_rate := 1;
  adam_beta1 := 9 / 10;
  adam_beta2 := 999 / 1000;
  adagrad_accumulator_init := 0;
  disc_ft := disc_ft;
  dec_lr_factor := dec_lr_factor;
  dec_layers := 3;
  decoder_type := "transformer";
  share_decoder_embeddings := false;
  share_embeddings := false;
  encdec_share_params := false;
  simple_fusion := false;
  copy_attn := false;
  full_gen_bias := false;
  full_context_lr := false;
  model_dtype := "fp32";
  loss_scale := 0;
  decay_method := decay_method;
  warmup_steps := warmup;
  train_steps := train;
  rnn_size := 512;
  stlr_ratio := ratio;
  warmup_init_factor := 50;
  start_decay_steps := None;
  learning_rate_decay := 1 / 2;
  decay_steps := 10000
|}.

(* The slanted-triangular schedule. *)
Definition stlr_opt (warmup train : Z) (ratio : R) : Opt :=
  sample_opt "sgd" 0 1 "stlr" warmup train ratio.

(* Adam with discriminative fine-tuning, exponent 2. *)
Definition disc_ft_opt (dec_lr_factor : R) : Opt :=
  sample_opt "adam" 2 dec_lr_factor "" 0 0 1.

Definition vector_param (xs : list R) : Param :=
  {| p_data := {| shape := [List.length xs]; data := xs |};
     p_grad := None; requires_grad := true |}.

Definition sample_layer (k : R) : list (string * Param) :=
  [("self_attn.weight", vector_param [k]);
   ("context_attn.weight", vector_param [k + 1])].

(* A model with an encoder and a transformer decoder of three layers. *)
Definition three_layer_model : Model := {|
  named_parameters :=
    [("encoder.weight", vector_param [1]);
     ("decoder.embeddings.weight", vector_param [2]);
     ("generator.0.weight", vector_param [3])];
  encoder := Some [("weight", vector_param [1])];
  decoder :=
    {| dec_named_parameters := [("embeddings.weight", vector_param [2])];
       layer_norm := [("weight", vector_param [4])];
       transformer_layers := [sample_layer 10; sample_layer 20; sample_layer 30];
       embeddings := [("weight", vector_param [2])] |};
  generator :=
    {| gen_parameters := [vector_param [3]];
       gen_0_bias := None; gen_linear_copy := None; gen_linear_bias := None |}
|}.

(** ** Specification vocabulary for the builder *)

(* The groups appended by the loop over the layers. *)
Fixpoint appended_layer_groups (opt : Opt) (dec : Decoder) (layer_nums : list Z)
         (factor : R) (gs : list ParamGroup) : Prop :=
  match layer_nums, gs with
  | [], [] => True
  | n :: rest, g :: gs' =>
      pg_factor g = factor / disc_ft opt /\
      (exists layer, nth_error (transformer_layers dec) (Z.to_nat n) = Some layer
                     /\ pg_params g = layer_params opt layer) /\
      appended_layer_groups opt dec rest (factor / disc_ft opt) gs'
  | _, _ => False
  end.

Fixpoint strictly_decreasing (l : list R) : Prop :=
  match l with
  | x :: (y :: _) as rest => x > y /\ strictly_decreasing rest
  | _ => True
  end.

(* The group of encoder parameters, when there is one. *)
Definition encoder_groups (gs : list ParamGroup) : Prop :=
  gs = [] \/ exists ps, gs = [{| pg_params := ps; pg_factor := 1 |}].

(* What the builder returns for [three_layer_model] and [disc_ft_opt 1]. *)
Definition sample_built : TorchOptimizer :=
  Adam (Groups
          [ {| pg_params := [vector_param [1]]; pg_factor := 1 |};
            {| pg_params := [vector_param [3]; vector_param [4]];
               pg_factor := 1 / 1 |};
            {| pg_params := parameters (sample_layer 30);
               pg_factor := 1 / 1 / 2 |};
            {| pg_params := parameters (sample_layer 20);
               pg_factor := 1 / 1 / 2 / 2 |};
            {| pg_params := parameters (sample_layer 10);
               pg_factor := 1 / 1 / 2 / 2 / 2 |};
            {| pg_params := [vector_param [2]];
               pg_factor := 1 / 1 / 2 / 2 / 2 / 2 |} ])
       1 (9 / 10, 999 / 1000) (/ 10 ^ 9).

(* A rank-3 parameter with a dense gradient. *)
Definition rank3_param : Param :=
  {| p_data := {| shape := [2%nat; 1%nat; 2%nat]; data := [1; 2; 3; 4] |};
     p_grad := Some {| is_sparse := false;
                       grad_data := {| shape := [2%nat; 1%nat; 2%nat];
                                       data := [1; 1; 1; 1] |} |};
     requires_grad := true |}.

(* A group satisfies [factorizing] when its factorization is enabled. *)
Definition factorizing (group : AdaFactor.Group) : Prop :=
  AdaFactor.enable_factorization (AdaFactor.hyper group) = true.

(* A configuration that selects AdaFactor, and the instance that the
   builder makes from it for [three_layer_model]. *)
Definition adafactor_opt : Opt := sample_opt "adafactor" 0 1 "" 0 0 1.

Definition built_sample_adafactor : AdaFactor.t :=
  AdaFactor.init
    (filter requires_grad (parameters (named_parameters three_layer_model)))
    None AdaFactor.default_beta1 AdaFactor.default_beta2
    AdaFactor.default_eps1 AdaFactor.default_eps2
    AdaFactor.default_cliping_threshold true true AdaFactor.default_ams_grad 0.

(* The rank-3 parameter after its first visit. *)
Definition visited_rank3 : AdaFactor.Slot :=
  fst (AdaFactor.param_step mixed_group (fresh rank3_param)).

(** ** AdaFactor under the controller *)

(* [clip_grad_norm_] of torch, with the 2-norm: the gradients that exist
   are scaled by [max_norm / (total_norm + 1e-6)] when that is below 1. *)
Definition grad_sq_norm (p : Param) : R :=
  match p_grad p with
  | Some g => sum_list (map (fun x => x * x) (data (grad_data g)))
  | None => 0
  end.

Definition scale_grad (k : R) (p : Param) : Param :=
  {| p_data := p_data p;
     p_grad := match p_grad p with
               | Some g => Some {| is_sparse := is_sparse g;
                                   grad_data := tmap (fun x => x * k)
                                                     (grad_data g) |}
               | None => None
               end;
     requires_grad := requires_grad p |}.

Definition torch_clip_grad_norm_ (ps : list Param) (max_norm : R)
  : list Param :=
  let total_norm := sqrt (sum_list (map grad_sq_norm ps)) in
  let clip_coef := max_norm / (total_norm + / 10 ^ 6) in
  if Rlt_dec clip_coef 1 then map (scale_grad clip_coef) ps else ps.

Definition slot_map_params (f : list Param -> list Param)
           (slots : list AdaFactor.Slot) : list AdaFactor.Slot :=
  map (fun sp => {| AdaFactor.param := snd sp;
                    AdaFactor.state := AdaFactor.state (fst sp) |})
      (combine slots (f (map AdaFactor.param slots))).

Definition zero_param (p : Param) : Param :=
  {| p_data := p_data p;
     p_grad := match p_grad p with
               | Some g => Some {| is_sparse := is_sparse g;
                                   grad_data := tmap (fun _ => 0)
                                                     (grad_data g) |}
               | None => None
               end;
     requires_grad := requires_grad p |}.

(* AdaFactor as the optimizer of a controller.  A loss is the gradients
   that its backward pass leaves on the parameters; the state dict of the
   optimizer is the optimizer itself (groups and states).  AdaFactor has
   none of the methods of the mixed-precision wrapper. *)
Definition adafactor_ops
  : TorchOps AdaFactor.t AdaFactor.Group AdaFactor.Slot
             (AdaFactor.t -> AdaFactor.t) AdaFactor.t :=
  {| class_name := fun _ => "AdaFactor";
     param_groups := fun o => o;
     set_param_groups := fun _ gs => gs;
     group_factor := AdaFactor.factor;
     group_lr := AdaFactor.lr;
     group_set_lr := fun g x =>
       {| AdaFactor.params := AdaFactor.params g; AdaFactor.lr := Some x;
          AdaFactor.factor := AdaFactor.factor g;
          AdaFactor.hyper := AdaFactor.hyper g |};
     group_params := AdaFactor.params;
     group_set_params := AdaFactor.set_params;
     clip_grad_norm_ := fun slots max_norm =>
       slot_map_params (fun ps => torch_clip_grad_norm_ ps max_norm) slots;
     optimizer_zero_grad :=
       map (fun g => AdaFactor.set_params g
                       (slot_map_params (map zero_param) (AdaFactor.params g)));
     optimizer_step := AdaFactor.step;
     optimizer_state_dict := fun o => o;
     optimizer_load_state_dict := fun _ sd => (sd, Ok tt);
     optimizer_backward := fun o _ _ => o;
     backward_takes_update_master_grads := fun _ => false;
     update_master_grads := fun _ => None;
     clip_master_grads := fun _ => None;
     loss_backward := fun loss o => loss o |}.

(* A controller on [mixed_adafactor] with its dense parameter alone, with
   the reciprocal square root schedule and gradient clipping at 1. *)
Definition dense_group : AdaFactor.Group :=
  {| AdaFactor.params := [fresh dense_param];
     AdaFactor.lr := None; AdaFactor.factor := Some 2;
     AdaFactor.hyper := builder_hyper |}.

Definition sample_controller : Optimizer.t AdaFactor.t :=
  Optimizer.init adafactor_ops [dense_group] 1
                 (Some (fun step => rsqrt_decay step 4)) (Some 1).

(* A run of four operations, and the controller that has loaded its own
   state dict. *)
Definition sample_run
  : list (@Optimizer.Op (AdaFactor.t -> AdaFactor.t) AdaFactor.t) :=
  [Optimizer.OpStep; Optimizer.OpZeroGrad; Optimizer.OpLearningRate;
   Optimizer.OpStep].

Definition reloaded_controller : Optimizer.t AdaFactor.t :=
  fst (Optimizer.load_state_dict adafactor_ops sample_controller
         (Optimizer.state_dict adafactor_ops sample_controller)).

(* A controller on the same group with a constant learning rate and no
   gradient clipping. *)
Definition plain_controller : Optimizer.t AdaFactor.t :=
  Optimizer.init adafactor_ops [dense_group] (1 / 2) None None.
(** ** MultipleOptimizer *)

Module MultipleOptimizer.

(* [self.optimizers]. *)
Record t (O : Type) : Type := {
  optimizers : list O
}.
Arguments optimizers {O}.

Section Methods.
Context {O G P L SD K V : Type}.
Variable ops : TorchOps O G P L SD.
(* [op.state.items()] of an optimizer, the keys being parameters, and the
   equality of keys. *)
Variable optimizer_state : O -> list (K * V).
Variable key_eqb : K -> K -> bool.

Definition init (op : list O) : t O := {| optimizers := op |}.

(* The groups of the optimizers, one optimizer after the other. *)
Definition param_groups (m : t O) : list G :=
  flat_map (param_groups ops) (optimizers m).

Definition zero_grad (m : t O) : t O :=
  {| optimizers := map (optimizer_zero_grad ops) (optimizers m) |}.

(* The loop of [step]: an exception ends it, and the optimizers after the
   one that raised are not stepped. *)
Fixpoint step_each (op : list O) : list O * result unit :=
  match op with
  | [] => ([], Ok tt)
  | o :: rest =>
      match optimizer_step ops o with
      | (o', Ok _) =>
          let (rest', r) := step_each rest in (o' :: rest', r)
      | (o', Raise e) => (o' :: rest, Raise e)
      end
  end.

Definition step (m : t O) : t O * result unit :=
  let (op, r) := step_each (optimizers m) in ({| optimizers := op |}, r).

(* A dict as the list of its items in insertion order: [d[k] = v] and
   [d.get(k)]. *)
Fixpoint dict_set (k : K) (v : V) (d : list (K * V)) : list (K * V) :=
  match d with
  | [] => [(k, v)]
  | (k', v') :: d' =>
      if key_eqb k k' then (k, v) :: d' else (k', v') :: dict_set k v d'
  end.

Fixpoint dict_get (k : K) (d : list (K * V)) : option V :=
  match d with
  | [] => None
  | (k', v') :: d' => if key_eqb k k' then Some v' else dict_get k d'
  end.

(* [{k: v for op in self.optimizers for k, v in op.state.items()}]. *)
Definition state (m : t O) : list (K * V) :=
  fold_left (fun d kv => dict_set (fst kv) (snd kv) d)
            (flat_map optimizer_state (optimizers m)) [].

Definition state_dict (m : t O) : list SD :=
  map (optimizer_state_dict ops) (optimizers m).

(* The loop of [load_state_dict] over [range(len(state_dicts))]. *)
Fixpoint load_each (op : list O) (state_dicts : list SD)
  : list O * result unit :=
  match state_dicts, op with
  | [], _ => (op, Ok tt)
  | _ :: _, [] => ([], Raise IndexError)
  | sd :: state_dicts', o :: rest =>
      match optimizer_load_state_dict ops o sd with
      | (o', Ok _) =>
          let (rest', r) := load_each rest state_dicts' in (o' :: rest', r)
      | (o', Raise e) => (o' :: rest, Raise e)
      end
  end.

Definition load_state_dict (m : t O) (state_dicts : list SD)
  : t O * result unit :=
  if (List.length state_dicts =? List.length (optimizers m))%nat then
    let (op, r) := load_each (optimizers m) state_dicts in
    ({| optimizers := op |}, r)
  else (m, Raise AssertionError).

End Methods.

End MultipleOptimizer.

(** ** MultipleOptimizer under the controller *)

Section MultipleOps.
Context {O G P L SD : Type}.
Variable ops : TorchOps O G P L SD.

(* The dicts in [param_groups] of a [MultipleOptimizer] are those of its
   optimizers, so what the controller writes into them reaches their
   owners: each optimizer gets back as many groups as it has. *)
Fixpoint scatter (op : list O) (groups : list G) : list O :=
  match op with
  | [] => []
  | o :: rest =>
      let n := List.length (param_groups ops o) in
      set_param_groups ops o (firstn n groups) :: scatter rest (skipn n groups)
  end.

(* A [MultipleOptimizer] as the optimizer of a controller.  Its state dict
   is the list of the state dicts; the backward pass of a loss leaves its
   gradients on the parameters of every optimizer.  It has no [backward]
   and none of the methods of the mixed-precision wrapper. *)
Definition multiple_ops : TorchOps (MultipleOptimizer.t O) G P L (list SD) :=
  {| class_name := fun _ => "MultipleOptimizer";
     param_groups := MultipleOptimizer.param_groups ops;
     set_param_groups := fun m groups =>
       {| MultipleOptimizer.optimizers :=
            scatter (MultipleOptimizer.optimizers m) groups |};
     group_factor := group_factor ops;
     group_lr := group_lr ops;
     group_set_lr := group_set_lr ops;
     group_params := group_params ops;
     group_set_params := group_set_params ops;
     clip_grad_norm_ := clip_grad_norm_ ops;
     optimizer_zero_grad := MultipleOptimizer.zero_grad ops;
     optimizer_step := MultipleOptimizer.step ops;
     optimizer_state_dict := MultipleOptimizer.state_dict ops;
     optimizer_load_state_dict := MultipleOptimizer.load_state_dict ops;
     optimizer_backward := fun m _ _ => m;
     backward_takes_update_master_grads := fun _ => false;
     update_master_grads := fun _ => None;
     clip_master_grads := fun _ => None;
     loss_backward := fun loss m =>
       {| MultipleOptimizer.optimizers :=
            map (loss_backward ops loss) (MultipleOptimizer.optimizers m) |} |}.

End MultipleOps.
(** ** Optimizer.from_opt *)

(* The namespace [opt] as [from_opt] reads it: the options of the builder
   and of the schedules, and three more. *)
Record TrainOpt : Type := {
  options : Opt;
  train_from : string;
  reset_optim : string;
  max_grad_norm : option R
}.

(* [checkpoint['optim']]: an [Optimizer] object pickled by an older version
   of the class, of which [from_opt] reads the attribute [_step] and the
   state dict of the attribute [optimizer] ([None] is a missing
   attribute), or a state dict of the controller. *)
Inductive SavedOptim (SD : Type) : Type :=
| SavedController (_step : option Z) (optimizer : option SD)
| SavedStateDict (state_dict : Optimizer.StateDict SD).
Arguments SavedController {SD} _step optimizer.
Arguments SavedStateDict {SD} state_dict.

Record Checkpoint (SD : Type) : Type := {
  ckpt_optim : SavedOptim SD;
  ckpt_opt : TrainOpt
}.
Arguments ckpt_optim {SD}.
Arguments ckpt_opt {SD}.

Section FromOpt.
Context {G P L SD : Type}.
Variable ops : TorchOps TorchOptimizer G P L SD.

(* Lines 337-343. *)
Definition ckpt_state_dict (optim : SavedOptim SD)
  : result (Optimizer.StateDict SD) :=
  match optim with
  | SavedController _step optimizer =>
      step <- attribute "_step" _step ;;
      sd <- attribute "optimizer" optimizer ;;
      Ok {| Optimizer.sd_training_step := Some (step + 1)%Z;
            Optimizer.sd_decay_step := Some (step + 1)%Z;
            Optimizer.sd_optimizer := Some sd |}
  | SavedStateDict state_dict => Ok state_dict
  end.

(* [del optim_state_dict['optimizer']]. *)
Definition del_optimizer (state_dict : Optimizer.StateDict SD)
  : result (Optimizer.StateDict SD) :=
  match Optimizer.sd_optimizer state_dict with
  | Some _ =>
      Ok {| Optimizer.sd_training_step := Optimizer.sd_training_step state_dict;
            Optimizer.sd_decay_step := Optimizer.sd_decay_step state_dict;
            Optimizer.sd_optimizer := None |}
  | None => Raise (KeyError "optimizer")
  end.

(* The dict that [del] has changed is [checkpoint['optim']] itself when
   that is a state dict; for a saved controller it is a new dict. *)
Definition after_del (checkpoint : Checkpoint SD)
           (state_dict : Optimizer.StateDict SD) : Checkpoint SD :=
  match ckpt_optim checkpoint with
  | SavedController _ _ => checkpoint
  | SavedStateDict _ =>
      {| ckpt_optim := SavedStateDict state_dict;
         ckpt_opt := ckpt_opt checkpoint |}
  end.

(* The truth value of a dict. *)
Definition dict_nonempty (state_dict : Optimizer.StateDict SD) : bool :=
  match Optimizer.sd_training_step state_dict,
        Optimizer.sd_decay_step state_dict,
        Optimizer.sd_optimizer state_dict with
  | None, None, None => false
  | _, _, _ => true
  end.

(* Lines 331-359: [optim_opt] and [optim_state_dict], and the checkpoint
   as these lines leave it. *)
Definition select_state (opt : TrainOpt) (checkpoint : option (Checkpoint SD))
  : option (Checkpoint SD)
    * result (TrainOpt * option (Optimizer.StateDict SD)) :=
  match checkpoint with
  | Some ck =>
      if negb (train_from opt =? "") then
        match ckpt_state_dict (ckpt_optim ck) with
        | Raise e => (checkpoint, Raise e)
        | Ok state_dict =>
            if reset_optim opt =? "none" then
              (checkpoint, Ok (ckpt_opt ck, Some state_dict))
            else if reset_optim opt =? "all" then
              (checkpoint, Ok (opt, None))
            else if reset_optim opt =? "states" then
              match del_optimizer state_dict with
              | Raise e => (checkpoint, Raise e)
              | Ok state_dict' =>
                  (Some (after_del ck state_dict'),
                   Ok (ckpt_opt ck, Some state_dict'))
              end
            else if reset_optim opt =? "keep_states" then
              (checkpoint, Ok (opt, Some state_dict))
            else (checkpoint, Ok (opt, None))
        end
      else (checkpoint, Ok (opt, None))
  | None => (None, Ok (opt, None))
  end.

(* Lines 361-365: the controller for the options [optim_opt]. *)
Definition new_controller (model : Model) (optim_opt : TrainOpt)
  : result (Optimizer.t TorchOptimizer) :=
  o <- build_torch_optimizer model (options optim_opt) ;;
  fn <- make_learning_rate_decay_fn (options optim_opt) ;;
  Ok (Optimizer.init ops o (learning_rate (options optim_opt)) fn
                     (max_grad_norm optim_opt)).

(* [Optimizer.from_opt]: the checkpoint after the call, and the controller
   or the exception. *)
Definition from_opt (model : Model) (opt : TrainOpt)
           (checkpoint : option (Checkpoint SD))
  : option (Checkpoint SD) * result (Optimizer.t TorchOptimizer) :=
  match select_state opt checkpoint with
  | (checkpoint, Raise e) => (checkpoint, Raise e)
  | (checkpoint, Ok (optim_opt, optim_state_dict)) =>
      (checkpoint,
       optimizer <- new_controller model optim_opt ;;
       match optim_state_dict with
       | Some state_dict =>
           if dict_nonempty state_dict then
             let (optimizer, r) :=
               Optimizer.load_state_dict ops optimizer state_dict in
             _ <- r ;; Ok optimizer
           else Ok optimizer
       | None => Ok optimizer
       end)
  end.

End FromOpt.
(** ** Specification vocabulary for what the builder returns *)

(* [optimizer.__class__.__name__]. *)
Definition torch_class_name (o : TorchOptimizer) : string :=
  match o with
  | SGD _ _ => "SGD"
  | Adagrad _ _ _ => "Adagrad"
  | Adadelta _ _ => "Adadelta"
  | AdaFactorOptimizer _ => "AdaFactor"
  | Adam _ _ _ _ => "Adam"
  | FusedAdam _ _ _ => "FusedAdam"
  | SparseAdam _ _ _ _ => "SparseAdam"
  | MultipleOptimizer _ => "MultipleOptimizer"
  | FP16_Optimizer _ _ _ _ => "FP16_Optimizer"
  end.

Definition params_of_arg (a : ParamsArg) : list Param :=
  match a with
  | Tensors ps => ps
  | Groups gs => flat_map pg_params gs
  end.

(* Every parameter that an optimizer has been given, in the order of its
   groups. *)
Fixpoint optimized_params (o : TorchOptimizer) : list Param :=
  match o with
  | SGD ps _ => ps
  | Adagrad ps _ _ => ps
  | Adadelta ps _ => ps
  | AdaFactorOptimizer a => map AdaFactor.param (all_slots a)
  | Adam a _ _ _ => params_of_arg a
  | FusedAdam a _ _ => params_of_arg a
  | SparseAdam ps _ _ _ => ps
  | MultipleOptimizer op => flat_map optimized_params op
  | FP16_Optimizer _ inner _ _ => optimized_params inner
  end.

(* The names for which the builder has a branch. *)
Definition optimizer_names : list string :=
  ["sgd"; "adagrad"; "adadelta"; "adafactor"; "adam"; "fusedadam";
   "sparseadam"].
(** ** More samples *)

(* An AdaFactor with one dense parameter, after the controller has set the
   learning rate of its group to 1. *)
Definition ready_group : AdaFactor.Group :=
  {| AdaFactor.params := [fresh dense_param];
     AdaFactor.lr := Some 1; AdaFactor.factor := None;
     AdaFactor.hyper := builder_hyper |}.

Definition ready_adafactor : AdaFactor.t := [ready_group].

(* Two AdaFactor instances under one [MultipleOptimizer]: the step of the
   first completes, that of the second meets a sparse gradient. *)
Definition sample_multiple : MultipleOptimizer.t AdaFactor.t :=
  MultipleOptimizer.init [ready_adafactor; mixed_adafactor].

(* The states of two optimizers that both have an entry for the parameter
   1; numbers stand for the parameters that are the keys. *)
Definition sample_states : MultipleOptimizer.t (list (nat * R)) :=
  MultipleOptimizer.init [[(1%nat, 1); (2%nat, 2)]; [(1%nat, 3)]].

(* A controller on what the builder returns, as far as this module defines
   the optimizer: an AdaFactor instance is run as under [adafactor_ops],
   and its state dict is the instance; the optimizers of torch and apex
   stay as the builder made them. *)
Definition built_ops
  : TorchOps TorchOptimizer AdaFactor.Group AdaFactor.Slot
             (AdaFactor.t -> AdaFactor.t) TorchOptimizer :=
  {| class_name := torch_class_name;
     param_groups := fun o =>
       match o with AdaFactorOptimizer a => a | _ => [] end;
     set_param_groups := fun o gs =>
       match o with AdaFactorOptimizer _ => AdaFactorOptimizer gs | _ => o end;
     group_factor := group_factor adafactor_ops;
     group_lr := group_lr adafactor_ops;
     group_set_lr := group_set_lr adafactor_ops;
     group_params := group_params adafactor_ops;
     group_set_params := group_set_params adafactor_ops;
     clip_grad_norm_ := clip_grad_norm_ adafactor_ops;
     optimizer_zero_grad := fun o =>
       match o with
       | AdaFactorOptimizer a =>
           AdaFactorOptimizer (optimizer_zero_grad adafactor_ops a)
       | _ => o
       end;
     optimizer_step := fun o =>
       match o with
       | AdaFactorOptimizer a =>
           let (a', r) := AdaFactor.step a in (AdaFactorOptimizer a', r)
       | _ => (o, Ok tt)
       end;
     optimizer_state_dict := fun o => o;
     optimizer_load_state_dict := fun _ sd => (sd, Ok tt);
     optimizer_backward := fun o _ _ => o;
     backward_takes_update_master_grads := fun _ => false;
     update_master_grads := fun _ => None;
     clip_master_grads := fun _ => None;
     loss_backward := fun loss o =>
       match o with
       | AdaFactorOptimizer a => AdaFactorOptimizer (loss a)
       | _ => o
       end |}.

(* Options for training from a checkpoint, and a checkpoint that holds the
   state dict of a controller after 7 steps. *)
Definition resume_opt (reset : string) : TrainOpt :=
  {| options := sample_opt "adafactor" 0 1 "rsqrt" 4 0 1;
     train_from := "model.pt";
     reset_optim := reset;
     max_grad_norm := Some 1 |}.

Definition saved_opt : TrainOpt :=
  {| options := sample_opt "adafactor" 0 1 "noam" 8 0 1;
     train_from := "";
     reset_optim := "none";
     max_grad_norm := None |}.

Definition saved_state_dict : Optimizer.StateDict TorchOptimizer :=
  {| Optimizer.sd_training_step := Some 8%Z;
     Optimizer.sd_decay_step := Some 8%Z;
     Optimizer.sd_optimizer := Some (AdaFactorOptimizer ready_adafactor) |}.

Definition sample_checkpoint : Checkpoint TorchOptimizer :=
  {| ckpt_optim := SavedStateDict saved_state_dict; ckpt_opt := saved_opt |}.

(* What [from_opt] returns for [resume_opt "none"] and
   [sample_checkpoint]: the options of the checkpoint, its counters and its
   optimizer. *)
Definition resumed_controller : Optimizer.t TorchOptimizer :=
  {| Optimizer._optimizer := AdaFactorOptimizer ready_adafactor;
     Optimizer._learning_rate := 1;
     Optimizer._learning_rate_decay_fn :=
       Some (fun step => noam_decay step 8 512);
     Optimizer._max_grad_norm := 0;
     Optimizer._training_step := 8;
     Optimizer._decay_step := 8;
     Optimizer._with_fp16_wrapper := false |}.

(* A checkpoint with a controller of the older class, saved at step 7. *)
Definition legacy_checkpoint : Checkpoint TorchOptimizer :=
  {| ckpt_optim := SavedController (Some 7%Z)
                                   (Some (AdaFactorOptimizer ready_adafactor));
     ckpt_opt := saved_opt |}.

(* The controller that [from_opt] builds from [saved_opt] without a
   checkpoint. *)
Definition started_controller : Optimizer.t TorchOptimizer :=
  Optimizer.init built_ops (AdaFactorOptimizer built_sample_adafactor) 1
                 (Some (fun step => noam_decay step 8 512)) None.
(* ================================================================== *)
(** * Properties *)

(** ** Python arithmetic *)

Lemma py_div_ok (x y : R) : y <> 0 -> py_div x y = Ok (x / y).
Proof.
  intros Hy. unfold py_div. destruct (Req_dec_T y 0); [contradiction | reflexivity].
Qed.

Lemma py_div_zero (x : R) : py_div x 0 = Raise ZeroDivisionError.
Proof.
  unfold py_div. destruct (Req_dec_T 0 0) as [_ | H]; [reflexivity | now elim H].
Qed.

Lemma py_sqrt_ok (x : R) : 0 <= x -> py_sqrt x = Ok (sqrt x).
Proof.
  intros Hx. unfold py_sqrt. destruct (Rlt_dec x 0); [lra | reflexivity].
Qed.

Lemma py_floordiv_ok (a b : Z) : b <> 0%Z -> py_floordiv a b = Ok (a / b)%Z.
Proof.
  intros Hb. unfold py_floordiv.
  destruct (Z.eqb_spec b 0); [contradiction | reflexivity].
Qed.

Lemma Rgtb_true (x y : R) : y < x -> Rgtb x y = true.
Proof. intros H. unfold Rgtb. destruct (Rlt_dec y x); [reflexivity | contradiction]. Qed.

Lemma Rgtb_false (x y : R) : x <= y -> Rgtb x y = false.
Proof. intros H. unfold Rgtb. destruct (Rlt_dec y x); [lra | reflexivity]. Qed.

Lemma rbind_ok {A B} (r : result A) (k : A -> result B) (b : B) :
  rbind r k = Ok b -> exists a, r = Ok a /\ k a = Ok b.
Proof. destruct r as [a | e]; cbn; [eauto | discriminate]. Qed.

Lemma py_div_inv (x y q : R) : py_div x y = Ok q -> y <> 0 /\ q = x / y.
Proof.
  unfold py_div. destruct (Req_dec_T y 0); [discriminate |].
  intros H. injection H as <-. now split.
Qed.

Lemma index_inv {A} (l : list A) (i : Z) (v : A) :
  index l i = Ok v -> nth_error l (Z.to_nat i) = Some v.
Proof.
  unfold index. destruct (nth_error l (Z.to_nat i)); [| discriminate].
  now intros [= ->].
Qed.

Ltac py_eval :=
  repeat first
    [ rewrite py_div_ok by lra
    | rewrite Rgtb_true by lra
    | rewrite Rgtb_false by lra
    | progress cbv - [py_div Rgtb Rneqb py_sqrt py_pow_int py_pow_frac
                      IZR Rdiv Rinv Rmult Rplus Rminus Ropp pow sqrt
                      Rmax Rmin Rlt_dec Req_dec_T] ].

(** ** Exponential decay *)

Lemma exponential_decay_exponent (step : Z) (rate : R) (d start e : Z) :
  (0 < d)%Z ->
  (Z.max (step - start + d) 0 / d)%Z = e -> (0 <= e)%Z ->
  exponential_decay step rate d start = Ok (rate ^ Z.to_nat e).
Proof.
  intros Hd He Hpos. unfold exponential_decay.
  rewrite py_floordiv_ok by lia. cbn [rbind]. rewrite He.
  unfold py_pow_int. destruct (Z.leb_spec 0 e); [reflexivity | lia].
Qed.

(** C1 (as the code has it).  At [step = start_step] the exponent is
    [decay_steps // decay_steps = 1], so the scale is [rate] itself: the
    first decay is applied at [start_step].  The scale is [rate ** 0 = 1]
    at every step before [start_step]. *)
Theorem exponential_decay_at_start (rate : R) (d start : Z) :
  (0 < d)%Z ->
  exponential_decay start rate d start = Ok rate /\
  (forall step, (step < start)%Z ->
                exponential_decay step rate d start = Ok 1).
Proof.
  intros Hd. split.
  - rewrite (exponential_decay_exponent start rate d start 1 Hd).
    + change (Z.to_nat 1) with 1%nat. now rewrite pow_1.
    + replace (start - start + d)%Z with d by lia.
      rewrite Z.max_l by lia. apply Z.div_same. lia.
    + lia.
  - intros step Hlt.
    rewrite (exponential_decay_exponent step rate d start 0 Hd).
    + reflexivity.
    + apply Z.div_small. lia.
    + lia.
Qed.

Lemma exponential_decay_at_start_witness :
  exponential_decay 5 (1 / 2) 3 5 = Ok (1 / 2) /\
  (forall step, (step < 5)%Z -> exponential_decay step (1 / 2) 3 5 = Ok 1).
Proof.
  apply (exponential_decay_at_start (1 / 2) 3 5). lia.
Defined.

(** C1 as stated fails: with [rate = 1/2], [decay_steps = 1] and
    [start_step = 0], the call at [step = start_step] returns [1/2], not 1. *)
Lemma exponential_decay_at_start_not_one :
  exponential_decay 0 (1 / 2) 1 0 = Ok (1 / 2) /\
  exponential_decay 0 (1 / 2) 1 0 <> Ok 1.
Proof.
  assert (E : exponential_decay 0 (1 / 2) 1 0 = Ok (1 / 2)).
  { rewrite (exponential_decay_exponent 0 (1 / 2) 1 0 1); try lia.
    - change (Z.to_nat 1) with 1%nat. now rewrite pow_1.
    - reflexivity. }
  split; [exact E |].
  rewrite E. intros H. injection H as H. lra.
Qed.

(** ** Reciprocal square root decay *)

Lemma rsqrt_decay_pos (step warmup : Z) :
  (0 < Z.max step warmup)%Z ->
  rsqrt_decay step warmup = Ok (1 / sqrt (IZR (Z.max step warmup))).
Proof.
  intros Hpos. unfold rsqrt_decay.
  assert (Hr : 0 < IZR (Z.max step warmup)) by now apply IZR_lt.
  rewrite py_sqrt_ok by lra. cbn [rbind].
  apply py_div_ok. apply Rgt_not_eq. now apply sqrt_lt_R0.
Qed.

(* Outside that domain the call raises: [1.0 / 0.0] at 0, a math domain
   error below. *)
Lemma rsqrt_decay_zero (step warmup : Z) :
  Z.max step warmup = 0%Z ->
  rsqrt_decay step warmup = Raise ZeroDivisionError.
Proof.
  intros E. unfold rsqrt_decay. rewrite E.
  rewrite py_sqrt_ok by lra. cbn [rbind]. rewrite sqrt_0. apply py_div_zero.
Qed.

Lemma rsqrt_decay_neg (step warmup : Z) :
  (Z.max step warmup < 0)%Z ->
  rsqrt_decay step warmup = Raise (ValueError "math domain error").
Proof.
  intros Hneg. unfold rsqrt_decay, py_sqrt.
  assert (Hr : IZR (Z.max step warmup) < 0) by now apply IZR_lt.
  destruct (Rlt_dec _ 0); [reflexivity | contradiction].
Qed.

(** C9.  Wherever [1/sqrt(max(step, warmup_steps))] is defined, that is for
    [max(step, warmup_steps) > 0], [rsqrt_decay] returns it; it is
    [1/sqrt(step)] when [step >= warmup_steps] and [1/sqrt(warmup_steps)]
    when [step < warmup_steps]. *)
Theorem rsqrt_decay_spec (step warmup : Z) :
  (0 < Z.max step warmup)%Z ->
  rsqrt_decay step warmup = Ok (1 / sqrt (IZR (Z.max step warmup))) /\
  ((warmup <= step)%Z -> rsqrt_decay step warmup = Ok (1 / sqrt (IZR step))) /\
  ((step < warmup)%Z -> rsqrt_decay step warmup = Ok (1 / sqrt (IZR warmup))).
Proof.
  intros Hpos. repeat split.
  - now apply rsqrt_decay_pos.
  - intros Hle. rewrite rsqrt_decay_pos by assumption.
    now rewrite Z.max_l by lia.
  - intros Hlt. rewrite rsqrt_decay_pos by assumption.
    now rewrite Z.max_r by lia.
Qed.

Lemma rsqrt_decay_spec_witness :
  (0 < Z.max 9 4)%Z /\
  rsqrt_decay 9 4 = Ok (1 / sqrt (IZR (Z.max 9 4))) /\
  ((4 <= 9)%Z -> rsqrt_decay 9 4 = Ok (1 / sqrt (IZR 9))) /\
  ((9 < 4)%Z -> rsqrt_decay 9 4 = Ok (1 / sqrt (IZR 4))).
Proof.
  split; [lia | apply (rsqrt_decay_spec 9 4); lia].
Defined.

(** ** Selection of the schedule *)

Lemma make_stlr_raises_iff (opt : Opt) :
  decay_method opt = "stlr" ->
  (make_learning_rate_decay_fn opt
   = Raise (ValueError "warmup_steps should be smaller than train_steps")
   <-> (warmup_steps opt > train_steps opt)%Z) /\
  ((warmup_steps opt <= train_steps opt)%Z ->
   make_learning_rate_decay_fn opt
   = Ok (Some (fun step => stlr_decay step (warmup_steps opt)
                                      (train_steps opt) (stlr_ratio opt)))).
Proof.
  intros Hm. unfold make_learning_rate_decay_fn. rewrite Hm. cbn.
  destruct (Z.gtb_spec (warmup_steps opt) (train_steps opt)) as [Hgt | Hle].
  - split; [split; [lia | reflexivity] | lia].
  - split; [split; [discriminate | lia] | reflexivity].
Qed.

Lemma stlr_decay_equal_steps (step n : Z) (ratio : R) :
  n <> 0%Z -> stlr_decay step n n ratio = Raise ZeroDivisionError.
Proof.
  intros Hn. unfold stlr_decay.
  assert (Hr : IZR n <> 0) by now apply not_0_IZR.
  rewrite !(py_div_ok _ (IZR n)) by assumption. cbn [rbind].
  replace (IZR n / IZR n) with 1 by now field.
  rewrite (py_div_ok 1 1) by lra. cbn [rbind].
  replace (IZR n * (1 / 1 - 1)) with 0 by lra.
  now rewrite py_div_zero.
Qed.

(** C2 on the code.  With [warmup_steps = train_steps = 100] the guard
    [warmup_steps > train_steps] lets the configuration through: no error
    at setup, and the schedule it returns raises [ZeroDivisionError] at
    every step. *)
Theorem make_stlr_equal_steps_accepted (ratio : R) :
  make_learning_rate_decay_fn (stlr_opt 100 100 ratio)
  = Ok (Some (fun step => stlr_decay step 100 100 ratio)) /\
  (forall step, stlr_decay step 100 100 ratio = Raise ZeroDivisionError).
Proof.
  split.
  - reflexivity.
  - intros step. apply stlr_decay_equal_steps. lia.
Qed.

(** ** Discriminative fine-tuning groups *)

Lemma layer_groups_inv (opt : Opt) (dec : Decoder) (layer_nums : list Z) :
  forall factor gs factor' gs',
    layer_groups opt dec layer_nums factor gs = Ok (factor', gs') ->
    exists new,
      gs' = gs ++ new /\
      appended_layer_groups opt dec layer_nums factor new /\
      factor' = factor / disc_ft opt ^ List.length layer_nums.
Proof.
  induction layer_nums as [| n rest IH]; intros factor gs factor' gs' H.
  - cbn in H. injection H as <- <-. exists []. rewrite app_nil_r. cbn.
    repeat split. field.
  - cbn [layer_groups] in H.
    apply rbind_ok in H as (f1 & Hf1 & H).
    apply rbind_ok in H as (layer & Hl & H).
    apply py_div_inv in Hf1 as [Hd ->].
    apply index_inv in Hl.
    apply IH in H as (new & -> & Happ & ->).
    eexists (_ :: new). rewrite <- app_assoc. split; [reflexivity |].
    split.
    + cbn. repeat split; eauto.
    + cbn [List.length pow]. field. split; [now apply pow_nonzero | assumption].
Qed.

Lemma disc_ft_param_groups_inv (model : Model) (opt : Opt) (gs : list ParamGroup) :
  disc_ft_param_groups model opt = Ok gs ->
  exists enc tail layers emb,
    gs = enc ++ [tail] ++ layers ++ [emb] /\
    encoder_groups enc /\
    dec_lr_factor opt <> 0 /\
    pg_factor tail = 1 / dec_lr_factor opt /\
    appended_layer_groups opt (decoder model) (range_down (dec_layers opt))
                          (1 / dec_lr_factor opt) layers /\
    pg_factor emb = 1 / dec_lr_factor opt
                    / disc_ft opt ^ List.length (range_down (dec_layers opt))
                    / disc_ft opt.
Proof.
  unfold disc_ft_param_groups. intros H.
  apply rbind_ok in H as (gen_params & _ & H).
  apply rbind_ok in H as (f0 & Hf0 & H).
  apply rbind_ok in H as ([f1 gs1] & Hloop & H).
  apply rbind_ok in H as (f2 & Hf2 & H).
  apply rbind_ok in H as (emb_params & _ & H).
  injection H as <-.
  apply py_div_inv in Hf0 as [Hdlf ->].
  apply py_div_inv in Hf2 as [_ ->].
  apply layer_groups_inv in Hloop as (new & -> & Happ & ->).
  lazymatch goal with
  | |- context [((?e ++ [?t]) ++ new) ++ [?m]] => exists e, t, new, m
  end.
  rewrite <- !app_assoc. split; [reflexivity |].
  split.
  { unfold encoder_groups.
    destruct (if encdec_share_params opt then _ else _); eauto. }
  repeat split; assumption.
Qed.

Lemma build_disc_ft_inv (model : Model) (opt : Opt) (o : TorchOptimizer) :
  0 < disc_ft opt ->
  build_torch_optimizer model opt = Ok o ->
  exists gs, disc_ft_param_groups model opt = Ok gs /\
             built_param_groups o = Some gs.
Proof.
  intros Hpos. unfold build_torch_optimizer.
  rewrite (Rgtb_true _ _ Hpos). cbn [andb].
  destruct (optim opt =? "adam") eqn:Eadam;
    destruct (optim opt =? "fusedadam") eqn:Efused; cbn [orb negb];
    try discriminate;
    (destruct (share_decoder_embeddings opt && simple_fusion opt);
     [discriminate |]);
    (destruct (share_decoder_embeddings opt && copy_attn opt && full_gen_bias opt);
     [discriminate |]);
    (destruct (negb (contains "transformer" (decoder_type opt)));
     [discriminate |]).
  all: try (apply String.eqb_eq in Eadam; rewrite Eadam in *; cbn [String.eqb Ascii.eqb Bool.eqb]).
  all: try (apply String.eqb_eq in Efused; rewrite Efused in *; cbn [String.eqb Ascii.eqb Bool.eqb]).
  all: try discriminate.
  all: intros H; apply rbind_ok in H as (o1 & H1 & H).
  all: apply rbind_ok in H1 as (pg & Hpg & H1).
  all: apply rbind_ok in Hpg as (gs & Hgs & Hpg).
  all: injection Hpg as <-; injection H1 as <-.
  all: exists gs; split; [assumption |].
  all: destruct (model_dtype opt =? "fp16"); injection H as <-; reflexivity.
Qed.

(** C3.  With [disc_ft = 2], [dec_layers = 3] and a positive
    [dec_lr_factor] [f], the groups that the builder hands to Adam are an
    optional encoder group followed by tail, layer 2, layer 1, layer 0 and
    embeddings, with factors [1/f], [1/(2f)], [1/(4f)], [1/(8f)], [1/(16f)],
    strictly decreasing; the three middle groups hold the parameters of the
    decoder layers 2, 1 and 0. *)
Theorem disc_ft_three_layer_factors (model : Model) (opt : Opt)
        (o : TorchOptimizer) :
  disc_ft opt = 2 -> dec_layers opt = 3%Z -> 0 < dec_lr_factor opt ->
  build_torch_optimizer model opt = Ok o ->
  let f := dec_lr_factor opt in
  let layers := transformer_layers (decoder model) in
  exists enc tail layer2 layer1 layer0 emb,
    built_param_groups o = Some (enc ++ [tail; layer2; layer1; layer0; emb]) /\
    encoder_groups enc /\
    map pg_factor [tail; layer2; layer1; layer0; emb]
    = [1 / f; 1 / (f * 2); 1 / (f * 4); 1 / (f * 8); 1 / (f * 16)] /\
    strictly_decreasing (map pg_factor [tail; layer2; layer1; layer0; emb]) /\
    (exists l, nth_error layers 2 = Some l /\ pg_params layer2 = layer_params opt l) /\
    (exists l, nth_error layers 1 = Some l /\ pg_params layer1 = layer_params opt l) /\
    (exists l, nth_error layers 0 = Some l /\ pg_params layer0 = layer_params opt l).
Proof.
  intros Hft Hn Hf Hbuild f layers.
  apply build_disc_ft_inv in Hbuild as (gs & Hgs & Hbuilt); [| lra].
  apply disc_ft_param_groups_inv in Hgs
    as (enc & tail & new & emb & -> & Henc & Hnz & Htail & Hnew & Hemb).
  rewrite Hn, Hft in *.
  change (range_down 3) with [2%Z; 1%Z; 0%Z] in *.
  destruct new as [| g2 [| g1 [| g0 [| ? ?]]]]; cbn in Hnew; try tauto.
  destruct Hnew as (F2 & L2 & F1 & L1 & F0 & L0 & _).
  exists enc, tail, g2, g1, g0, emb.
  split; [exact Hbuilt |]. split; [exact Henc |].
  assert (Hfs : map pg_factor [tail; g2; g1; g0; emb]
                = [1 / f; 1 / (f * 2); 1 / (f * 4); 1 / (f * 8); 1 / (f * 16)]).
  { cbn [map]. rewrite Htail, F2, F1, F0, Hemb, ?Hft. fold f.
    cbn [List.length pow].
    repeat (apply f_equal2; [first [reflexivity | field; assumption] |]).
    reflexivity. }
  split; [exact Hfs |]. split.
  - rewrite Hfs. cbn.
    assert (Hinv : 0 < / f) by now apply Rinv_0_lt_compat.
    repeat split; unfold Rdiv; rewrite !Rinv_mult; nra.
  - repeat split; assumption.
Qed.

Lemma sample_build_ok :
  build_torch_optimizer three_layer_model (disc_ft_opt 1) = Ok sample_built.
Proof. py_eval. reflexivity. Qed.

Lemma disc_ft_three_layer_factors_witness :
  exists enc tail layer2 layer1 layer0 emb,
    built_param_groups sample_built
    = Some (enc ++ [tail; layer2; layer1; layer0; emb]) /\
    encoder_groups enc /\
    map pg_factor [tail; layer2; layer1; layer0; emb]
    = [1 / 1; 1 / (1 * 2); 1 / (1 * 4); 1 / (1 * 8); 1 / (1 * 16)] /\
    strictly_decreasing (map pg_factor [tail; layer2; layer1; layer0; emb]) /\
    (exists l, nth_error [sample_layer 10; sample_layer 20; sample_layer 30] 2
               = Some l
               /\ pg_params layer2 = layer_params (disc_ft_opt 1) l) /\
    (exists l, nth_error [sample_layer 10; sample_layer 20; sample_layer 30] 1
               = Some l
               /\ pg_params layer1 = layer_params (disc_ft_opt 1) l) /\
    (exists l, nth_error [sample_layer 10; sample_layer 20; sample_layer 30] 0
               = Some l
               /\ pg_params layer0 = layer_params (disc_ft_opt 1) l).
Proof.
  apply (disc_ft_three_layer_factors three_layer_model (disc_ft_opt 1)
                                     sample_built).
  - reflexivity.
  - reflexivity.
  - cbn. lra.
  - exact sample_build_ok.
Defined.
(** ** AdaFactor *)

Section AdaFactorMonad.
Import AdaFactor.

Lemma similar_refl s : similar s s.
Proof. repeat split. Qed.

Lemma similar_trans s1 s2 s3 : similar s1 s2 -> similar s2 s3 -> similar s1 s3.
Proof.
  intros (A1 & B1 & C1 & D1) (A2 & B2 & C2 & D2).
  repeat split; congruence.
Qed.

Lemma keeps_ret {A} (a : A) : keeps (ret a).
Proof. intros s. apply similar_refl. Qed.

Lemma keeps_lift {A} (r : result A) : keeps (lift r).
Proof. intros s. apply similar_refl. Qed.

Lemma keeps_get : keeps get.
Proof. intros s. apply similar_refl. Qed.

Lemma keeps_bind {A B} (m : M A) (k : A -> M B) :
  keeps m -> (forall a, keeps (k a)) -> keeps (bind m k).
Proof.
  intros Hm Hk s. unfold bind. specialize (Hm s).
  destruct (m s) as [s' [a | e]]; cbn in *.
  - eapply similar_trans; [exact Hm | apply Hk].
  - exact Hm.
Qed.

Lemma keeps_lookup {A} key (field : State -> option A) : keeps (lookup key field).
Proof.
  unfold lookup. apply keeps_bind; [apply keeps_get | intros; apply keeps_lift].
Qed.

Lemma bind_get {A} (k : Slot -> M A) (s : Slot) : bind get k s = k s s.
Proof. reflexivity. Qed.

Lemma same_size_eq (a b : list nat) : same_size a b = true <-> a = b.
Proof.
  revert b. induction a as [| x a IH]; intros [| y b]; cbn [same_size];
    try (split; [discriminate | discriminate]); [tauto |].
  rewrite andb_true_iff, Nat.eqb_eq, IH.
  split; [intros [-> ->]; reflexivity | intros [= -> ->]; now split].
Qed.

Lemma same_size_refl (a : list nat) : same_size a a = true.
Proof. now apply same_size_eq. Qed.

Lemma tmap2_inv f a b t :
  tmap2 f a b = Ok t ->
  shape b = shape a /\
  t = {| shape := shape a; data := map2 f (data a) (data b) |}.
Proof.
  unfold tmap2. destruct (same_size (shape a) (shape b)) eqn:E;
    [| discriminate].
  apply same_size_eq in E. intros [= <-]. now split.
Qed.

Lemma tmap2_shape f a b t : tmap2 f a b = Ok t -> shape t = shape a.
Proof. intros H. apply tmap2_inv in H as [_ ->]. reflexivity. Qed.

Lemma tmap2_ok f a b :
  shape b = shape a ->
  tmap2 f a b = Ok {| shape := shape a; data := map2 f (data a) (data b) |}.
Proof. intros E. unfold tmap2. now rewrite E, same_size_refl. Qed.

Lemma view_inv t sh t' :
  view t sh = Ok t' ->
  numel (shape t) = numel sh /\ t' = {| shape := sh; data := data t |}.
Proof.
  unfold view. destruct (Nat.eqb_spec (numel (shape t)) (numel sh));
    [| discriminate].
  intros [= <-]. now split.
Qed.

Lemma view_ok t sh :
  numel (shape t) = numel sh ->
  view t sh = Ok {| shape := sh; data := data t |}.
Proof. intros E. unfold view. now rewrite E, Nat.eqb_refl. Qed.

Lemma keeps_inplace_gen key field set f :
  (forall v w st, field st = Some v -> f v = Ok w ->
                  layout (set w st) = layout st) ->
  keeps (inplace key field set f).
Proof.
  intros H s. unfold inplace, lookup, bind, get, lift, modify_state, ret.
  destruct (field (state s)) as [v |] eqn:E; cbn.
  - destruct (f v) as [w | e] eqn:Ef; cbn.
    + repeat split. cbn. now apply (H v).
    + apply similar_refl.
  - apply similar_refl.
Qed.

Lemma keeps_incr_step : keeps incr_step.
Proof.
  intros s. unfold incr_step, lookup, bind, get, lift, modify_state, ret.
  destruct (st_step (state s)) as [v |] eqn:E; cbn.
  - repeat split. cbn. unfold layout. cbn. now rewrite E.
  - apply similar_refl.
Qed.

Lemma keeps_inplace_data (f : Tensor -> result Tensor) :
  (forall d d', f d = Ok d' -> shape d' = shape d) -> keeps (inplace_data f).
Proof.
  intros H s. unfold inplace_data.
  destruct (f (p_data (param s))) as [d | e] eqn:E; [| apply similar_refl].
  repeat split. cbn. now apply H.
Qed.

Lemma keeps_if {A} (b : bool) (m1 m2 : M A) :
  keeps m1 -> keeps m2 -> keeps (if b then m1 else m2).
Proof. now destruct b. Qed.

Ltac keeps_tac :=
  repeat first
    [ apply keeps_ret | apply keeps_lift | apply keeps_get
    | apply keeps_lookup | apply keeps_incr_step
    | apply keeps_if
    | apply keeps_inplace_gen;
      intros ? ? st Hst Hf; apply tmap2_shape in Hf;
      unfold layout; cbn; rewrite Hst; cbn; rewrite Hf; reflexivity
    | apply keeps_bind; [| intros ? ]
    | apply keeps_inplace_data; intros ? ? Hf; now apply tmap2_shape in Hf ].

Lemma keeps_fetch_state group is_matrix : keeps (fetch_state group is_matrix).
Proof. unfold fetch_state. keeps_tac. Qed.

Lemma keeps_compute_update group is_matrix grad :
  keeps (compute_update group is_matrix grad).
Proof. unfold compute_update. cbv zeta. keeps_tac. Qed.

Lemma keeps_apply_update group reshaped lr_t u :
  keeps (apply_update group reshaped lr_t u).
Proof. unfold apply_update. cbv zeta. keeps_tac. Qed.

Lemma similar_after {A B} (m : M A) (k : A -> M B) (s : Slot) :
  (forall a, keeps (k a)) -> similar (fst (m s)) (fst (bind m k s)).
Proof.
  intros Hk. unfold bind. destruct (m s) as [s' [a | e]]; cbn.
  - apply Hk.
  - apply similar_refl.
Qed.

Lemma similar_factored s s' :
  similar s s' -> has_factored (state s') = has_factored (state s).
Proof.
  intros (_ & _ & _ & H). unfold layout in H. unfold has_factored.
  injection H as _ _ HR HC _ _.
  destruct (exp_avg_sq_R (state s)), (exp_avg_sq_R (state s')),
           (exp_avg_sq_C (state s)), (exp_avg_sq_C (state s'));
    cbn in *; congruence.
Qed.

Lemma similar_dense s s' :
  similar s s' -> has_dense (state s') = has_dense (state s).
Proof.
  intros (_ & _ & _ & H). unfold layout in H. unfold has_dense.
  injection H as _ _ _ _ HD _.
  destruct (exp_avg_sq (state s)), (exp_avg_sq (state s'));
    cbn in *; congruence.
Qed.

Lemma param_step_none group s :
  p_grad (param s) = None -> param_step group s = (s, Ok tt).
Proof.
  intros H. unfold param_step. rewrite bind_get. unfold param_body.
  now rewrite H.
Qed.

Lemma param_step_sparse group s g :
  p_grad (param s) = Some g -> is_sparse g = true ->
  param_step group s = (s, Raise RuntimeError).
Proof.
  intros H Hs. unfold param_step. rewrite bind_get. unfold param_body.
  now rewrite H, Hs.
Qed.

Lemma keeps_param_body group p :
  is_empty (state p) = false -> keeps (param_body group p).
Proof.
  intros Hne. unfold param_body.
  destruct (p_grad (param p)) as [g |]; [| apply keeps_ret].
  destruct (is_sparse g); [apply keeps_lift |].
  destruct (_check_shape (shape (grad_data g))) as [is_matrix is_need_reshape].
  rewrite Hne. cbv zeta.
  apply keeps_bind; [apply keeps_lift | intros shapes].
  apply keeps_bind; [apply keeps_lift | intros grad].
  apply keeps_bind; [apply keeps_ret | intros _].
  apply keeps_bind; [apply keeps_fetch_state | intros _].
  apply keeps_bind; [apply keeps_compute_update | intros lu].
  apply keeps_apply_update.
Qed.

Lemma param_step_nonempty group s :
  is_empty (state s) = false -> similar s (fst (param_step group s)).
Proof.
  intros Hne. unfold param_step. rewrite bind_get.
  now apply keeps_param_body.
Qed.

Lemma param_step_no_shapes group s g e :
  p_grad (param s) = Some g -> is_sparse g = false ->
  shapes_for (needs_reshape group g) (shape (p_data (param s))) = Raise e ->
  param_step group s = (s, Raise e).
Proof.
  intros Hg Hs Hsh. unfold param_step. rewrite bind_get. unfold param_body.
  rewrite Hg, Hs. unfold needs_reshape in Hsh.
  destruct (_check_shape (shape (grad_data g))) as [is_matrix is_need_reshape].
  cbn [snd] in Hsh. cbv zeta. unfold bind at 1, lift at 1.
  now rewrite Hsh.
Qed.

Lemma param_step_no_view group s g new_shape old_shape e :
  p_grad (param s) = Some g -> is_sparse g = false ->
  shapes_for (needs_reshape group g) (shape (p_data (param s)))
  = Ok (new_shape, old_shape) ->
  viewed group g new_shape = Raise e ->
  param_step group s = (s, Raise e).
Proof.
  intros Hg Hs Hsh Hv. unfold param_step. rewrite bind_get. unfold param_body.
  rewrite Hg, Hs. unfold viewed, needs_reshape in *.
  destruct (_check_shape (shape (grad_data g))) as [is_matrix is_need_reshape].
  cbn [snd] in *. cbv zeta. unfold bind at 1, lift at 1.
  rewrite Hsh. cbn [fst snd]. unfold bind at 1, lift at 1.
  now rewrite Hv.
Qed.

(* The first touch: what follows the initialisation keeps its layout. *)
Lemma param_step_first group s g new_shape old_shape grad :
  is_empty (state s) = true ->
  p_grad (param s) = Some g -> is_sparse g = false ->
  shapes_for (needs_reshape group g) (shape (p_data (param s)))
  = Ok (new_shape, old_shape) ->
  viewed group g new_shape = Ok grad ->
  similar (fst (init_state group (is_matrix_of g) new_shape s))
          (fst (param_step group s)).
Proof.
  intros He Hg Hs Hsh Hv. unfold param_step. rewrite bind_get.
  unfold param_body.
  rewrite Hg, Hs, He. unfold viewed, needs_reshape in *. unfold is_matrix_of.
  destruct (_check_shape (shape (grad_data g))) as [is_matrix is_need_reshape].
  cbn [fst snd] in *. cbv zeta. unfold bind at 1, lift at 1.
  rewrite Hsh. cbn [fst snd]. unfold bind at 1, lift at 1.
  rewrite Hv.
  apply similar_after. intros _.
  apply keeps_bind; [apply keeps_fetch_state | intros _].
  apply keeps_bind; [apply keeps_compute_update | intros lu].
  apply keeps_apply_update.
Qed.

Lemma empty_state_eq st : is_empty st = true -> st = empty_state.
Proof.
  destruct st as [a b c d e f]. unfold is_empty. cbn.
  destruct a, b, c, d, e, f; try discriminate. reflexivity.
Qed.

(* The initialisation changes the state only. *)
Lemma init_state_param group is_matrix new_shape s :
  param (fst (init_state group is_matrix new_shape s)) = param s.
Proof.
  unfold init_state, bind, modify_state, lift, ret.
  destruct (enable_momentum (hyper group)),
           (is_matrix && enable_factorization (hyper group)),
           (ams_grad (hyper group)),
           (index new_shape 1), (index new_shape 0); reflexivity.
Qed.

(* Without the matrix algorithm only the dense accumulator is allocated. *)
Lemma init_state_dense group is_matrix new_shape s :
  is_matrix && enable_factorization (hyper group) = false ->
  is_empty (state s) = true ->
  let st := state (fst (init_state group is_matrix new_shape s)) in
  exp_avg_sq_R st = None /\ exp_avg_sq_C st = None /\
  option_map shape (exp_avg_sq st) = Some new_shape.
Proof.
  intros Hm He. apply empty_state_eq in He.
  unfold init_state, bind, modify_state, lift, ret. rewrite Hm, He.
  destruct (enable_momentum (hyper group)), (ams_grad (hyper group));
    cbn; repeat split.
Qed.

(* With it, for a matrix of [r] rows and [c] columns, only the factored
   pair is, with sizes (1, c) and (r, 1). *)
Lemma init_state_factored group is_matrix r c s :
  is_matrix && enable_factorization (hyper group) = true ->
  is_empty (state s) = true ->
  let st := state (fst (init_state group is_matrix [r; c] s)) in
  option_map shape (exp_avg_sq_R st) = Some [1%nat; c] /\
  option_map shape (exp_avg_sq_C st) = Some [r; 1%nat] /\
  exp_avg_sq st = None.
Proof.
  intros Hm He. apply empty_state_eq in He.
  unfold init_state, bind, modify_state, lift, ret. rewrite Hm, He.
  destruct (enable_momentum (hyper group)), (ams_grad (hyper group));
    cbn; repeat split.
Qed.

(* In every case the initialisation allocates one of the two at most. *)
Lemma init_state_exclusive group is_matrix new_shape s :
  is_empty (state s) = true ->
  let st := state (fst (init_state group is_matrix new_shape s)) in
  has_factored st && has_dense st = false.
Proof.
  intros He. apply empty_state_eq in He.
  unfold init_state, bind, modify_state, lift, ret. rewrite He.
  destruct (enable_momentum (hyper group)),
           (is_matrix && enable_factorization (hyper group)),
           (ams_grad (hyper group)),
           (index new_shape 1), (index new_shape 0); reflexivity.
Qed.

Lemma init_state_no_hat group is_matrix new_shape s :
  ams_grad (hyper group) = false ->
  is_empty (state s) = true ->
  exp_avg_sq_hat (state (fst (init_state group is_matrix new_shape s))) = None.
Proof.
  intros Ha He. apply empty_state_eq in He.
  unfold init_state, bind, modify_state, lift, ret. rewrite Ha, He.
  destruct (enable_momentum (hyper group)),
           (is_matrix && enable_factorization (hyper group)),
           (index new_shape 1), (index new_shape 0); reflexivity.
Qed.

(* The three ways a visit can go, as far as the layout is concerned. *)
Lemma param_step_cases group s :
  fst (param_step group s) = s \/
  (is_empty (state s) = false /\ similar s (fst (param_step group s))) \/
  (is_empty (state s) = true /\
   exists g new_shape old_shape,
     p_grad (param s) = Some g /\ is_sparse g = false /\
     shapes_for (needs_reshape group g) (shape (p_data (param s)))
     = Ok (new_shape, old_shape) /\
     similar (fst (init_state group (is_matrix_of g) new_shape s))
             (fst (param_step group s))).
Proof.
  destruct (p_grad (param s)) as [g |] eqn:Hg.
  2: { left. now rewrite param_step_none. }
  destruct (is_sparse g) eqn:Hs.
  { left. now rewrite (param_step_sparse group s g). }
  destruct (is_empty (state s)) eqn:He.
  2: { right; left. split; [reflexivity | now apply param_step_nonempty]. }
  destruct (shapes_for (needs_reshape group g) (shape (p_data (param s))))
    as [[new_shape old_shape] | e] eqn:Hsh.
  2: { left. now rewrite (param_step_no_shapes group s g e). }
  destruct (viewed group g new_shape) as [grad | e] eqn:Hv.
  2: { left. now rewrite (param_step_no_view group s g new_shape old_shape e). }
  right; right. split; [reflexivity |].
  exists g, new_shape, old_shape.
  split; [reflexivity |]. split; [exact Hs |]. split; [exact Hsh |].
  now apply (param_step_first group s g new_shape old_shape grad).
Qed.

Lemma similar_shape s s' :
  similar s s' -> shape (p_data (param s')) = shape (p_data (param s)).
Proof. now intros (_ & _ & H & _). Qed.

Lemma similar_grad_fits s s' :
  similar s s' -> grad_fits (param s) -> grad_fits (param s').
Proof.
  intros (Hg & _ & Hsh & _). unfold grad_fits. now rewrite Hg, Hsh.
Qed.

Lemma similar_init group is_matrix new_shape s s' :
  similar (fst (init_state group is_matrix new_shape s)) s' ->
  shape (p_data (param s')) = shape (p_data (param s)) /\
  (grad_fits (param s) -> grad_fits (param s')).
Proof.
  intros H. split.
  - rewrite (similar_shape _ _ H). now rewrite init_state_param.
  - intros Hf. apply (similar_grad_fits _ _ H). now rewrite init_state_param.
Qed.

(* The size of the parameter and the fit of its gradient never change. *)
Lemma reachable_shape G s0 s :
  grad_fits (param s0) -> slot_reachable G s0 s ->
  shape (p_data (param s)) = shape (p_data (param s0)) /\ grad_fits (param s).
Proof.
  intros H0 Hr. induction Hr as [| s group Hr [IHs IHf] _ | s p Hr [IHs IHf] Hp Hf].
  - now split.
  - destruct (param_step_cases group s)
      as [E | [[_ Hsim] | [_ (g & ns & os & _ & _ & _ & Hsim)]]].
    + rewrite E. now split.
    + split; [rewrite (similar_shape _ _ Hsim); exact IHs
             | now apply (similar_grad_fits _ _ Hsim)].
    + apply similar_init in Hsim as [Hsh Hfit].
      split; [now rewrite Hsh | now apply Hfit].
  - cbn. split; [congruence | assumption].
Qed.

Lemma similar_layout s s' :
  similar s s' -> layout (state s') = layout (state s).
Proof. now intros (_ & _ & _ & H). Qed.

Lemma layout_is_empty st st' :
  layout st' = layout st -> is_empty st' = is_empty st.
Proof.
  destruct st as [a b c d e f], st' as [a' b' c' d' e' f'].
  unfold layout, is_empty. cbn. intros H. injection H as H1 H2 H3 H4 H5 H6.
  destruct a, a', b, b', c, c', d, d', e, e', f, f'; cbn in *;
    congruence.
Qed.

Lemma layout_R st st' :
  layout st' = layout st ->
  option_map shape (exp_avg_sq_R st') = option_map shape (exp_avg_sq_R st).
Proof. unfold layout. now intros [= _ _ H _ _ _]. Qed.

Lemma layout_C st st' :
  layout st' = layout st ->
  option_map shape (exp_avg_sq_C st') = option_map shape (exp_avg_sq_C st).
Proof. unfold layout. now intros [= _ _ _ H _ _]. Qed.

Lemma layout_sq st st' :
  layout st' = layout st ->
  option_map shape (exp_avg_sq st') = option_map shape (exp_avg_sq st).
Proof. unfold layout. now intros [= _ _ _ _ H _]. Qed.

Lemma layout_hat st st' :
  layout st' = layout st ->
  option_map shape (exp_avg_sq_hat st') = option_map shape (exp_avg_sq_hat st).
Proof. unfold layout. now intros [= _ _ _ _ _ H]. Qed.

Lemma option_map_none {A B} (f : A -> B) (o : option A) :
  option_map f o = None -> o = None.
Proof. now destruct o. Qed.

Lemma init_state_not_empty group is_matrix new_shape s :
  is_empty (state (fst (init_state group is_matrix new_shape s))) = false.
Proof.
  unfold init_state, bind, modify_state, lift, ret.
  destruct (enable_momentum (hyper group)),
           (is_matrix && enable_factorization (hyper group)),
           (ams_grad (hyper group)),
           (index new_shape 1), (index new_shape 0); reflexivity.
Qed.

(** Mutual exclusion along every run. *)
Lemma reachable_exclusive G s0 s :
  is_empty (state s0) = true -> slot_reachable G s0 s ->
  has_factored (state s) && has_dense (state s) = false.
Proof.
  intros H0 Hr. induction Hr as [| s group Hr IH _ | s p Hr IH _ _].
  - apply empty_state_eq in H0. now rewrite H0.
  - destruct (param_step_cases group s)
      as [E | [[_ Hsim] | [He (g & ns & os & _ & _ & _ & Hsim)]]].
    + now rewrite E.
    + now rewrite (similar_factored _ _ Hsim), (similar_dense _ _ Hsim).
    + rewrite (similar_factored _ _ Hsim), (similar_dense _ _ Hsim).
      now apply init_state_exclusive.
  - exact IH.
Qed.

Lemma check_shape_vector n : _check_shape [n] = (false, false).
Proof. reflexivity. Qed.

Lemma check_shape_rank3 a b c : _check_shape [a; b; c] = (true, true).
Proof. reflexivity. Qed.

Lemma experimental_reshape_rank3 a b c :
  _experimental_reshape [a; b; c] = Ok ([a; (b * c)%nat], [a; b; c]).
Proof. reflexivity. Qed.

(** A vector only ever gets the dense accumulator, of its own size. *)
Lemma reachable_vector G s0 s n :
  is_empty (state s0) = true -> grad_fits (param s0) ->
  shape (p_data (param s0)) = [n] -> slot_reachable G s0 s ->
  exp_avg_sq_R (state s) = None /\ exp_avg_sq_C (state s) = None /\
  (is_empty (state s) = false ->
   option_map shape (exp_avg_sq (state s)) = Some [n]).
Proof.
  intros H0 Hf0 Hn Hr.
  induction Hr as [| s group Hr IH _ | s p Hr IH _ _].
  - apply empty_state_eq in H0. rewrite H0. cbn. repeat split. discriminate.
  - destruct (reachable_shape G s0 s Hf0 Hr) as [Hsh Hfit].
    destruct IH as (IHR & IHC & IHD).
    destruct (param_step_cases group s)
      as [E | [[Hne Hsim] | [He (g & ns & os & Hg & _ & Hshapes & Hsim)]]].
    + rewrite E. now repeat split.
    + apply similar_layout in Hsim.
      pose proof (layout_R _ _ Hsim) as HR.
      pose proof (layout_C _ _ Hsim) as HC.
      pose proof (layout_sq _ _ Hsim) as HD.
      rewrite IHR in HR. rewrite IHC in HC. rewrite (IHD Hne) in HD.
      split; [now apply option_map_none in HR |].
      split; [now apply option_map_none in HC |].
      intros _. exact HD.
    + unfold grad_fits in Hfit. rewrite Hg in Hfit.
      assert (Hm : is_matrix_of g = false).
      { unfold is_matrix_of. now rewrite Hfit, Hsh, Hn. }
      assert (Hns : ns = [n]).
      { unfold needs_reshape in Hshapes. rewrite Hfit, Hsh, Hn in Hshapes.
        cbn in Hshapes. now injection Hshapes as <- _. }
      subst ns. rewrite Hm in Hsim.
      destruct (init_state_dense group false [n] s eq_refl He)
        as (IR & IC & ID).
      apply similar_layout in Hsim.
      pose proof (layout_R _ _ Hsim) as HR.
      pose proof (layout_C _ _ Hsim) as HC.
      pose proof (layout_sq _ _ Hsim) as HD.
      rewrite IR in HR. rewrite IC in HC. rewrite ID in HD.
      split; [now apply option_map_none in HR |].
      split; [now apply option_map_none in HC |].
      intros _. exact HD.
  - exact IH.
Qed.

(** A rank-3 parameter under factorization only ever gets the factored
    pair, of sizes (1, cols) and (rows, 1). *)
Lemma reachable_rank3 G s0 s a b c :
  (forall group, G group -> enable_factorization (hyper group) = true) ->
  is_empty (state s0) = true -> grad_fits (param s0) ->
  shape (p_data (param s0)) = [a; b; c] -> slot_reachable G s0 s ->
  exp_avg_sq (state s) = None /\
  (is_empty (state s) = false ->
   option_map shape (exp_avg_sq_R (state s)) = Some [1%nat; (b * c)%nat] /\
   option_map shape (exp_avg_sq_C (state s)) = Some [a; 1%nat]).
Proof.
  intros HG H0 Hf0 Hn Hr.
  induction Hr as [| s group Hr IH Hgroup | s p Hr IH _ _].
  - apply empty_state_eq in H0. rewrite H0. cbn. split; [reflexivity |].
    discriminate.
  - destruct (reachable_shape G s0 s Hf0 Hr) as [Hsh Hfit].
    destruct IH as (IHD & IHP).
    destruct (param_step_cases group s)
      as [E | [[Hne Hsim] | [He (g & ns & os & Hg & _ & Hshapes & Hsim)]]].
    + rewrite E. now split.
    + apply similar_layout in Hsim.
      pose proof (layout_R _ _ Hsim) as HR.
      pose proof (layout_C _ _ Hsim) as HC.
      pose proof (layout_sq _ _ Hsim) as HD.
      destruct (IHP Hne) as [IHR IHC].
      rewrite IHR in HR. rewrite IHC in HC. rewrite IHD in HD.
      split; [now apply option_map_none in HD |].
      intros _. now split.
    + unfold grad_fits in Hfit. rewrite Hg in Hfit.
      assert (Hm : is_matrix_of g = true).
      { unfold is_matrix_of. now rewrite Hfit, Hsh, Hn. }
      assert (Hns : ns = [a; (b * c)%nat]).
      { unfold needs_reshape in Hshapes.
        rewrite Hfit, Hsh, Hn, (HG group Hgroup) in Hshapes.
        cbn in Hshapes. now injection Hshapes as <- _. }
      subst ns. rewrite Hm in Hsim.
      assert (Hmf : true && enable_factorization (hyper group) = true)
        by now rewrite (HG group Hgroup).
      destruct (init_state_factored group true a (b * c)%nat s Hmf He)
        as (IR & IC & ID).
      apply similar_layout in Hsim.
      pose proof (layout_R _ _ Hsim) as HR.
      pose proof (layout_C _ _ Hsim) as HC.
      pose proof (layout_sq _ _ Hsim) as HD.
      rewrite IR in HR. rewrite IC in HC. rewrite ID in HD.
      split; [now apply option_map_none in HD |].
      intros _. now split.
  - exact IH.
Qed.

Lemma state_only_ret {A} (a : A) : state_only (ret a).
Proof. now intros s. Qed.

Lemma state_only_lift {A} (r : result A) : state_only (lift r).
Proof. now intros s. Qed.

Lemma state_only_get : state_only get.
Proof. now intros s. Qed.

Lemma state_only_modify f : state_only (modify_state f).
Proof. now intros s. Qed.

Lemma state_only_bind {A B} (m : M A) (k : A -> M B) :
  state_only m -> (forall a, state_only (k a)) -> state_only (bind m k).
Proof.
  intros Hm Hk s. unfold bind. specialize (Hm s).
  destruct (m s) as [s' [a | e]]; cbn in *.
  - now rewrite Hk.
  - exact Hm.
Qed.

Lemma state_only_if {A} (b : bool) (m1 m2 : M A) :
  state_only m1 -> state_only m2 -> state_only (if b then m1 else m2).
Proof. now destruct b. Qed.

Ltac state_only_tac :=
  repeat first
    [ apply state_only_ret | apply state_only_lift | apply state_only_get
    | apply state_only_modify | apply state_only_if
    | apply state_only_bind; [| intros ? ] ].

Lemma state_only_init group is_matrix new_shape :
  state_only (init_state group is_matrix new_shape).
Proof. intros s. apply init_state_param. Qed.

Lemma state_only_fetch group is_matrix :
  state_only (fetch_state group is_matrix).
Proof. unfold fetch_state, lookup. state_only_tac. Qed.

Lemma state_only_compute group is_matrix grad :
  state_only (compute_update group is_matrix grad).
Proof.
  unfold compute_update, inplace, incr_step, lookup. cbv zeta.
  state_only_tac.
Qed.

Lemma bind_ok {A B} (m : M A) (k : A -> M B) (s : Slot) (b : B) :
  snd (bind m k s) = Ok b ->
  exists a s', m s = (s', Ok a) /\ bind m k s = k a s'.
Proof.
  unfold bind. destruct (m s) as [s' [a | e]]; cbn.
  - intros _. now exists a, s'.
  - discriminate.
Qed.

Lemma bind_inv {A B} (m : M A) (k : A -> M B) (s s' : Slot) (b : B) :
  bind m k s = (s', Ok b) ->
  exists a s1, m s = (s1, Ok a) /\ k a s1 = (s', Ok b).
Proof.
  unfold bind. destruct (m s) as [s1 [a | e]]; [eauto | discriminate].
Qed.

Lemma lift_inv {A} (r : result A) (s s' : Slot) (a : A) :
  lift r s = (s', Ok a) -> r = Ok a /\ s' = s.
Proof. unfold lift. now intros [= <- ->]. Qed.

Lemma ret_inv {A} (a a' : A) (s s' : Slot) :
  ret a s = (s', Ok a') -> a' = a /\ s' = s.
Proof. unfold ret. now intros [= <- <-]. Qed.

Lemma inplace_inv key field set f (s s' : Slot) (w : Tensor) :
  inplace key field set f s = (s', Ok w) ->
  exists v, field (state s) = Some v /\ f v = Ok w /\
            s' = {| param := param s; state := set w (state s) |}.
Proof.
  unfold inplace, lookup, bind, get, lift, modify_state, ret.
  destruct (field (state s)) as [v |] eqn:Ev; [| discriminate].
  destruct (f v) as [w' | e] eqn:Ef; [| discriminate].
  intros [= <- <-]. exists v. now repeat split.
Qed.

Lemma inplace_data_inv f (s s' : Slot) :
  inplace_data f s = (s', Ok tt) ->
  f (p_data (param s)) = Ok (p_data (param s')) /\
  p_grad (param s') = p_grad (param s) /\
  requires_grad (param s') = requires_grad (param s) /\
  state s' = state s.
Proof.
  unfold inplace_data. destruct (f (p_data (param s))) as [d | e] eqn:E;
    [| discriminate].
  intros [= <-]. now repeat split.
Qed.

(* What a call of [apply_update] that completes has done. *)
Lemma apply_update_inv group reshaped lr_t u s s' :
  apply_update group reshaped lr_t u s = (s', Ok tt) ->
  exists uv d1,
    match reshaped with
    | Some old_shape => view u old_shape
    | None => Ok u
    end = Ok uv /\
    tmap2 (fun x y => x + - lr_t * y) (p_data (param s)) uv = Ok d1 /\
    weight_decayed group lr_t d1 = Ok (p_data (param s')).
Proof.
  unfold apply_update, weight_decayed. intros H.
  apply bind_inv in H as (uv & s1 & H1 & H).
  apply lift_inv in H1 as [Hv ->].
  apply bind_inv in H as ([] & s2 & H2 & H).
  apply inplace_data_inv in H2 as (Hd & _).
  exists uv, (p_data (param s2)). split; [exact Hv |]. split; [exact Hd |].
  destruct (Rneqb (weight_decay (hyper group)) 0).
  - now apply inplace_data_inv in H as (H & _).
  - apply ret_inv in H as [_ ->]. reflexivity.
Qed.

(* The update of the matrix algorithm has the size of the factored pair:
   as many rows as [exp_avg_sq_C] and as many columns as [exp_avg_sq_R],
   which have the rows and the columns of the gradient. *)
Lemma compute_update_factored_shape group grad s s' lr_t u :
  enable_factorization (hyper group) = true ->
  compute_update group true grad s = (s', Ok (lr_t, u)) ->
  shape u = [nrows grad; ncols grad].
Proof.
  intros Hef. unfold compute_update. rewrite Hef. cbn [andb]. cbv zeta.
  intros H.
  apply bind_inv in H as (step & s1 & _ & H).
  apply bind_inv in H as (lr0 & s2 & _ & H).
  apply bind_inv in H as (p & s3 & _ & H).
  apply bind_inv in H as (b1 & s4 & _ & H).
  apply bind_inv in H as (b2 & s5 & _ & H).
  apply bind_inv in H as (v & s6 & Hv & H).
  apply bind_inv in H as (g & s7 & _ & H).
  apply bind_inv in H as (u0 & s8 & Hu & H).
  apply bind_inv in H as (q & s9 & _ & H).
  apply ret_inv in H as [[= _ ->] _].
  assert (Hvs : shape v = [nrows grad; ncols grad]).
  { apply bind_inv in Hv as (r & t1 & Hr & Hv).
    apply bind_inv in Hv as (c & t2 & Hc & Hv).
    apply ret_inv in Hv as [-> _].
    apply inplace_inv in Hr as (r0 & _ & Hr & _).
    apply inplace_inv in Hc as (c0 & _ & Hc & _).
    apply tmap2_inv in Hr as [Hr0 ->]. apply tmap2_inv in Hc as [Hc0 ->].
    cbn [tmap outer shape nrows ncols]. rewrite <- Hr0, <- Hc0.
    reflexivity. }
  cbn [tmap shape]. rewrite <- Hvs.
  destruct (ams_grad (hyper group)).
  - apply bind_inv in Hu as (hat & t1 & Hh & Hu).
    apply bind_inv in Hu as (d & t2 & _ & Hu).
    apply lift_inv in Hu as [Hu _].
    apply inplace_inv in Hh as (h0 & _ & Hh & _).
    apply tmap2_inv in Hh as [Hh0 ->]. apply tmap2_inv in Hu as [Hu0 ->].
    cbn [shape] in *. congruence.
  - apply lift_inv in Hu as [Hu _].
    apply tmap2_inv in Hu as [Hu0 ->]. cbn [shape]. congruence.
Qed.

Lemma param_step_rank3_eq group s g a b c :
  shape (p_data (param s)) = [a; b; c] ->
  p_grad (param s) = Some g -> is_sparse g = false ->
  shape (grad_data g) = [a; b; c] ->
  enable_factorization (hyper group) = true ->
  param_step group s
  = bind (if is_empty (state s)
          then init_state group true [a; (b * c)%nat] else ret tt)
      (fun _ =>
         bind (fetch_state group true)
           (fun _ =>
              bind (compute_update group true
                      {| shape := [a; (b * c)%nat];
                         data := data (grad_data g) |})
                (fun lu =>
                   apply_update group (Some [a; b; c]) (fst lu) (snd lu))))
      s.
Proof.
  intros Hsh Hg Hs Hgs Hef. unfold param_step. rewrite bind_get.
  unfold param_body. rewrite Hg, Hs, Hgs, check_shape_rank3, Hef.
  cbn [andb]. cbv zeta. unfold bind at 1, lift at 1.
  rewrite Hsh. unfold shapes_for. rewrite experimental_reshape_rank3.
  cbn [rbind fst snd]. unfold bind at 1, lift at 1.
  rewrite view_ok; [reflexivity |].
  rewrite Hgs. cbn [numel fold_right]. lia.
Qed.

(** On a rank-3 parameter of size (a, b, c) under factorization, a visit
    that completes has computed its update [u] as a matrix of size
    (a, b*c), viewed it in the size (a, b, c) of the parameter and
    subtracted [lr_t] times it from [p.data], element by element. *)
Lemma param_step_rank3_update group s g a b c :
  shape (p_data (param s)) = [a; b; c] ->
  p_grad (param s) = Some g -> shape (grad_data g) = [a; b; c] ->
  enable_factorization (hyper group) = true ->
  snd (param_step group s) = Ok tt ->
  exists s1 s2 lr_t u,
    compute_update group true
      {| shape := [a; (b * c)%nat]; data := data (grad_data g) |} s1
    = (s2, Ok (lr_t, u)) /\
    shape u = [a; (b * c)%nat] /\
    view u [a; b; c] = Ok {| shape := [a; b; c]; data := data u |} /\
    weight_decayed group lr_t
      {| shape := [a; b; c];
         data := map2 (fun x y => x + - lr_t * y)
                      (data (p_data (param s))) (data u) |}
    = Ok (p_data (param (fst (param_step group s)))) /\
    shape (p_data (param (fst (param_step group s)))) = [a; b; c].
Proof.
  intros Hsh Hg Hgs Hef Hok.
  destruct (is_sparse g) eqn:Hs.
  { rewrite (param_step_sparse group s g Hg Hs) in Hok. discriminate. }
  rewrite (param_step_rank3_eq group s g a b c Hsh Hg Hs Hgs Hef) in *.
  match type of Hok with snd (?m s) = _ => destruct (m s) as [s' r] eqn:E end.
  cbn [fst snd] in *. subst r.
  apply bind_inv in E as (x0 & s0' & E0 & E).
  assert (P0 : param s0' = param s).
  { change s0' with (fst (s0', @Ok unit x0)). rewrite <- E0.
    destruct (is_empty (state s));
      [apply state_only_init | apply state_only_ret]. }
  apply bind_inv in E as (x1 & s1 & E1 & E).
  assert (P1 : param s1 = param s0').
  { change s1 with (fst (s1, @Ok unit x1)). rewrite <- E1.
    apply state_only_fetch. }
  apply bind_inv in E as ([lr_t u] & s2 & E2 & E).
  assert (P2 : param s2 = param s1).
  { change s2 with (fst (s2, @Ok (R * Tensor) (lr_t, u))). rewrite <- E2.
    apply state_only_compute. }
  cbn [fst snd] in E.
  pose proof (compute_update_factored_shape _ _ _ _ _ _ Hef E2) as Hu.
  cbn [nrows ncols shape nth] in Hu.
  apply apply_update_inv in E as (uv & d1 & Hv & Hd & Hw).
  rewrite P2, P1, P0 in Hd.
  apply view_inv in Hv as [_ ->].
  apply tmap2_inv in Hd as [_ ->]. rewrite Hsh in Hw. cbn [data] in Hw.
  exists s1, s2, lr_t, u. split; [exact E2 |]. split; [exact Hu |].
  split; [| split; [exact Hw |]].
  - apply view_ok. rewrite Hu. cbn [numel fold_right]. lia.
  - revert Hw. unfold weight_decayed.
    destruct (Rneqb (weight_decay (hyper group)) 0).
    + intros Hw. apply tmap2_shape in Hw. exact Hw.
    + now intros [= <-].
Qed.

End AdaFactorMonad.

Section AdaFactorStep.
Import AdaFactor.

Lemma map_snd_pair (group : Group) (slots : list Slot) :
  map snd (map (pair group) slots) = slots.
Proof.
  induction slots as [| s rest IH]; [reflexivity |].
  cbn [map snd]. now rewrite IH.
Qed.

Lemma all_slots_work o : map snd (work o) = all_slots o.
Proof.
  induction o as [| g rest IH]; [reflexivity |].
  cbn [work all_slots flat_map]. rewrite map_app, map_snd_pair.
  f_equal. exact IH.
Qed.

Lemma step_params_run group slots :
  step_params group slots = run (map (pair group) slots).
Proof.
  induction slots as [| s rest IH]; [reflexivity |].
  cbn [step_params run map]. unfold visit at 1. cbn [fst snd].
  destruct (param_step group s) as [s' [[] | e]].
  - now rewrite IH.
  - now rewrite map_snd_pair.
Qed.

Lemma run_app w1 w2 :
  run (w1 ++ w2)
  = match run w1 with
    | (s1, Ok _) => let (s2, r) := run w2 in (s1 ++ s2, r)
    | (s1, Raise e) => (s1 ++ map snd w2, Raise e)
    end.
Proof.
  induction w1 as [| v rest IH].
  - cbn [app run]. now destruct (run w2).
  - cbn [app run]. destruct (visit v) as [s' [[] | e]].
    + rewrite IH. destruct (run rest) as [rest' [[] | e]].
      * now destruct (run w2).
      * reflexivity.
    + now rewrite map_app.
Qed.

(* [step] is that loop. *)
Lemma step_run o :
  all_slots (fst (step o)) = fst (run (work o)) /\
  snd (step o) = snd (run (work o)).
Proof.
  induction o as [| g rest [IH1 IH2]]; [now split |].
  change (work (g :: rest)) with (map (pair g) (params g) ++ work rest).
  cbn [step]. rewrite run_app, <- step_params_run.
  destruct (step_params g (params g)) as [slots [[] | e]].
  - destruct (step rest) as [rest' r]. destruct (run (work rest)) as [s2 r2].
    cbn [fst snd] in *.
    change (all_slots (set_params g slots :: rest'))
      with (slots ++ all_slots rest').
    split; [now rewrite IH1 | exact IH2].
  - cbn [fst snd].
    change (all_slots (set_params g slots :: rest))
      with (slots ++ all_slots rest).
    split; [now rewrite all_slots_work | reflexivity].
Qed.

Lemma run_ok w :
  snd (run w) = Ok tt ->
  Forall (fun v => snd (visit v) = Ok tt) w /\
  fst (run w) = map (fun v => fst (visit v)) w.
Proof.
  induction w as [| v rest IH]; cbn [run map].
  - intros _. split; [constructor | reflexivity].
  - destruct (visit v) as [s' [[] | e]] eqn:E; [| discriminate].
    destruct (run rest) as [rest' r]. cbn [fst snd] in *.
    intros Hr. destruct (IH Hr) as [IH1 IH2].
    split; [constructor; [now rewrite E | exact IH1] |].
    now rewrite ?E, IH2.
Qed.

Lemma run_raise w e :
  snd (run w) = Raise e ->
  exists pre v post,
    w = pre ++ v :: post /\
    Forall (fun v => snd (visit v) = Ok tt) pre /\
    snd (visit v) = Raise e /\
    fst (run w) = map (fun v => fst (visit v)) pre
                  ++ fst (visit v) :: map snd post.
Proof.
  induction w as [| v rest IH]; cbn [run]; [discriminate |].
  destruct (visit v) as [s' [[] | e']] eqn:E.
  - destruct (run rest) as [rest' r]. cbn [fst snd] in *.
    intros Hr. destruct (IH Hr) as (pre & v1 & post & -> & Hpre & Hv1 & Hfst).
    exists (v :: pre), v1, post.
    split; [reflexivity |].
    split; [constructor; [now rewrite E | exact Hpre] |].
    split; [exact Hv1 |].
    cbn [map app]. now rewrite E, Hfst.
  - cbn [fst snd]. intros [= ->]. exists [], v, rest.
    split; [reflexivity |]. split; [constructor |].
    rewrite E. now split.
Qed.

Lemma run_stops pre v post e :
  Forall (fun v => snd (visit v) = Ok tt) pre ->
  snd (visit v) = Raise e ->
  run (pre ++ v :: post)
  = (map (fun v => fst (visit v)) pre ++ fst (visit v) :: map snd post,
     Raise e).
Proof.
  intros Hpre Hv. induction Hpre as [| v0 pre H0 _ IH]; cbn [app run map].
  - destruct (visit v) as [s' r]. cbn [snd] in Hv. now rewrite Hv.
  - destruct (visit v0) as [s0 r0]. cbn [snd] in H0. rewrite H0, IH.
    reflexivity.
Qed.

End AdaFactorStep.

Section AdaFactorErrors.
Import AdaFactor.

Lemma calm_ok {A} (a : A) : calm (Ok a).
Proof. discriminate. Qed.

Lemma calm_rbind {A B} (r : result A) (k : A -> result B) :
  calm r -> (forall a, calm (k a)) -> calm (rbind r k).
Proof.
  intros Hr Hk. destruct r as [a | e]; [apply Hk |].
  cbn. intros E. apply Hr. congruence.
Qed.

Lemma calm_py_div x y : calm (py_div x y).
Proof. unfold py_div, calm. destruct (Req_dec_T y 0); discriminate. Qed.

Lemma calm_py_pow_int x e : calm (py_pow_int x e).
Proof.
  unfold py_pow_int, calm.
  destruct (0 <=? e)%Z; [discriminate |].
  destruct (Req_dec_T x 0); discriminate.
Qed.

Lemma calm_index {A} (l : list A) i : calm (index l i).
Proof. unfold index, calm. destruct (nth_error l (Z.to_nat i)); discriminate. Qed.

Lemma calm_beta_t ncd beta step : calm (beta_t ncd beta step).
Proof.
  unfold beta_t. destruct ncd; [| apply calm_ok].
  repeat (apply calm_rbind; [apply calm_py_pow_int | intros ?]).
  apply calm_py_div.
Qed.

Lemma calm_experimental_reshape sh : calm (_experimental_reshape sh).
Proof.
  unfold _experimental_reshape.
  apply calm_rbind; [| intros; apply calm_ok].
  destruct (List.length (skipn 2 sh) =? 1)%nat;
    repeat (apply calm_rbind; [first [apply calm_index | apply calm_ok] | intros ?]);
    apply calm_ok.
Qed.

Lemma calm_shapes_for reshape size : calm (shapes_for reshape size).
Proof.
  unfold shapes_for. destruct reshape; [| apply calm_ok].
  apply calm_rbind; [apply calm_experimental_reshape | intros; apply calm_ok].
Qed.

Lemma quiet_ret {A} (a : A) : quiet (ret a).
Proof. intros s. apply calm_ok. Qed.

Lemma quiet_lift {A} (r : result A) : calm r -> quiet (lift r).
Proof. intros H s. exact H. Qed.

Lemma quiet_get : quiet get.
Proof. intros s. apply calm_ok. Qed.

Lemma quiet_modify_state f : quiet (modify_state f).
Proof. intros s. apply calm_ok. Qed.

Lemma calm_tmap2 f a b : calm (tmap2 f a b).
Proof. unfold tmap2, calm. destruct (same_size _ _); discriminate. Qed.

Lemma calm_view t sh : calm (view t sh).
Proof. unfold view, calm. destruct (_ =? _)%nat; discriminate. Qed.

Lemma quiet_inplace_data f : (forall d, calm (f d)) -> quiet (inplace_data f).
Proof.
  intros H s. unfold inplace_data. specialize (H (p_data (param s))).
  destruct (f (p_data (param s))) as [d | e]; cbn; [apply calm_ok |].
  intros E. apply H. congruence.
Qed.

Lemma quiet_bind {A B} (m : M A) (k : A -> M B) :
  quiet m -> (forall a, quiet (k a)) -> quiet (bind m k).
Proof.
  intros Hm Hk s. unfold bind. specialize (Hm s).
  destruct (m s) as [s' [a | e]]; cbn in *; [apply Hk |].
  intros E. apply Hm. congruence.
Qed.

Lemma quiet_if {A} (b : bool) (m1 m2 : M A) :
  quiet m1 -> quiet m2 -> quiet (if b then m1 else m2).
Proof. now destruct b. Qed.

Lemma quiet_lookup {A} key (field : State -> option A) :
  quiet (lookup key field).
Proof.
  intros s. unfold lookup, bind, get, lift. cbn.
  destruct (field (state s)); discriminate.
Qed.

Ltac quiet_tac :=
  repeat first
    [ apply quiet_ret | apply quiet_get | apply quiet_lookup
    | apply quiet_modify_state
    | apply quiet_inplace_data; intros ?; apply calm_tmap2
    | apply quiet_if
    | apply quiet_lift;
      first [ apply calm_py_div | apply calm_py_pow_int | apply calm_index
            | apply calm_beta_t | apply calm_shapes_for | apply calm_tmap2
            | apply calm_view | apply calm_ok ]
    | apply quiet_bind; [| intros ? ] ].

Lemma quiet_init_state group is_matrix new_shape :
  quiet (init_state group is_matrix new_shape).
Proof. unfold init_state. quiet_tac. Qed.

Lemma quiet_fetch_state group is_matrix : quiet (fetch_state group is_matrix).
Proof. unfold fetch_state. quiet_tac. Qed.

Lemma quiet_compute_update group is_matrix grad :
  quiet (compute_update group is_matrix grad).
Proof.
  unfold compute_update, inplace, incr_step. cbv zeta. quiet_tac.
  intros s. cbn. destruct (lr group); discriminate.
Qed.

Lemma quiet_apply_update group reshaped lr_t u :
  quiet (apply_update group reshaped lr_t u).
Proof.
  unfold apply_update. cbv zeta.
  apply quiet_bind; [| intros uv; quiet_tac].
  apply quiet_lift. destruct reshaped; [apply calm_view | apply calm_ok].
Qed.

Lemma quiet_param_body group p g :
  p_grad (param p) = Some g -> is_sparse g = false ->
  quiet (param_body group p).
Proof.
  intros Hg Hs. unfold param_body. rewrite Hg, Hs.
  destruct (_check_shape (shape (grad_data g))) as [is_matrix is_need_reshape].
  cbv zeta.
  apply quiet_bind; [apply quiet_lift, calm_shapes_for | intros shapes].
  apply quiet_bind; [| intros grad].
  { apply quiet_lift. destruct (_ && _); [apply calm_view | apply calm_ok]. }
  apply quiet_bind;
    [apply quiet_if; [apply quiet_init_state | apply quiet_ret] | intros _].
  apply quiet_bind; [apply quiet_fetch_state | intros _].
  apply quiet_bind; [apply quiet_compute_update | intros lu].
  apply quiet_apply_update.
Qed.

(** [RuntimeError] comes from the test of [is_sparse] only. *)
Lemma param_step_runtime_error group s :
  snd (param_step group s) = Raise RuntimeError <-> sparse_grad s.
Proof.
  unfold sparse_grad. split.
  - intros H. destruct (p_grad (param s)) as [g |] eqn:Hg.
    + destruct (is_sparse g) eqn:Hs; [now exists g |].
      exfalso. revert H. unfold param_step. rewrite bind_get.
      apply (quiet_param_body group s g Hg Hs).
    + rewrite (param_step_none group s Hg) in H. discriminate.
  - intros (g & Hg & Hs). now rewrite (param_step_sparse group s g Hg Hs).
Qed.

End AdaFactorErrors.

Section AdaFactorAms.
Import AdaFactor.

Lemma param_step_touches group s g new_shape old_shape grad :
  p_grad (param s) = Some g -> is_sparse g = false ->
  shapes_for (needs_reshape group g) (shape (p_data (param s)))
  = Ok (new_shape, old_shape) ->
  viewed group g new_shape = Ok grad ->
  is_empty (state (fst (param_step group s))) = false.
Proof.
  intros Hg Hs Hsh Hv. destruct (is_empty (state s)) eqn:He.
  - pose proof (param_step_first group s g new_shape old_shape grad
                                 He Hg Hs Hsh Hv) as Hsim.
    rewrite (layout_is_empty _ _ (similar_layout _ _ Hsim)).
    apply init_state_not_empty.
  - pose proof (param_step_nonempty group s He) as Hsim.
    now rewrite (layout_is_empty _ _ (similar_layout _ _ Hsim)).
Qed.

Lemma param_step_no_hat group s :
  ams_grad (hyper group) = false ->
  exp_avg_sq_hat (state s) = None ->
  exp_avg_sq_hat (state (fst (param_step group s))) = None.
Proof.
  intros Ha Hn.
  destruct (param_step_cases group s)
    as [E | [[_ Hsim] | [He (g & ns & os & _ & _ & _ & Hsim)]]].
  - now rewrite E.
  - pose proof (layout_hat _ _ (similar_layout _ _ Hsim)) as H.
    rewrite Hn in H. now apply option_map_none in H.
  - pose proof (layout_hat _ _ (similar_layout _ _ Hsim)) as H.
    rewrite (init_state_no_hat group (is_matrix_of g) ns s Ha He) in H.
    now apply option_map_none in H.
Qed.

Lemma step_params_no_hat group slots :
  ams_grad (hyper group) = false ->
  Forall (fun s => exp_avg_sq_hat (state s) = None) slots ->
  Forall (fun s => exp_avg_sq_hat (state s) = None)
         (fst (step_params group slots)).
Proof.
  intros Ha H. induction H as [| s rest Hs Hrest IH]; [constructor |].
  cbn [step_params].
  pose proof (param_step_no_hat group s Ha Hs) as Hs'.
  destruct (param_step group s) as [s' [[] | e]]; cbn [fst] in *.
  - destruct (step_params group rest) as [rest' r]. cbn [fst] in *.
    now constructor.
  - now constructor.
Qed.

Lemma step_no_ams o : no_ams o -> no_ams (fst (step o)).
Proof.
  unfold no_ams. intros H. induction H as [| g rest [Ha Hs] Hrest IH];
    [constructor |].
  cbn [step].
  pose proof (step_params_no_hat g (params g) Ha Hs) as Hs'.
  destruct (step_params g (params g)) as [slots [[] | e]]; cbn [fst] in *.
  - destruct (step rest) as [rest' r]. cbn [fst] in *.
    constructor; [now split | exact IH].
  - constructor; [now split | exact Hrest].
Qed.

Lemma external_no_ams o o' : external o o' -> no_ams o -> no_ams o'.
Proof.
  unfold external, no_ams. intros He.
  induction He as [| g g' rest rest' [Hh Hp] _ IH]; intros H; [constructor |].
  inversion H as [| ? ? [Ha Hs] Hrest]; subst.
  constructor; [| now apply IH].
  split; [now rewrite Hh |].
  clear - Hp Hs. induction Hp as [| s s' l l' Hst _ IHp]; [constructor |].
  inversion Hs; subst. constructor; [now rewrite Hst | now apply IHp].
Qed.

Lemma reachable_no_ams o0 o : no_ams o0 -> reachable o0 o -> no_ams o.
Proof.
  intros H0 Hr. induction Hr as [| o _ IH | o o' _ IH He].
  - exact H0.
  - now apply step_no_ams.
  - now apply (external_no_ams o o').
Qed.

(** The constructor turns AMS tracking off under [non_constant_decay]. *)
Lemma init_no_ams ps lr b1 b2 e1 e2 ct ef ams wd :
  no_ams (init ps lr b1 b2 e1 e2 ct true ef ams wd).
Proof.
  unfold no_ams, init. constructor; [| constructor].
  cbn. split; [reflexivity |].
  apply Forall_map. apply Forall_forall. reflexivity.
Qed.

Lemma build_adafactor_inv model opt o a :
  build_torch_optimizer model opt = Ok o -> built_adafactor o = Some a ->
  a = init (filter requires_grad (parameters (named_parameters model))) None
           default_beta1 default_beta2 default_eps1 default_eps2
           default_cliping_threshold true true default_ams_grad 0.
Proof.
  unfold build_torch_optimizer.
  repeat match goal with
         | |- context [if ?b then Raise NotImplementedError else _] =>
             destruct b; [discriminate |]
         end.
  cbv zeta.
  set (params := filter requires_grad (parameters (named_parameters model))).
  destruct (optim opt =? "sgd");
    [| destruct (optim opt =? "adagrad");
       [| destruct (optim opt =? "adadelta");
          [| destruct (optim opt =? "adafactor");
             [| destruct ((optim opt =? "adam") || (optim opt =? "fusedadam"));
                [| destruct (optim opt =? "sparseadam")]]]]].
  all: cbn [rbind].
  all: try (destruct (Rgtb (disc_ft opt) 0);
            [destruct (disc_ft_param_groups model opt); [| discriminate] |];
            cbn [rbind]; destruct (optim opt =? "adam"); cbn [rbind]).
  all: try discriminate.
  all: destruct (model_dtype opt =? "fp16"); intros [= <-];
    cbn [built_adafactor]; first [discriminate | now intros [= <-]].
Qed.

End AdaFactorAms.

Section AdaFactorSamples.
Import AdaFactor.

Lemma Rneqb_true x y : x <> y -> Rneqb x y = true.
Proof. intros H. unfold Rneqb. destruct (Req_dec_T x y); [contradiction | reflexivity]. Qed.

Lemma Rneqb_false x : Rneqb x x = false.
Proof. unfold Rneqb. destruct (Req_dec_T x x); [reflexivity | contradiction]. Qed.

Ltac m_eval :=
  repeat first
    [ rewrite py_div_ok by lra
    | rewrite Rneqb_false
    | rewrite Rneqb_true by lra
    | progress cbv - [py_div Rneqb Rgtb py_sqrt
                      IZR Rdiv Rinv Rmult Rplus Rminus Ropp sqrt
                      Rmax Rmin Rlt_dec Req_dec_T INR] ].

Lemma dense_visit_ok :
  snd (param_step mixed_group (fresh dense_param)) = Ok tt.
Proof.
  m_eval. reflexivity.
Qed.
End AdaFactorSamples.

(** ** AdaFactor: allocation of the second moment *)

Section AdaFactorClaims.
Import AdaFactor.

Lemma shapes_for_vector group g n :
  shape (grad_data g) = [n] ->
  shapes_for (needs_reshape group g) [n] = Ok ([n], None).
Proof. intros Hg. unfold needs_reshape. now rewrite Hg. Qed.

Lemma shapes_for_rank3 group g a b c :
  shape (grad_data g) = [a; b; c] ->
  enable_factorization (hyper group) = true ->
  shapes_for (needs_reshape group g) [a; b; c]
  = Ok ([a; (b * c)%nat], Some [a; b; c]).
Proof. intros Hg Hef. unfold needs_reshape. now rewrite Hg, Hef. Qed.

Lemma viewed_vector group g n :
  shape (grad_data g) = [n] -> viewed group g [n] = Ok (grad_data g).
Proof. intros Hg. unfold viewed, needs_reshape. now rewrite Hg. Qed.

Lemma viewed_rank3 group g a b c :
  shape (grad_data g) = [a; b; c] ->
  enable_factorization (hyper group) = true ->
  viewed group g [a; (b * c)%nat]
  = Ok {| shape := [a; (b * c)%nat]; data := data (grad_data g) |}.
Proof.
  intros Hg Hef. unfold viewed, needs_reshape. rewrite Hg, Hef.
  cbn [_check_shape snd andb]. apply view_ok.
  rewrite Hg. cbn [numel fold_right]. lia.
Qed.

(* The first visit of a rank-3 parameter under factorization completes
   when the group has a learning rate, the clipping threshold is not 0 and
   neither decay rate is 1. *)
Ltac run_visit Hct Hb1 Hb2 :=
  repeat first
    [ rewrite tmap2_ok by reflexivity
    | rewrite view_ok by (cbn [shape numel fold_right]; lia)
    | rewrite py_div_ok by
        first [ exact Hct | lra
              | (intros E; apply Hb1; lra) | (intros E; apply Hb2; lra) ]
    | rewrite Rneqb_false
    | progress cbv - [py_div Rneqb Rgtb py_sqrt tmap2 view numel same_size
                      Nat.mul Nat.eqb
                      IZR Rdiv Rinv Rmult Rplus Rminus Ropp sqrt
                      Rmax Rmin Rlt_dec Req_dec_T INR] ].

Lemma param_step_rank3_completes group s g a b c lr0 :
  shape (p_data (param s)) = [a; b; c] ->
  p_grad (param s) = Some g -> is_sparse g = false ->
  shape (grad_data g) = [a; b; c] ->
  enable_factorization (hyper group) = true ->
  is_empty (state s) = true ->
  lr group = Some lr0 ->
  cliping_threshold (hyper group) <> 0 ->
  beta1 (hyper group) <> 1 -> beta2 (hyper group) <> 1 ->
  snd (param_step group s) = Ok tt.
Proof.
  intros Hsh Hg Hs Hgs Hef He Hlr Hct Hb1 Hb2.
  rewrite (param_step_rank3_eq group s g a b c Hsh Hg Hs Hgs Hef).
  rewrite He. apply empty_state_eq in He.
  destruct s as [[[dsh dd] gr rg] st].
  cbn [param state p_data p_grad shape] in *.
  subst st dsh gr.
  destruct group as [ps lr1 fac [b1 b2 e1 e2 ct wd ams ef mom ncd]].
  cbn [hyper lr enable_factorization cliping_threshold beta1 beta2] in *.
  subst lr1 ef.
  destruct mom, ncd, ams.
  all: run_visit Hct Hb1 Hb2.
  all: destruct (Rneqb wd 0); run_visit Hct Hb1 Hb2; try reflexivity.
  all: try (rewrite tmap2_ok by reflexivity; reflexivity).
Qed.

(** C4.  Take a parameter whose state is empty and follow it through any
    run: visits by [step] for groups that satisfy [G], and changes of the
    parameter outside the optimizer.  Then
    - the factored pair and the dense accumulator are never both in its
      state;
    - if it is a vector of size [n], neither half of the factored pair is
      ever allocated, a state that is not empty holds [exp_avg_sq] of size
      [n], and a visit with a dense gradient leaves the state not empty;
    - if it has size [(a, b, c)] and every group of [G] has factorization
      enabled, [exp_avg_sq] is never allocated, a state that is not empty
      holds the pair with sizes [(1, b*c)] and [(a, 1)], a visit with a
      dense gradient leaves the state not empty, the first visit completes
      (when the group has a learning rate, the clipping threshold is not 0
      and neither decay rate is 1), and a visit that completes
      has computed its update [u] as a matrix of size [(a, b*c)], viewed it
      in the size [(a, b, c)] and subtracted [lr_t * u] from [p.data]
      element by element, [p.data] keeping the size [(a, b, c)]. *)
Theorem adafactor_second_moment_allocation
        (G : Group -> Prop) (s0 s : Slot) :
  is_empty (state s0) = true -> grad_fits (param s0) ->
  slot_reachable G s0 s ->
  has_factored (state s) && has_dense (state s) = false /\
  (forall n, shape (p_data (param s0)) = [n] ->
     exp_avg_sq_R (state s) = None /\ exp_avg_sq_C (state s) = None /\
     (is_empty (state s) = false ->
      option_map shape (exp_avg_sq (state s)) = Some [n]) /\
     (forall group g,
        p_grad (param s) = Some g -> is_sparse g = false ->
        is_empty (state (fst (param_step group s))) = false)) /\
  (forall a b c,
     shape (p_data (param s0)) = [a; b; c] ->
     (forall group, G group -> enable_factorization (hyper group) = true) ->
     exp_avg_sq (state s) = None /\
     (is_empty (state s) = false ->
      option_map shape (exp_avg_sq_R (state s)) = Some [1%nat; (b * c)%nat] /\
      option_map shape (exp_avg_sq_C (state s)) = Some [a; 1%nat]) /\
     (forall group g,
        G group -> p_grad (param s) = Some g -> is_sparse g = false ->
        is_empty (state (fst (param_step group s))) = false) /\
     (forall group g lr0,
        G group -> p_grad (param s) = Some g -> is_sparse g = false ->
        is_empty (state s) = true -> lr group = Some lr0 ->
        cliping_threshold (hyper group) <> 0 ->
        beta1 (hyper group) <> 1 -> beta2 (hyper group) <> 1 ->
        snd (param_step group s) = Ok tt) /\
     (forall group g,
        G group -> p_grad (param s) = Some g ->
        snd (param_step group s) = Ok tt ->
        exists s1 s2 lr_t u,
          compute_update group true
            {| shape := [a; (b * c)%nat]; data := data (grad_data g) |} s1
          = (s2, Ok (lr_t, u)) /\
          shape u = [a; (b * c)%nat] /\
          view u [a; b; c] = Ok {| shape := [a; b; c]; data := data u |} /\
          weight_decayed group lr_t
            {| shape := [a; b; c];
               data := map2 (fun x y => x + - lr_t * y)
                            (data (p_data (param s))) (data u) |}
          = Ok (p_data (param (fst (param_step group s)))) /\
          shape (p_data (param (fst (param_step group s)))) = [a; b; c])).
Proof.
  intros H0 Hf0 Hr.
  destruct (reachable_shape G s0 s Hf0 Hr) as [Hsh Hfit].
  split; [now apply (reachable_exclusive G s0) |]. split.
  - intros n Hn.
    destruct (reachable_vector G s0 s n H0 Hf0 Hn Hr) as (HR & HC & HD).
    repeat split; try assumption.
    intros group g Hg Hs. unfold grad_fits in Hfit. rewrite Hg in Hfit.
    apply (param_step_touches group s g [n] None (grad_data g) Hg Hs).
    + rewrite Hsh, Hn. apply shapes_for_vector. congruence.
    + apply viewed_vector. congruence.
  - intros a b c Hn HG.
    destruct (reachable_rank3 G s0 s a b c HG H0 Hf0 Hn Hr) as (HD & HP).
    split; [exact HD |]. split; [exact HP |]. split.
    + intros group g Hgroup Hg Hs. unfold grad_fits in Hfit.
      rewrite Hg in Hfit.
      apply (param_step_touches group s g [a; (b * c)%nat] (Some [a; b; c])
               {| shape := [a; (b * c)%nat]; data := data (grad_data g) |}
               Hg Hs).
      * rewrite Hsh, Hn. apply shapes_for_rank3; [congruence | now apply HG].
      * apply viewed_rank3; [congruence | now apply HG].
    + split.
      2:{ intros group g Hgroup Hg Hok. unfold grad_fits in Hfit.
          rewrite Hg in Hfit.
          apply (param_step_rank3_update group s g a b c);
            try assumption; try congruence.
          now apply HG. }
      intros group g lr0 Hgroup Hg Hs He Hlr Hct Hb1 Hb2.
      unfold grad_fits in Hfit. rewrite Hg in Hfit.
      apply (param_step_rank3_completes group s g a b c lr0);
        try assumption; try congruence.
      now apply HG.
Qed.

Lemma rank3_visit_reachable :
  slot_reachable factorizing (fresh rank3_param) visited_rank3.
Proof. apply reach_step; [apply reach_start | reflexivity]. Qed.

Lemma mixed_group_sane :
  cliping_threshold (hyper mixed_group) <> 0 /\
  beta1 (hyper mixed_group) <> 1 /\ beta2 (hyper mixed_group) <> 1.
Proof. cbn. repeat split; lra. Qed.

Lemma adafactor_second_moment_allocation_witness :
  is_empty (state (fresh rank3_param)) = true /\
  has_factored (state visited_rank3) && has_dense (state visited_rank3)
  = false /\
  exp_avg_sq (state visited_rank3) = None /\
  (is_empty (state visited_rank3) = false ->
   option_map shape (exp_avg_sq_R (state visited_rank3))
   = Some [1%nat; (1 * 2)%nat] /\
   option_map shape (exp_avg_sq_C (state visited_rank3))
   = Some [2%nat; 1%nat]) /\
  is_empty (state visited_rank3) = false /\
  snd (param_step mixed_group (fresh rank3_param)) = Ok tt /\
  exists lr_t u,
    shape u = [2%nat; (1 * 2)%nat] /\
    view u [2%nat; 1%nat; 2%nat]
    = Ok {| shape := [2%nat; 1%nat; 2%nat]; data := data u |} /\
    weight_decayed mixed_group lr_t
      {| shape := [2%nat; 1%nat; 2%nat];
         data := map2 (fun x y => x + - lr_t * y) [1; 2; 3; 4] (data u) |}
    = Ok (p_data (param visited_rank3)) /\
    shape (p_data (param visited_rank3)) = [2%nat; 1%nat; 2%nat].
Proof.
  destruct (adafactor_second_moment_allocation
              factorizing (fresh rank3_param) visited_rank3
              eq_refl eq_refl rank3_visit_reachable) as (Hex & _ & H3).
  destruct (H3 2%nat 1%nat 2%nat eq_refl (fun group Hg => Hg))
    as (Hd & Hp & _).
  destruct (adafactor_second_moment_allocation
              factorizing (fresh rank3_param) (fresh rank3_param)
              eq_refl eq_refl (reach_start _ _)) as (_ & _ & H0).
  destruct (H0 2%nat 1%nat 2%nat eq_refl (fun group Hg => Hg))
    as (_ & _ & Ht & Hc & Hu).
  destruct mixed_group_sane as (Hct & Hb1 & Hb2).
  pose proof (Hc mixed_group _ 1 eq_refl eq_refl eq_refl eq_refl eq_refl
                 Hct Hb1 Hb2) as Hok.
  destruct (Hu mixed_group _ eq_refl eq_refl Hok)
    as (s1 & s2 & lr_t & u & _ & Hsu & Hv & Hw & Hsd).
  split; [reflexivity |]. split; [exact Hex |]. split; [exact Hd |].
  split; [exact Hp |].
  split; [exact (Ht mixed_group _ eq_refl eq_refl eq_refl) |].
  split; [exact Hok |].
  exists lr_t, u. now repeat split.
Defined.

(** ** AdaFactor: sparse gradients *)

Lemma sparse_visit v :
  sparse_grad (snd v) -> visit v = (snd v, Raise RuntimeError).
Proof.
  intros (g & Hg & Hs). unfold visit.
  now apply (param_step_sparse (fst v) (snd v) g).
Qed.

Lemma step_reaches_sparse o pre v post :
  work o = pre ++ v :: post ->
  Forall (fun v => snd (visit v) = Ok tt) pre ->
  sparse_grad (snd v) ->
  snd (step o) = Raise RuntimeError /\
  all_slots (fst (step o))
  = map (fun v => fst (visit v)) pre ++ snd v :: map snd post.
Proof.
  intros Hw Hpre Hv. destruct (step_run o) as [H1 H2].
  pose proof (sparse_visit v Hv) as Ev.
  assert (Hr : snd (visit v) = Raise RuntimeError) by now rewrite Ev.
  rewrite H1, H2, Hw, (run_stops pre v post RuntimeError Hpre Hr).
  cbn [fst snd]. now rewrite Ev.
Qed.

(** C8 (as the code has it).  [step] raises [RuntimeError] exactly when it
    reaches a parameter with a sparse gradient, that is when such a
    parameter comes after parameters whose visits all completed.  The step
    stops there: the parameters before it have been updated, this one and
    the later ones are as they were. *)
Theorem step_sparse_gradient (o : t) :
  (snd (step o) = Raise RuntimeError <->
   exists pre v post,
     work o = pre ++ v :: post /\
     Forall (fun v => snd (visit v) = Ok tt) pre /\
     sparse_grad (snd v)) /\
  (forall pre v post,
     work o = pre ++ v :: post ->
     Forall (fun v => snd (visit v) = Ok tt) pre ->
     sparse_grad (snd v) ->
     all_slots (fst (step o))
     = map (fun v => fst (visit v)) pre ++ snd v :: map snd post).
Proof.
  split; [split |].
  - intros Hr. destruct (step_run o) as [_ H2]. rewrite H2 in Hr.
    apply run_raise in Hr as (pre & v & post & Hw & Hpre & Hv & _).
    exists pre, v, post. repeat split; try assumption.
    now apply (param_step_runtime_error (fst v) (snd v)).
  - intros (pre & v & post & Hw & Hpre & Hv).
    now apply (step_reaches_sparse o pre v post).
  - intros pre v post Hw Hpre Hv.
    now apply (step_reaches_sparse o pre v post).
Qed.

Lemma mixed_work :
  work mixed_adafactor
  = [(mixed_group, fresh dense_param)] ++ (mixed_group, fresh sparse_param) :: [].
Proof. reflexivity. Qed.

Lemma mixed_sparse : sparse_grad (fresh sparse_param).
Proof. eexists. split; reflexivity. Qed.

Lemma mixed_pre_ok :
  Forall (fun v => snd (visit v) = Ok tt) [(mixed_group, fresh dense_param)].
Proof. constructor; [exact dense_visit_ok | constructor]. Qed.

Lemma step_sparse_gradient_witness :
  snd (step mixed_adafactor) = Raise RuntimeError /\
  all_slots (fst (step mixed_adafactor))
  = [fst (param_step mixed_group (fresh dense_param)); fresh sparse_param].
Proof.
  destruct (step_sparse_gradient mixed_adafactor) as [Hiff Hslots].
  split.
  - apply (proj2 Hiff).
    exists [(mixed_group, fresh dense_param)],
           (mixed_group, fresh sparse_param), [].
    split; [exact mixed_work |]. split; [exact mixed_pre_ok | exact mixed_sparse].
  - exact (Hslots [(mixed_group, fresh dense_param)]
                  (mixed_group, fresh sparse_param) []
                  mixed_work mixed_pre_ok mixed_sparse).
Defined.

(** C8 as stated fails: on [mixed_adafactor] the step raises
    [RuntimeError] at the second parameter after it has updated the first,
    whose state is not empty any more. *)
Lemma step_sparse_not_atomic :
  snd (step mixed_adafactor) = Raise RuntimeError /\
  all_slots (fst (step mixed_adafactor)) <> all_slots mixed_adafactor.
Proof.
  destruct (step_reaches_sparse mixed_adafactor
              [(mixed_group, fresh dense_param)]
              (mixed_group, fresh sparse_param) []
              mixed_work mixed_pre_ok mixed_sparse) as [Hr Hs].
  split; [exact Hr |]. rewrite Hs. cbn [map app fst snd visit].
  intros E. injection E as E. unfold visit in E. cbn [fst snd] in E.
  assert (Ht : is_empty (state (fst (param_step mixed_group
                                                (fresh dense_param)))) = false).
  { apply (param_step_touches mixed_group (fresh dense_param)
             {| is_sparse := false;
                grad_data := {| shape := [2%nat]; data := [1 / 2; 1 / 2] |} |}
             [2%nat] None {| shape := [2%nat]; data := [1 / 2; 1 / 2] |});
      reflexivity. }
  rewrite E in Ht. discriminate.
Qed.

(** ** AdaFactor: AMS tracking *)

Lemma sample_adafactor_build :
  build_torch_optimizer three_layer_model adafactor_opt
  = Ok (AdaFactorOptimizer built_sample_adafactor).
Proof. py_eval. reflexivity. Qed.

(** C10.  The constructor sets [ams_grad] to [False] whenever
    [non_constant_decay] is true, whatever [ams_grad] it is given.  The
    AdaFactor that the builder makes, also below the mixed-precision
    wrapper, is constructed with [non_constant_decay=True]: at every point
    of a run no group of it has [ams_grad], which guards the branch of the
    running maximum, and no parameter has [exp_avg_sq_hat] in its state. *)
Theorem built_adafactor_never_ams
        (model : Model) (opt : Opt) (o : TorchOptimizer) (a a' : t) :
  build_torch_optimizer model opt = Ok o ->
  built_adafactor o = Some a ->
  reachable a a' ->
  (forall ps lr b1 b2 e1 e2 ct ef ams wd,
     ams_grad (snd (defaults lr b1 b2 e1 e2 ct true ef ams wd)) = false /\
     Forall (fun g => ams_grad (hyper g) = false)
            (init ps lr b1 b2 e1 e2 ct true ef ams wd)) /\
  Forall (fun g =>
            ams_grad (hyper g) = false /\
            Forall (fun s => exp_avg_sq_hat (state s) = None) (params g))
         a'.
Proof.
  intros Hb Ha Hr. split.
  { intros. split; [reflexivity |]. constructor; [reflexivity | constructor]. }
  apply (reachable_no_ams a a'); [| exact Hr].
  rewrite (build_adafactor_inv model opt o a Hb Ha). apply init_no_ams.
Qed.

Lemma built_adafactor_never_ams_witness :
  Forall (fun g =>
            ams_grad (hyper g) = false /\
            Forall (fun s => exp_avg_sq_hat (state s) = None) (params g))
         (fst (step built_sample_adafactor)).
Proof.
  apply (built_adafactor_never_ams
           three_layer_model adafactor_opt
           (AdaFactorOptimizer built_sample_adafactor)
           built_sample_adafactor (fst (step built_sample_adafactor))
           sample_adafactor_build eq_refl).
  apply reachable_step, reachable_start.
Defined.

End AdaFactorClaims.

(** ** The training controller *)

Section ControllerProps.
Import Optimizer.
Context {O G P L SD : Type}.
Variable ops : TorchOps O G P L SD.

(** *** The counters *)

Lemma step_counters (c c' : t O) (calls : list (Call P)) (r : result unit) :
  step ops c = (c', calls, r) ->
  _learning_rate c' = _learning_rate c /\
  _learning_rate_decay_fn c' = _learning_rate_decay_fn c /\
  _max_grad_norm c' = _max_grad_norm c /\
  _with_fp16_wrapper c' = _with_fp16_wrapper c /\
  match r with
  | Ok _ =>
      _training_step c' = (_training_step c + 1)%Z /\
      _decay_step c' = (_decay_step c + 1)%Z /\
      exists before, calls = before ++ [CallStep]
  | Raise _ =>
      _training_step c' = _training_step c /\
      _decay_step c' = _decay_step c
  end.
Proof.
  unfold step. destruct (prepare ops c) as [[o calls0] | e].
  - destruct (optimizer_step ops o) as [o' [[] | e]]; intros [= <- <- <-];
      cbn; repeat split; eauto.
  - intros [= <- <- <-]. repeat split.
Qed.

Lemma apply_counters (op : Op) (c : t O) :
  is_load op = false ->
  let c' := fst (apply ops op c) in
  let moved := (if is_step op && snd (apply ops op c) then 1 else 0)%Z in
  _training_step c' = (_training_step c + moved)%Z /\
  _decay_step c' = (_decay_step c + moved)%Z.
Proof.
  destruct op; cbn [is_load is_step andb apply fst snd];
    try discriminate; intros _;
    try (split; cbn; lia).
  - unfold backward. destruct (_with_fp16_wrapper c); split; cbn; lia.
  - destruct (step ops c) as [[c' calls] r] eqn:E. cbn [fst snd].
    destruct (step_counters c c' calls r E) as (_ & _ & _ & _ & H).
    destruct r as [[] | e]; cbn [is_ok].
    + destruct H as (H1 & H2 & _). now rewrite H1, H2.
    + destruct H as (H1 & H2). rewrite H1, H2. lia.
Qed.

Lemma steps_completed_moved (op : Op) (c : t O) :
  (match op with
   | OpStep => if snd (apply ops op c) then 1 else 0
   | _ => 0
   end = if is_step op && snd (apply ops op c) then 1 else 0)%Z.
Proof. now destruct op. Qed.

Lemma run_counters (ops_list : list Op) :
  forallb (fun op => negb (is_load op)) ops_list = true ->
  forall c,
    _training_step (run ops ops_list c)
    = (_training_step c + steps_completed ops ops_list c)%Z /\
    _decay_step (run ops ops_list c)
    = (_decay_step c + steps_completed ops ops_list c)%Z.
Proof.
  induction ops_list as [| op rest IH]; intros Hl c.
  - cbn. lia.
  - cbn [forallb] in Hl. apply andb_prop in Hl as [Hop Hrest].
    apply negb_true_iff in Hop.
    cbn [run fold_left steps_completed].
    destruct (IH Hrest (fst (apply ops op c))) as [IH1 IH2].
    unfold run in IH1, IH2. rewrite IH1, IH2.
    destruct (apply_counters op c Hop) as [H1 H2].
    rewrite H1, H2, steps_completed_moved. lia.
Qed.

(* [step] goes as [learning_rate()] and the underlying [step()] go. *)
Lemma prepare_ok (c : t O) (rate : R) :
  learning_rate c = Ok rate -> exists o calls, prepare ops c = Ok (o, calls).
Proof.
  intros Hlr. unfold prepare. rewrite Hlr. cbn [rbind].
  destruct (master_grads ops c) as [o calls].
  destruct (update_groups ops c rate (param_groups ops o)) as [groups calls'].
  eauto.
Qed.

Lemma step_outcome (c : t O) :
  (forall e, learning_rate c = Raise e -> step ops c = (c, [], Raise e)) /\
  (forall o calls,
     prepare ops c = Ok (o, calls) ->
     (snd (optimizer_step ops o) = Ok tt ->
      exists c',
        step ops c = (c', calls ++ [CallStep], Ok tt) /\
        _optimizer c' = fst (optimizer_step ops o) /\
        _training_step c' = (_training_step c + 1)%Z /\
        _decay_step c' = (_decay_step c + 1)%Z) /\
     (forall e,
        snd (optimizer_step ops o) = Raise e ->
        step ops c
        = (set_optimizer c (fst (optimizer_step ops o)),
           calls ++ [CallStep], Raise e))).
Proof.
  split.
  - intros e He. unfold step, prepare. now rewrite He.
  - intros o calls Hp. unfold step. rewrite Hp.
    destruct (optimizer_step ops o) as [o' r]. cbn [fst snd]. split.
    + intros ->. eexists. split; [reflexivity |]. now repeat split.
    + now intros e ->.
Qed.

Lemma apply_step (c : t O) :
  apply ops OpStep c = (fst (fst (step ops c)), is_ok (snd (step ops c))).
Proof. cbn [apply]. now destruct (step ops c) as [[c' calls] r]. Qed.

(** C5.  A new controller has both counters at 1.  A call of [step]
    completes exactly when [learning_rate()] returns and the underlying
    [step()] completes; it then adds 1 to each counter, after the call of
    the underlying [step()], which is the last call it makes.  A call of
    [step] that raises, and every operation other than [step] and
    [load_state_dict], leaves both as they are.  So after any operations
    without [load_state_dict] the two counters are equal, at 1 plus the
    number of completed steps. *)
Theorem counters_move_together
        (optimizer : O) (lr : R) (fn : option DecayFn) (mgn : option R)
        (ops_list : list Op) :
  forallb (fun op => negb (is_load op)) ops_list = true ->
  let c0 := init ops optimizer lr fn mgn in
  (_training_step c0 = 1%Z /\ _decay_step c0 = 1%Z) /\
  (forall c c' calls r,
     step ops c = (c', calls, r) ->
     match r with
     | Ok _ =>
         _training_step c' = (_training_step c + 1)%Z /\
         _decay_step c' = (_decay_step c + 1)%Z /\
         exists before, calls = before ++ [CallStep]
     | Raise _ =>
         _training_step c' = _training_step c /\
         _decay_step c' = _decay_step c
     end) /\
  (forall c rate,
     learning_rate c = Ok rate ->
     exists o calls,
       prepare ops c = Ok (o, calls) /\
       (snd (optimizer_step ops o) = Ok tt ->
        exists c',
          step ops c = (c', calls ++ [CallStep], Ok tt) /\
          _training_step c' = (_training_step c + 1)%Z /\
          _decay_step c' = (_decay_step c + 1)%Z) /\
       (forall e,
          snd (optimizer_step ops o) = Raise e ->
          snd (step ops c) = Raise e)) /\
  (forall c e, learning_rate c = Raise e -> step ops c = (c, [], Raise e)) /\
  (forall op c,
     is_load op = false -> is_step op = false ->
     _training_step (fst (apply ops op c)) = _training_step c /\
     _decay_step (fst (apply ops op c)) = _decay_step c) /\
  _training_step (run ops ops_list c0)
  = (1 + steps_completed ops ops_list c0)%Z /\
  _decay_step (run ops ops_list c0) = _training_step (run ops ops_list c0).
Proof.
  intros Hl c0. split; [now split |]. split; [| split; [| split; [| split]]].
  - intros c c' calls r E. now apply (step_counters c c' calls r E).
  - intros c rate Hlr.
    destruct (prepare_ok c rate Hlr) as (o & calls & Hp).
    exists o, calls. split; [exact Hp |].
    destruct (step_outcome c) as [_ Hout].
    destruct (Hout o calls Hp) as [Hok Hraise]. split.
    + intros Ho. destruct (Hok Ho) as (c' & E & _ & Ht & Hd).
      exists c'. now repeat split.
    + intros e He. now rewrite (Hraise e He).
  - intros c e He. now apply (proj1 (step_outcome c)).
  - intros op c Hload Hstep.
    destruct (apply_counters op c Hload) as [H1 H2].
    rewrite Hstep in H1, H2. cbn [andb] in H1, H2. rewrite H1, H2. lia.
  - destruct (run_counters ops_list Hl c0) as [H1 H2].
    rewrite H1, H2. cbn. lia.
Qed.

(* [load_state_dict] with the key [decay_step] absent moves one counter
   only. *)
Lemma load_state_dict_partial (c : t O) (n : Z) :
  let c' := fst (load_state_dict ops c
                   {| sd_training_step := Some n; sd_decay_step := None;
                      sd_optimizer := None |}) in
  _training_step c' = n /\ _decay_step c' = _decay_step c.
Proof. now split. Qed.

(** *** The round trip of the state dict *)

Lemma load_state_dict_own (c c' : t O) :
  let c2 := fst (load_state_dict ops c' (state_dict ops c)) in
  _training_step c2 = _training_step c /\
  _decay_step c2 = _decay_step c /\
  _learning_rate c2 = _learning_rate c' /\
  _learning_rate_decay_fn c2 = _learning_rate_decay_fn c' /\
  snd (load_state_dict ops c' (state_dict ops c))
  = snd (optimizer_load_state_dict ops (_optimizer c')
           (optimizer_state_dict ops (_optimizer c))).
Proof.
  unfold load_state_dict, state_dict.
  cbn [sd_training_step sd_decay_step sd_optimizer].
  cbn [set_decay_step set_training_step _optimizer].
  destruct (optimizer_load_state_dict ops (_optimizer c')
              (optimizer_state_dict ops (_optimizer c))) as [o r].
  now repeat split.
Qed.

Lemma learning_rate_ext (c1 c2 : t O) :
  _learning_rate c1 = _learning_rate c2 ->
  _learning_rate_decay_fn c1 = _learning_rate_decay_fn c2 ->
  _decay_step c1 = _decay_step c2 ->
  learning_rate c1 = learning_rate c2.
Proof. unfold learning_rate. now intros -> -> ->. Qed.

Lemma steps_counters (n : nat) (c c' : t O) :
  steps ops n c c' ->
  _learning_rate c' = _learning_rate c /\
  _learning_rate_decay_fn c' = _learning_rate_decay_fn c /\
  _training_step c' = (_training_step c + Z.of_nat n)%Z /\
  _decay_step c' = (_decay_step c + Z.of_nat n)%Z.
Proof.
  induction 1 as [c | n c calls c' c'' E _ IH].
  - repeat split; lia.
  - destruct (step_counters c c' calls (Ok tt) E)
      as (A & B & _ & _ & C & D & _).
    destruct IH as (A' & B' & C' & D').
    repeat split; try congruence; lia.
Qed.

(** C7.  Let a controller with the learning rate and the decay function
    of [c] load the state dict of [c] ([c] itself, or a controller built
    from the same configuration).  It then has the counters of [c], the
    call raises only if [load_state_dict] of the optimizer does, and after
    any number of completed steps on both, the two controllers have the
    same counters and give the same [learning_rate()]. *)
Theorem load_state_dict_round_trip (c c' : t O) :
  _learning_rate c' = _learning_rate c ->
  _learning_rate_decay_fn c' = _learning_rate_decay_fn c ->
  let c2 := fst (load_state_dict ops c' (state_dict ops c)) in
  _training_step c2 = _training_step c /\
  _decay_step c2 = _decay_step c /\
  snd (load_state_dict ops c' (state_dict ops c))
  = snd (optimizer_load_state_dict ops (_optimizer c')
           (optimizer_state_dict ops (_optimizer c))) /\
  forall n cn c2n,
    steps ops n c cn -> steps ops n c2 c2n ->
    _training_step c2n = _training_step cn /\
    _decay_step c2n = _decay_step cn /\
    learning_rate c2n = learning_rate cn.
Proof.
  intros Hlr Hfn c2.
  destruct (load_state_dict_own c c') as (Ht & Hd & Hl & Hf & Hr).
  fold c2 in Ht, Hd, Hl, Hf.
  split; [exact Ht |]. split; [exact Hd |]. split; [exact Hr |].
  intros n cn c2n Hs Hs2.
  destruct (steps_counters n c cn Hs) as (A & B & C & D).
  destruct (steps_counters n c2 c2n Hs2) as (A2 & B2 & C2 & D2).
  split; [lia |]. split; [lia |].
  apply learning_rate_ext; try congruence; lia.
Qed.

(** *** The learning rates of the groups and the clipping *)

Hypothesis laws : GroupLaws ops.

Lemma update_group_spec (c : t O) (learning_rate : R) (g : G) :
  _with_fp16_wrapper c = false ->
  let g' := fst (update_group ops c learning_rate g) in
  let calls := snd (update_group ops c learning_rate g) in
  group_lr ops g' = Some (group_rate ops learning_rate g) /\
  (_max_grad_norm c <= 0 ->
   calls = [] /\ group_params ops g' = group_params ops g) /\
  (0 < _max_grad_norm c ->
   calls = [CallClipGradNorm (group_params ops g) (_max_grad_norm c)] /\
   group_params ops g'
   = clip_grad_norm_ ops (group_params ops g) (_max_grad_norm c)).
Proof.
  intros Hfp. unfold update_group, group_rate. rewrite Hfp. cbn [negb andb].
  destruct (Rlt_dec 0 (_max_grad_norm c)) as [Hpos | Hneg].
  - rewrite (Rgtb_true _ _ Hpos). cbn [fst snd].
    destruct (group_factor ops g);
      rewrite (lr_set_params ops laws), (lr_set_lr ops laws),
              (params_set_params ops laws), (params_set_lr ops laws);
      (split; [reflexivity |]); (split; [lra | now split]).
  - rewrite Rgtb_false by lra. cbn [fst snd].
    destruct (group_factor ops g);
      rewrite (lr_set_lr ops laws), (params_set_lr ops laws);
      (split; [reflexivity |]); (split; [now split | lra]).
Qed.

Lemma update_groups_spec (c : t O) (learning_rate : R) (groups : list G) :
  _with_fp16_wrapper c = false ->
  let groups' := fst (update_groups ops c learning_rate groups) in
  let calls := snd (update_groups ops c learning_rate groups) in
  Forall2 (fun g g' => group_lr ops g' = Some (group_rate ops learning_rate g))
          groups groups' /\
  (_max_grad_norm c <= 0 ->
   calls = [] /\
   Forall2 (fun g g' => group_params ops g' = group_params ops g)
           groups groups') /\
  (0 < _max_grad_norm c ->
   calls = map (fun g => CallClipGradNorm (group_params ops g)
                                          (_max_grad_norm c)) groups /\
   Forall2 (fun g g' =>
              group_params ops g'
              = clip_grad_norm_ ops (group_params ops g) (_max_grad_norm c))
           groups groups').
Proof.
  intros Hfp. induction groups as [| g rest IH].
  - cbn. repeat split; constructor.
  - cbn [update_groups].
    destruct (update_group_spec c learning_rate g Hfp) as (Hlr & Hz & Hp).
    destruct (update_group ops c learning_rate g) as [g' calls1].
    destruct IH as (IHlr & IHz & IHp).
    destruct (update_groups ops c learning_rate rest) as [rest' calls2].
    cbn [fst snd map] in *. split; [now constructor |]. split.
    + intros Hle. destruct (Hz Hle) as [-> Hg]. destruct (IHz Hle) as [-> Hr].
      split; [reflexivity | now constructor].
    + intros Hlt. destruct (Hp Hlt) as [-> Hg]. destruct (IHp Hlt) as [-> Hr].
      split; [reflexivity | now constructor].
Qed.

(** C6.  Without the mixed-precision wrapper, when the learning rate of
    the step is [lr]: [step] calls the underlying [step()] on the
    optimizer [o] in whose groups [lr] is [factor * lr] for a group with a
    factor and [lr] for one without, and the controller after [step] holds
    the optimizer that this call leaves, with its outcome.  If
    [max_grad_norm] is 0 (or below) [step] makes no clipping call, its only
    call is the underlying [step()], and the parameters of every group of
    [o] are as they were; if [max_grad_norm > 0] it calls [clip_grad_norm_]
    once for each group, on the parameters of that group alone, and each
    group of [o] holds what the call on its own parameters returns. *)
Theorem step_clips_per_group (c : t O) (lr : R) :
  _with_fp16_wrapper c = false ->
  learning_rate c = Ok lr ->
  exists o calls,
    prepare ops c = Ok (o, calls) /\
    snd (fst (step ops c)) = calls ++ [CallStep] /\
    _optimizer (fst (fst (step ops c))) = fst (optimizer_step ops o) /\
    snd (step ops c) = match snd (optimizer_step ops o) with
                       | Ok _ => Ok tt
                       | Raise e => Raise e
                       end /\
    let groups := param_groups ops (_optimizer c) in
    let groups' := param_groups ops o in
    Forall2 (fun g g' =>
               group_lr ops g'
               = Some (match group_factor ops g with
                       | Some factor => factor * lr
                       | None => lr
                       end))
            groups groups' /\
    (_max_grad_norm c <= 0 ->
     calls = [] /\
     Forall2 (fun g g' => group_params ops g' = group_params ops g)
             groups groups') /\
    (0 < _max_grad_norm c ->
     calls = map (fun g => CallClipGradNorm (group_params ops g)
                                            (_max_grad_norm c)) groups /\
     Forall2 (fun g g' =>
                group_params ops g'
                = clip_grad_norm_ ops (group_params ops g) (_max_grad_norm c))
             groups groups').
Proof.
  intros Hfp Hlr.
  pose proof (update_groups_spec c lr (param_groups ops (_optimizer c)) Hfp)
    as Hspec.
  unfold step, prepare, master_grads. rewrite Hlr, Hfp. cbn [rbind].
  destruct (update_groups ops c lr (param_groups ops (_optimizer c)))
    as [groups' calls]. cbn [fst snd app] in *.
  exists (set_param_groups ops (_optimizer c) groups'), calls.
  split; [reflexivity |].
  split; [| split; [| split]].
  - destruct (optimizer_step ops (set_param_groups ops (_optimizer c) groups'))
      as [o' [[] | e]]; reflexivity.
  - destruct (optimizer_step ops (set_param_groups ops (_optimizer c) groups'))
      as [o' [[] | e]]; reflexivity.
  - destruct (optimizer_step ops (set_param_groups ops (_optimizer c) groups'))
      as [o' [[] | e]]; reflexivity.
  - rewrite (groups_set_groups ops laws). exact Hspec.
Qed.

End ControllerProps.

(** *** The controller on AdaFactor *)

Lemma adafactor_group_laws : GroupLaws adafactor_ops.
Proof. split; reflexivity. Qed.

(* Evaluation of a closed controller term: the tests on reals are decided
   by rewriting, the rest by computation. *)
Ltac ctl_eval :=
  repeat first
    [ rewrite tmap2_ok by reflexivity
    | rewrite py_div_ok by lra
    | rewrite Rgtb_false by lra
    | rewrite Rgtb_true by lra
    | rewrite Rneqb_false
    | rewrite Rneqb_true by lra
    | progress cbv - [py_div Rneqb Rgtb py_sqrt tmap2 view
                      IZR Rdiv Rinv Rmult Rplus Rminus Ropp sqrt
                      Rmax Rmin Rlt_dec Req_dec_T INR] ].

(* The group that [step] hands to AdaFactor under [plain_controller]. *)
Lemma plain_prepare :
  Optimizer.prepare adafactor_ops plain_controller
  = Ok ([{| AdaFactor.params := [fresh dense_param];
            AdaFactor.lr := Some (2 * (1 / 2));
            AdaFactor.factor := Some 2;
            AdaFactor.hyper := builder_hyper |}], []).
Proof.
  unfold Optimizer.prepare, plain_controller, Optimizer.init.
  cbn [Optimizer.learning_rate Optimizer._learning_rate_decay_fn
       Optimizer._learning_rate rbind].
  unfold Optimizer.master_grads, Optimizer.update_groups,
    Optimizer.update_group, Optimizer.group_rate.
  cbn - [Rgtb Rmult Rdiv]. rewrite Rgtb_false by lra. reflexivity.
Qed.

Lemma plain_underlying_step :
  snd (AdaFactor.step
         [{| AdaFactor.params := [fresh dense_param];
             AdaFactor.lr := Some (2 * (1 / 2));
             AdaFactor.factor := Some 2;
             AdaFactor.hyper := builder_hyper |}]) = Ok tt.
Proof. ctl_eval. reflexivity. Qed.

Lemma plain_first_step :
  snd (Optimizer.step adafactor_ops plain_controller) = Ok tt.
Proof. ctl_eval. reflexivity. Qed.

Lemma plain_second_step :
  snd (Optimizer.step adafactor_ops
         (Optimizer.zero_grad adafactor_ops
            (fst (fst (Optimizer.step adafactor_ops plain_controller)))))
  = Ok tt.
Proof. ctl_eval. reflexivity. Qed.

Lemma plain_steps_completed :
  Optimizer.steps_completed adafactor_ops sample_run plain_controller = 2%Z.
Proof.
  unfold sample_run. cbn [Optimizer.steps_completed].
  rewrite !apply_step. cbn [fst snd Optimizer.apply].
  rewrite plain_first_step, plain_second_step. reflexivity.
Qed.

Lemma counters_move_together_witness :
  (exists c' calls,
     Optimizer.step adafactor_ops plain_controller = (c', calls, Ok tt) /\
     Optimizer._training_step c' = 2%Z /\
     Optimizer._decay_step c' = 2%Z) /\
  Optimizer.steps_completed adafactor_ops sample_run plain_controller = 2%Z /\
  Optimizer._training_step
    (Optimizer.run adafactor_ops sample_run plain_controller) = 3%Z /\
  Optimizer._decay_step
    (Optimizer.run adafactor_ops sample_run plain_controller) = 3%Z.
Proof.
  destruct (counters_move_together adafactor_ops [dense_group] (1 / 2)
              None None sample_run eq_refl)
    as (_ & _ & Hdone & _ & _ & Ht & Hd).
  fold plain_controller in Ht, Hd.
  split.
  - destruct (Hdone plain_controller (1 / 2) eq_refl)
      as (o & calls & Hp & Hok & _).
    rewrite plain_prepare in Hp. injection Hp as <- <-.
    destruct (Hok plain_underlying_step) as (c' & E & Ht' & Hd').
    exists c', ([] ++ [Optimizer.CallStep]).
    split; [exact E |]. split; [exact Ht' | exact Hd'].
  - rewrite plain_steps_completed in Ht.
    split; [exact plain_steps_completed |].
    split; [exact Ht |]. rewrite Hd. exact Ht.
Defined.

Lemma load_state_dict_round_trip_witness :
  Optimizer._training_step reloaded_controller
  = Optimizer._training_step sample_controller /\
  Optimizer._decay_step reloaded_controller
  = Optimizer._decay_step sample_controller /\
  snd (Optimizer.load_state_dict adafactor_ops sample_controller
         (Optimizer.state_dict adafactor_ops sample_controller))
  = Ok tt.
Proof.
  destruct (load_state_dict_round_trip adafactor_ops
              sample_controller sample_controller eq_refl eq_refl)
    as (Ht & Hd & Hr & _).
  split; [exact Ht |]. split; [exact Hd | exact Hr].
Defined.

Lemma sample_learning_rate :
  Optimizer.learning_rate sample_controller
  = Ok (1 / sqrt (IZR (Z.max 1 4)) * 1).
Proof.
  unfold Optimizer.learning_rate, sample_controller, Optimizer.init.
  cbn [Optimizer._learning_rate_decay_fn Optimizer._decay_step
       Optimizer._learning_rate].
  now rewrite rsqrt_decay_pos by lia.
Qed.

Lemma sample_max_grad_norm : 0 < Optimizer._max_grad_norm sample_controller.
Proof. cbn. lra. Qed.

Lemma Forall2_single {A B : Type} (Q : A -> B -> Prop) (a : A) (l : list B) :
  Forall2 Q [a] l -> exists b, l = [b] /\ Q a b.
Proof.
  intros H. inversion H as [| a' b la lb Hq Hr]; subst.
  inversion Hr; subst. now exists b.
Qed.

Lemma Forall2_single_inv {A B : Type} (Q : A -> B -> Prop) (a : A) (b : B) :
  Forall2 Q [a] [b] -> Q a b.
Proof. intros H. now inversion H. Qed.

Lemma step_clips_per_group_witness :
  exists g' calls,
    Optimizer.prepare adafactor_ops sample_controller = Ok ([g'], calls) /\
    calls = [Optimizer.CallClipGradNorm [fresh dense_param] 1] /\
    AdaFactor.lr g' = Some (2 * (1 / sqrt (IZR 4) * 1)) /\
    AdaFactor.params g'
    = slot_map_params (fun ps => torch_clip_grad_norm_ ps 1)
                      [fresh dense_param] /\
    snd (fst (Optimizer.step adafactor_ops sample_controller))
    = calls ++ [Optimizer.CallStep] /\
    Optimizer._optimizer
      (fst (fst (Optimizer.step adafactor_ops sample_controller)))
    = fst (AdaFactor.step [g']).
Proof.
  destruct (step_clips_per_group adafactor_ops adafactor_group_laws
              sample_controller (1 / sqrt (IZR (Z.max 1 4)) * 1)
              eq_refl sample_learning_rate)
    as (o & calls & Hp & Hcalls & Hopt & _ & Hrest).
  cbv zeta in Hrest. destruct Hrest as (Hlr & _ & Hclip).
  destruct (Hclip sample_max_grad_norm) as [Hc Hpar].
  change (param_groups adafactor_ops o) with o in Hlr, Hpar.
  destruct (Forall2_single _ _ _ Hlr) as (g' & E & Hg). subst o.
  exists g', calls. split; [exact Hp |]. split; [exact Hc |].
  split; [exact Hg |].
  split; [exact (Forall2_single_inv _ _ _ Hpar) |].
  split; [exact Hcalls | exact Hopt].
Defined.

(** ** The schedules over the whole range of steps *)

Lemma py_pow_frac_pos (x y : R) : 0 < x -> py_pow_frac x y = Ok (Rpower x y).
Proof.
  intros Hx. unfold py_pow_frac. destruct (Rlt_dec 0 x); [reflexivity | lra].
Qed.

Lemma py_pow_frac_zero (y : R) :
  y < 0 -> py_pow_frac 0 y = Raise ZeroDivisionError.
Proof.
  intros Hy. unfold py_pow_frac.
  destruct (Rlt_dec 0 0); [lra |].
  destruct (Req_dec_T 0 0) as [_ | N]; [| now elim N].
  destruct (Rlt_dec y 0); [reflexivity | lra].
Qed.

Lemma Rpower_half (x : R) : 0 < x -> Rpower x (1 / 2) = sqrt x.
Proof.
  intros Hx. replace (1 / 2) with (/ 2) by lra. now apply Rpower_sqrt.
Qed.

Lemma Rpower_neg_half (x : R) : 0 < x -> Rpower x (- (1 / 2)) = / sqrt x.
Proof. intros Hx. now rewrite Rpower_Ropp, Rpower_half. Qed.

Lemma Rpower_neg_three_halves (x : R) :
  0 < x -> Rpower x (- (3 / 2)) = / (x * sqrt x).
Proof.
  intros Hx. rewrite Rpower_Ropp. f_equal.
  replace (3 / 2) with (1 + 1 / 2) by lra.
  now rewrite Rpower_plus, Rpower_1, Rpower_half.
Qed.

Lemma Rdiv_le_1 (a b : R) : 0 < b -> a <= b -> a / b <= 1.
Proof.
  intros Hb Hab. apply Rmult_le_reg_r with b; [assumption |].
  replace (a / b * b) with a by (field; lra). lra.
Qed.

Lemma Rdiv_ge_1 (a b : R) : 0 < b -> b <= a -> 1 <= a / b.
Proof.
  intros Hb Hab. apply Rmult_le_reg_r with b; [assumption |].
  replace (a / b * b) with a by (field; lra). lra.
Qed.

(** *** Slanted triangular *)

Lemma stlr_decay_closed (step w T : Z) (ratio : R) :
  w <> 0%Z -> T <> 0%Z -> w <> T -> ratio <> 0 ->
  stlr_decay step w T ratio
  = Ok ((1 + Rmin (IZR step / IZR w) (IZR (T - step) / IZR (T - w))
             * (ratio - 1)) / ratio).
Proof.
  intros Hw HT HwT Hr. unfold stlr_decay.
  assert (Hw' : IZR w <> 0) by now apply not_0_IZR.
  assert (HT' : IZR T <> 0) by now apply not_0_IZR.
  assert (Hd : IZR T - IZR w <> 0).
  { intros E. apply HwT. apply eq_IZR. lra. }
  rewrite (py_div_ok (IZR w) (IZR T)) by assumption. cbn [rbind].
  rewrite (py_div_ok (IZR step) (IZR w)) by assumption. cbn [rbind].
  rewrite (py_div_ok 1 (IZR w / IZR T)).
  2:{ unfold Rdiv. apply Rmult_integral_contrapositive_currified;
        [assumption | now apply Rinv_neq_0_compat]. }
  cbn [rbind].
  replace (IZR w * (1 / (IZR w / IZR T) - 1)) with (IZR T - IZR w)
    by (field; split; assumption).
  rewrite (py_div_ok _ (IZR T - IZR w)) by assumption. cbn [rbind].
  rewrite py_div_ok by assumption.
  replace (1 - IZR (step - w) / (IZR T - IZR w))
    with (IZR (T - step) / IZR (T - w)); [reflexivity |].
  rewrite !minus_IZR. field. assumption.
Qed.

Lemma stlr_decay_rising (step w T : Z) (ratio : R) :
  (0 < w < T)%Z -> ratio <> 0 -> (step <= w)%Z ->
  stlr_decay step w T ratio
  = Ok ((1 + IZR step / IZR w * (ratio - 1)) / ratio).
Proof.
  intros [Hw HT] Hr Hs.
  assert (Hw' : 0 < IZR w) by now apply IZR_lt.
  assert (Hd : 0 < IZR (T - w)) by (apply IZR_lt; lia).
  rewrite stlr_decay_closed by (assumption || lia).
  rewrite Rmin_left; [reflexivity |].
  apply IZR_le in Hs.
  apply Rle_trans with 1.
  - apply Rdiv_le_1; lra.
  - apply Rdiv_ge_1; [assumption |].
    rewrite !minus_IZR in *. lra.
Qed.

Lemma stlr_decay_falling (step w T : Z) (ratio : R) :
  (0 < w < T)%Z -> ratio <> 0 -> (w <= step)%Z ->
  stlr_decay step w T ratio
  = Ok ((1 + IZR (T - step) / IZR (T - w) * (ratio - 1)) / ratio).
Proof.
  intros [Hw HT] Hr Hs.
  assert (Hw' : 0 < IZR w) by now apply IZR_lt.
  assert (Hd : 0 < IZR (T - w)) by (apply IZR_lt; lia).
  rewrite stlr_decay_closed by (assumption || lia).
  rewrite Rmin_right; [reflexivity |].
  apply IZR_le in Hs.
  apply Rle_trans with 1.
  - apply Rdiv_le_1; [assumption |].
    rewrite !minus_IZR in *. lra.
  - apply Rdiv_ge_1; lra.
Qed.






(** *** Inverse square root with linear warm-up *)



(** *** Noam *)

Lemma cubes_compare (s w : R) :
  0 < s -> 0 < w ->
  (s <= w -> s * s * / (w * w * w) <= / s) /\
  (w <= s -> / s <= s * s * / (w * w * w)).
Proof.
  intros Hs Hw.
  assert (H3 : 0 < w * w * w) by (repeat apply Rmult_lt_0_compat; assumption).
  assert (H4 : 0 < w * w * w * s) by now apply Rmult_lt_0_compat.
  assert (El : s * s * / (w * w * w) * (w * w * w * s) = s * s * s)
    by (field; lra).
  assert (Er : / s * (w * w * w * s) = w * w * w) by (field; lra).
  split; intros Hle.
  - apply Rmult_le_reg_r with (w * w * w * s); [assumption |].
    rewrite El, Er.
    assert (s * s <= w * w) by (apply Rmult_le_compat; lra).
    apply Rmult_le_compat; try lra. apply Rmult_le_pos; lra.
  - apply Rmult_le_reg_r with (w * w * w * s); [assumption |].
    rewrite El, Er.
    assert (w * w <= s * s) by (apply Rmult_le_compat; lra).
    apply Rmult_le_compat; try lra. apply Rmult_le_pos; lra.
Qed.





(** *** Exponential *)



(** *** Reciprocal square root: the domain *)


(** *** The selection of the schedule *)

(** ** The builder: the optimizer it returns and its errors *)

Lemma rbind_raise {A B} (r : result A) (k : A -> result B) (e : exn) :
  rbind r k = Raise e -> r = Raise e \/ exists a, r = Ok a /\ k a = Raise e.
Proof. destruct r as [a | e']; cbn; [eauto | intros [= ->]; now left]. Qed.

Lemma py_div_raise (x y : R) (e : exn) :
  py_div x y = Raise e -> e = ZeroDivisionError /\ y = 0.
Proof.
  unfold py_div. destruct (Req_dec_T y 0); [| discriminate].
  intros [= <-]. now split.
Qed.

Lemma index_raise {A} (l : list A) (i : Z) (e : exn) :
  index l i = Raise e -> e = IndexError /\ nth_error l (Z.to_nat i) = None.
Proof.
  unfold index. destruct (nth_error l (Z.to_nat i)); [discriminate |].
  intros [= <-]. now split.
Qed.

Lemma attribute_raise {A} (name : string) (a : option A) (e : exn) :
  attribute name a = Raise e -> e = AttributeError name /\ a = None.
Proof. destruct a; cbn; [discriminate | intros [= <-]; now split]. Qed.

Lemma layer_groups_raise (opt : Opt) (dec : Decoder) (layer_nums : list Z) :
  forall factor gs e,
    layer_groups opt dec layer_nums factor gs = Raise e ->
    e = ZeroDivisionError \/ e = IndexError.
Proof.
  induction layer_nums as [| n rest IH]; intros factor gs e H.
  - discriminate.
  - cbn [layer_groups] in H.
    apply rbind_raise in H as [H | (f1 & _ & H)].
    { apply py_div_raise in H as [-> _]. now left. }
    apply rbind_raise in H as [H | (layer & _ & H)].
    { apply index_raise in H as [-> _]. now right. }
    eauto.
Qed.

Lemma disc_ft_param_groups_raise (model : Model) (opt : Opt) (e : exn) :
  disc_ft_param_groups model opt = Raise e ->
  e = ZeroDivisionError \/ e = IndexError \/ exists a, e = AttributeError a.
Proof.
  unfold disc_ft_param_groups. intros H.
  apply rbind_raise in H as [H | (gen_params & _ & H)].
  { destruct (share_decoder_embeddings opt); [| discriminate].
    destruct (full_gen_bias opt).
    - apply rbind_raise in H as [H | (b & _ & H)]; [| discriminate].
      apply attribute_raise in H as [-> _]. eauto.
    - destruct (copy_attn opt); [| discriminate].
      apply attribute_raise in H as [-> _]. eauto. }
  apply rbind_raise in H as [H | (f0 & _ & H)].
  { apply py_div_raise in H as [-> _]. now left. }
  apply rbind_raise in H as [H | ([f1 gs1] & _ & H)].
  { apply layer_groups_raise in H. tauto. }
  apply rbind_raise in H as [H | (f2 & _ & H)].
  { apply py_div_raise in H as [-> _]. now left. }
  apply rbind_raise in H as [H | (emb & _ & H)]; [| discriminate].
  destruct (share_decoder_embeddings opt && negb (full_gen_bias opt));
    [| discriminate].
  destruct (copy_attn opt);
    (apply rbind_raise in H as [H | (b & _ & H)]; [| discriminate]);
    apply attribute_raise in H as [-> _]; eauto.
Qed.

Lemma filter_split_perm {A} (f : A -> bool) (l : list A) :
  Permutation (filter (fun x => negb (f x)) l ++ filter f l) l.
Proof.
  induction l as [| x l IH]; [constructor |].
  cbn [filter]. destruct (f x); cbn [negb app].
  - apply Permutation_sym, Permutation_cons_app, Permutation_sym, IH.
  - now constructor.
Qed.

Lemma parameters_filter (f : Param -> bool) (named : list (string * Param)) :
  parameters (filter (fun np => f (snd np)) named)
  = filter f (parameters named).
Proof.
  unfold parameters. induction named as [| [n p] l IH]; [reflexivity |].
  cbn [filter map snd]. destruct (f p); cbn [map snd]; now rewrite IH.
Qed.

Lemma init_params (ps : list Param) lr b1 b2 e1 e2 ct ncd ef ams wd :
  map AdaFactor.param
      (all_slots (AdaFactor.init ps lr b1 b2 e1 e2 ct ncd ef ams wd))
  = ps.
Proof.
  unfold all_slots, AdaFactor.init. cbn [flat_map AdaFactor.params].
  rewrite app_nil_r, map_map. cbn [AdaFactor.param]. apply map_id.
Qed.

Ltac in_names := cbn [In]; repeat (first [left; reflexivity | right]).





Lemma build_inner (model : Model) (opt : Opt) (o : TorchOptimizer) :
  build_torch_optimizer model opt = Ok o ->
  exists inner,
    torch_class_name inner <> "FP16_Optimizer" /\
    o = if model_dtype opt =? "fp16"
        then FP16_Optimizer (String.prefix "fused" (optim opt)) inner
                            (loss_scale opt) (negb (Rneqb (loss_scale opt) 0))
        else inner.
Proof.
  unfold build_torch_optimizer.
  repeat match goal with
         | |- (if ?b then Raise _ else _) = _ -> _ =>
             destruct b; [discriminate |]
         end.
  intros H. apply rbind_ok in H as (inner & Hi & H).
  exists inner. split.
  - revert Hi.
    repeat match goal with
           | |- (if ?b then _ else _) = _ -> _ => destruct b
           | |- Ok _ = Ok _ -> _ => intros [= <-]; discriminate
           | |- Raise _ = Ok _ -> _ => discriminate
           end.
    all: intros Hi; apply rbind_ok in Hi as (pg & _ & Hi).
    all: destruct (optim opt =? "adam"); injection Hi as <-; discriminate.
  - destruct (model_dtype opt =? "fp16"); now injection H as <-.
Qed.


Lemma range_down_length (n : Z) : List.length (range_down n) = Z.to_nat n.
Proof. unfold range_down. now rewrite length_map, length_rev, length_seq. Qed.

Lemma range_down_nth (n : Z) (k : nat) :
  (k < Z.to_nat n)%nat ->
  nth_error (range_down n) k = Some (Z.of_nat (Z.to_nat n - 1 - k)).
Proof.
  intros Hk. unfold range_down. rewrite nth_error_map, nth_error_rev.
  rewrite length_seq.
  destruct (Nat.ltb_spec k (Z.to_nat n)) as [_ | H]; [| lia].
  rewrite nth_error_seq.
  destruct (Nat.ltb_spec (Z.to_nat n - S k) (Z.to_nat n)) as [_ | H]; [| lia].
  cbn [option_map]. do 2 f_equal. lia.
Qed.

Lemma appended_layer_groups_nth (opt : Opt) (dec : Decoder)
      (layer_nums : list Z) :
  forall factor gs,
    appended_layer_groups opt dec layer_nums factor gs ->
    List.length gs = List.length layer_nums /\
    forall k g,
      nth_error gs k = Some g ->
      pg_factor g = factor / disc_ft opt ^ S k /\
      exists n layer,
        nth_error layer_nums k = Some n /\
        nth_error (transformer_layers dec) (Z.to_nat n) = Some layer /\
        pg_params g = layer_params opt layer.
Proof.
  induction layer_nums as [| n rest IH]; intros factor [| g gs] H;
    cbn in H; try contradiction.
  - split; [reflexivity |]. intros [| k] g; discriminate.
  - destruct H as (Hf & (layer & Hl & Hp) & Hrest).
    apply IH in Hrest as [Hlen Hnth]. split; [cbn; now rewrite Hlen |].
    intros [| k] g' Hg; cbn [nth_error] in Hg.
    + injection Hg as <-. split.
      * rewrite Hf. cbn [pow]. now rewrite Rmult_1_r.
      * exists n, layer. now repeat split.
    + apply Hnth in Hg as [Hg1 Hg2]. split; [| exact Hg2].
      rewrite Hg1. cbn [pow]. unfold Rdiv. rewrite !Rinv_mult. ring.
Qed.


Lemma range_down_in (n m : Z) : In m (range_down n) -> (0 <= m < n)%Z.
Proof.
  unfold range_down. rewrite in_map_iff. intros (k & <- & Hk).
  apply in_rev, in_seq in Hk. lia.
Qed.

Lemma layer_groups_ok (opt : Opt) (dec : Decoder) (layer_nums : list Z) :
  disc_ft opt <> 0 ->
  (forall n, In n layer_nums ->
             (Z.to_nat n < List.length (transformer_layers dec))%nat) ->
  forall factor gs,
  exists factor' gs', layer_groups opt dec layer_nums factor gs
                      = Ok (factor', gs').
Proof.
  intros Hft. induction layer_nums as [| n rest IH]; intros Hin factor gs.
  - cbn. eauto.
  - cbn [layer_groups]. rewrite py_div_ok by assumption. cbn [rbind].
    unfold index.
    destruct (nth_error (transformer_layers dec) (Z.to_nat n)) as [layer |] eqn:E.
    + cbn [rbind]. apply IH. intros m Hm. apply Hin. now right.
    + apply nth_error_None in E. specialize (Hin n (or_introl eq_refl)). lia.
Qed.

Lemma build_disc_ft_adam (model : Model) (opt : Opt) :
  0 < disc_ft opt ->
  optim opt = "adam" \/ optim opt = "fusedadam" ->
  contains "transformer" (decoder_type opt) = true ->
  share_decoder_embeddings opt = false ->
  exists k : list ParamGroup -> TorchOptimizer,
    build_torch_optimizer model opt
    = (gs <- disc_ft_param_groups model opt ;; Ok (k gs)).
Proof.
  intros Hft Ho Ht Hs. unfold build_torch_optimizer.
  rewrite (Rgtb_true _ _ Hft), Hs, Ht. cbn [andb negb].
  destruct Ho as [Ho | Ho]; rewrite Ho;
    cbn [String.eqb Ascii.eqb Bool.eqb orb negb].
  - exists (fun gs =>
              if model_dtype opt =? "fp16"
              then FP16_Optimizer (String.prefix "fused" "adam")
                     (Adam (Groups gs) (learning_rate opt)
                           (adam_beta1 opt, adam_beta2 opt) (/ 10 ^ 9))
                     (loss_scale opt) (negb (Rneqb (loss_scale opt) 0))
              else Adam (Groups gs) (learning_rate opt)
                        (adam_beta1 opt, adam_beta2 opt) (/ 10 ^ 9)).
    destruct (disc_ft_param_groups model opt); cbn [rbind]; [| reflexivity].
    now destruct (model_dtype opt =? "fp16").
  - exists (fun gs =>
              if model_dtype opt =? "fp16"
              then FP16_Optimizer (String.prefix "fused" "fusedadam")
                     (FusedAdam (Groups gs) (learning_rate opt)
                                (adam_beta1 opt, adam_beta2 opt))
                     (loss_scale opt) (negb (Rneqb (loss_scale opt) 0))
              else FusedAdam (Groups gs) (learning_rate opt)
                             (adam_beta1 opt, adam_beta2 opt)).
    destruct (disc_ft_param_groups model opt); cbn [rbind]; [| reflexivity].
    now destruct (model_dtype opt =? "fp16").
Qed.


(** ** MultipleOptimizer *)

Section MultipleProps.
Import MultipleOptimizer.
Context {O G P L SD : Type}.
Variable ops : TorchOps O G P L SD.

Lemma step_each_all (op : list O) :
  Forall (fun o => snd (optimizer_step ops o) = Ok tt) op ->
  step_each ops op = (map (fun o => fst (optimizer_step ops o)) op, Ok tt).
Proof.
  induction 1 as [| o rest Ho _ IH]; [reflexivity |].
  cbn [step_each map]. destruct (optimizer_step ops o) as [o' r].
  cbn [fst snd] in *. subst r. now rewrite IH.
Qed.

Lemma step_each_stops (pre : list O) (o : O) (post : list O) (e : exn) :
  Forall (fun o => snd (optimizer_step ops o) = Ok tt) pre ->
  snd (optimizer_step ops o) = Raise e ->
  step_each ops (pre ++ o :: post)
  = (map (fun o => fst (optimizer_step ops o)) pre
     ++ fst (optimizer_step ops o) :: post, Raise e).
Proof.
  intros Hpre Ho. induction Hpre as [| p rest Hp _ IH].
  - cbn [app step_each map]. destruct (optimizer_step ops o) as [o' r].
    cbn [fst snd] in *. now subst r.
  - cbn [app step_each map]. destruct (optimizer_step ops p) as [p' r].
    cbn [fst snd] in *. subst r. now rewrite IH.
Qed.


Lemma load_each_all (op : list O) :
  forall state_dicts,
    List.length state_dicts = List.length op ->
    Forall (fun os => snd (optimizer_load_state_dict ops (fst os) (snd os))
                      = Ok tt)
           (combine op state_dicts) ->
    load_each ops op state_dicts
    = (map (fun os => fst (optimizer_load_state_dict ops (fst os) (snd os)))
           (combine op state_dicts), Ok tt).
Proof.
  induction op as [| o rest IH]; intros [| sd sds] Hlen Hall;
    try discriminate; [reflexivity |].
  cbn [combine] in Hall. inversion Hall as [| ? ? Ho Hrest]; subst.
  cbn [load_each combine map fst snd] in *.
  destruct (optimizer_load_state_dict ops o sd) as [o' r].
  cbn [fst snd] in *. subst r.
  rewrite IH; [reflexivity | now injection Hlen | assumption].
Qed.



End MultipleProps.

Ltac af_eval :=
  repeat first
    [ rewrite py_div_ok by lra
    | rewrite Rneqb_false
    | rewrite Rneqb_true by lra
    | progress cbv - [py_div Rneqb Rgtb py_sqrt
                      IZR Rdiv Rinv Rmult Rplus Rminus Ropp sqrt
                      Rmax Rmin Rlt_dec Req_dec_T INR] ].

Lemma ready_step_ok : snd (AdaFactor.step ready_adafactor) = Ok tt.
Proof. af_eval. reflexivity. Qed.

Lemma mixed_step_raises : snd (AdaFactor.step mixed_adafactor) = Raise RuntimeError.
Proof.
  apply (step_reaches_sparse mixed_adafactor
           [(mixed_group, fresh dense_param)]
           (mixed_group, fresh sparse_param) []
           mixed_work mixed_pre_ok mixed_sparse).
Qed.



Section MultipleState.
Import MultipleOptimizer.
Context {O K V : Type}.
Variable optimizer_state : O -> list (K * V).
Variable key_eqb : K -> K -> bool.
Hypothesis key_eqb_eq : forall a b, key_eqb a b = true <-> a = b.

Lemma key_eqb_refl (k : K) : key_eqb k k = true.
Proof. now apply key_eqb_eq. Qed.

Lemma dict_get_set (k k0 : K) (v0 : V) (d : list (K * V)) :
  dict_get key_eqb k (dict_set key_eqb k0 v0 d)
  = if key_eqb k k0 then Some v0 else dict_get key_eqb k d.
Proof.
  induction d as [| [k' v'] d IH]; cbn [dict_set dict_get].
  - reflexivity.
  - destruct (key_eqb k0 k') eqn:E0; cbn [dict_get].
    + apply key_eqb_eq in E0. subst k'.
      now destruct (key_eqb k k0).
    + destruct (key_eqb k k') eqn:E1.
      * apply key_eqb_eq in E1. subst k'.
        destruct (key_eqb k k0) eqn:E2; [| reflexivity].
        apply key_eqb_eq in E2. subst k0.
        now rewrite key_eqb_refl in E0.
      * exact IH.
Qed.

Lemma dict_get_app (k : K) (a b : list (K * V)) :
  dict_get key_eqb k (a ++ b)
  = match dict_get key_eqb k a with
    | Some v => Some v
    | None => dict_get key_eqb k b
    end.
Proof.
  induction a as [| [k' v'] a IH]; cbn [app dict_get]; [reflexivity |].
  now destruct (key_eqb k k').
Qed.

Lemma dict_get_fold (k : K) (items d : list (K * V)) :
  dict_get key_eqb k
    (fold_left (fun d kv => dict_set key_eqb (fst kv) (snd kv) d) items d)
  = match dict_get key_eqb k (rev items) with
    | Some v => Some v
    | None => dict_get key_eqb k d
    end.
Proof.
  revert d. induction items as [| [k0 v0] items IH]; intros d;
    cbn [fold_left rev fst snd]; [reflexivity |].
  rewrite IH, dict_get_app, dict_get_set. cbn [dict_get].
  destruct (dict_get key_eqb k (rev items)); [reflexivity |].
  now destruct (key_eqb k k0).
Qed.

Lemma dict_set_keys (k0 : K) (v0 : V) (d : list (K * V)) :
  NoDup (map fst d) ->
  NoDup (map fst (dict_set key_eqb k0 v0 d)) /\
  forall k, In k (map fst (dict_set key_eqb k0 v0 d))
            -> k = k0 \/ In k (map fst d).
Proof.
  induction d as [| [k' v'] d IH]; intros Hnd; cbn [dict_set map fst].
  - split; [constructor; [intros [] | constructor] |].
    intros k [-> | []]. now left.
  - inversion Hnd as [| ? ? Hnotin Hrest]; subst.
    destruct (key_eqb k0 k') eqn:E; cbn [map fst].
    + apply key_eqb_eq in E. subst k'. split; [exact Hnd |].
      intros k Hk. now right.
    + destruct (IH Hrest) as [IH1 IH2]. split.
      * constructor; [| exact IH1]. intros Hin.
        apply IH2 in Hin as [-> | Hin]; [| contradiction].
        now rewrite key_eqb_refl in E.
      * intros k [-> | Hk]; [right; now left |].
        apply IH2 in Hk as [-> | Hk]; [now left | right; now right].
Qed.

Lemma dict_set_fresh (k0 : K) (v0 : V) (d : list (K * V)) :
  ~ In k0 (map fst d) -> dict_set key_eqb k0 v0 d = d ++ [(k0, v0)].
Proof.
  induction d as [| [k' v'] d IH]; intros Hn; cbn [dict_set app];
    [reflexivity |].
  destruct (key_eqb k0 k') eqn:E.
  - apply key_eqb_eq in E. subst k'. elim Hn. now left.
  - rewrite IH; [reflexivity |]. intros Hin. apply Hn. now right.
Qed.

Lemma fold_dict_set_keys (items d : list (K * V)) :
  NoDup (map fst d) ->
  NoDup (map fst (fold_left (fun d kv => dict_set key_eqb (fst kv) (snd kv) d)
                            items d)).
Proof.
  revert d. induction items as [| [k0 v0] items IH]; intros d Hd;
    cbn [fold_left fst snd]; [exact Hd |].
  apply IH. now apply dict_set_keys.
Qed.

Lemma fold_dict_set_fresh (items d : list (K * V)) :
  NoDup (map fst (d ++ items)) ->
  fold_left (fun d kv => dict_set key_eqb (fst kv) (snd kv) d) items d
  = d ++ items.
Proof.
  revert d. induction items as [| [k0 v0] items IH]; intros d Hnd;
    cbn [fold_left fst snd]; [now rewrite app_nil_r |].
  assert (Hfresh : ~ In k0 (map fst d)).
  { rewrite map_app in Hnd. cbn [map fst] in Hnd.
    apply NoDup_remove_2 in Hnd. intros Hin. apply Hnd.
    apply in_or_app. now left. }
  rewrite dict_set_fresh by assumption.
  rewrite IH; rewrite <- app_assoc; [reflexivity | exact Hnd].
Qed.


End MultipleState.

Section MultipleController.
Context {O G P L SD : Type}.
Variable ops : TorchOps O G P L SD.
Hypothesis laws : GroupLaws ops.

Lemma multiple_update_groups (c : Optimizer.t (MultipleOptimizer.t O))
      (lr : R) (groups : list G) :
  let groups' := fst (Optimizer.update_groups (multiple_ops ops) c lr groups) in
  List.length groups' = List.length groups /\
  Forall2 (fun g g' => group_lr ops g' = Some (Optimizer.group_rate ops lr g))
          groups groups'.
Proof.
  induction groups as [| g rest IH]; cbn [Optimizer.update_groups].
  - split; [reflexivity | constructor].
  - destruct (Optimizer.update_group (multiple_ops ops) c lr g)
      as [g' calls] eqn:Eg.
    destruct (Optimizer.update_groups (multiple_ops ops) c lr rest)
      as [rest' calls'].
    cbn [fst] in *. destruct IH as [IHlen IHlr].
    split; [cbn; now rewrite IHlen |].
    constructor; [| exact IHlr].
    unfold Optimizer.update_group in Eg.
    cbn [group_set_lr group_set_params group_params clip_grad_norm_
         multiple_ops] in Eg.
    destruct (negb (Optimizer._with_fp16_wrapper c)
              && Rgtb (Optimizer._max_grad_norm c) 0);
      injection Eg as <- _.
    + now rewrite (lr_set_params ops laws), (lr_set_lr ops laws).
    + now rewrite (lr_set_lr ops laws).
Qed.

Lemma multiple_update_groups_app (c : Optimizer.t (MultipleOptimizer.t O))
      (lr : R) (a b : list G) :
  fst (Optimizer.update_groups (multiple_ops ops) c lr (a ++ b))
  = fst (Optimizer.update_groups (multiple_ops ops) c lr a)
    ++ fst (Optimizer.update_groups (multiple_ops ops) c lr b).
Proof.
  induction a as [| g a IH]; [reflexivity |].
  cbn [app Optimizer.update_groups].
  destruct (Optimizer.update_group (multiple_ops ops) c lr g) as [g' calls].
  destruct (Optimizer.update_groups (multiple_ops ops) c lr (a ++ b))
    as [rest calls1].
  destruct (Optimizer.update_groups (multiple_ops ops) c lr a)
    as [rest' calls2].
  cbn [fst app] in *. now rewrite IH.
Qed.

Lemma scatter_updated (c : Optimizer.t (MultipleOptimizer.t O)) (lr : R)
      (op : list O) :
  scatter ops op
    (fst (Optimizer.update_groups (multiple_ops ops) c lr
            (flat_map (param_groups ops) op)))
  = map (fun o =>
           set_param_groups ops o
             (fst (Optimizer.update_groups (multiple_ops ops) c lr
                     (param_groups ops o))))
        op.
Proof.
  induction op as [| o rest IH]; [reflexivity |].
  cbn [flat_map scatter map]. rewrite multiple_update_groups_app.
  destruct (multiple_update_groups c lr (param_groups ops o)) as [Hlen _].
  cbn zeta in Hlen.
  rewrite firstn_app, skipn_app, <- Hlen, firstn_all, skipn_all, Nat.sub_diag.
  cbn [firstn skipn app]. rewrite app_nil_r. now rewrite IH.
Qed.


End MultipleController.

(** ** Optimizer.from_opt *)

Section FromOptProps.
Context {G P L SD : Type}.
Variable ops : TorchOps TorchOptimizer G P L SD.

Lemma new_controller_inv (model : Model) (opt : TrainOpt)
      (c : Optimizer.t TorchOptimizer) :
  new_controller ops model opt = Ok c ->
  exists o fn,
    build_torch_optimizer model (options opt) = Ok o /\
    make_learning_rate_decay_fn (options opt) = Ok fn /\
    c = Optimizer.init ops o (learning_rate (options opt)) fn
                       (max_grad_norm opt).
Proof.
  unfold new_controller. intros H.
  apply rbind_ok in H as (o & Ho & H).
  apply rbind_ok in H as (fn & Hfn & H).
  injection H as <-. eauto.
Qed.

Lemma load_state_dict_inv (c c' : Optimizer.t TorchOptimizer)
      (sd : Optimizer.StateDict SD) :
  Optimizer.load_state_dict ops c sd = (c', Ok tt) ->
  Optimizer.sd_training_step sd = Some (Optimizer._training_step c') /\
  Optimizer._decay_step c'
  = match Optimizer.sd_decay_step sd with
    | Some d => d
    | None => Optimizer._decay_step c
    end /\
  Optimizer._learning_rate c' = Optimizer._learning_rate c /\
  Optimizer._learning_rate_decay_fn c' = Optimizer._learning_rate_decay_fn c /\
  Optimizer._max_grad_norm c' = Optimizer._max_grad_norm c /\
  Optimizer._with_fp16_wrapper c' = Optimizer._with_fp16_wrapper c /\
  match Optimizer.sd_optimizer sd with
  | Some osd =>
      optimizer_load_state_dict ops (Optimizer._optimizer c) osd
      = (Optimizer._optimizer c', Ok tt)
  | None => Optimizer._optimizer c' = Optimizer._optimizer c
  end.
Proof.
  unfold Optimizer.load_state_dict.
  destruct (Optimizer.sd_training_step sd) as [n |]; [| discriminate].
  destruct (Optimizer.sd_decay_step sd) as [d |];
    destruct (Optimizer.sd_optimizer sd) as [osd |];
    cbn [Optimizer.set_decay_step Optimizer.set_training_step
         Optimizer._optimizer].
  all: try (destruct (optimizer_load_state_dict ops (Optimizer._optimizer c) osd)
             as [o r] eqn:E).
  all: intros H; inversion H; subst; cbn; repeat split; try reflexivity.
  all: assumption.
Qed.

Lemma from_opt_loaded (model : Model) (opt : TrainOpt)
      (ck : option (Checkpoint SD)) (ck' : option (Checkpoint SD))
      (used : TrainOpt) (sd : Optimizer.StateDict SD)
      (c : Optimizer.t TorchOptimizer) :
  select_state opt ck = (ck', Ok (used, Some sd)) ->
  dict_nonempty sd = true ->
  snd (from_opt ops model opt ck) = Ok c ->
  fst (from_opt ops model opt ck) = ck' /\
  exists c0,
    new_controller ops model used = Ok c0 /\
    Optimizer.load_state_dict ops c0 sd = (c, Ok tt).
Proof.
  intros Hsel Hne. unfold from_opt. rewrite Hsel, Hne. cbn [fst snd].
  intros H. split; [reflexivity |].
  apply rbind_ok in H as (c0 & Hc0 & H). exists c0. split; [exact Hc0 |].
  destruct (Optimizer.load_state_dict ops c0 sd) as [c1 r].
  apply rbind_ok in H as ([] & -> & H). now injection H as <-.
Qed.





Lemma from_opt_none (model : Model) (opt : TrainOpt) :
  from_opt ops model opt None = (None, new_controller ops model opt).
Proof.
  unfold from_opt, select_state. f_equal.
  now destruct (new_controller ops model opt).
Qed.


End FromOptProps.
Lemma sample_from_opt_none :
  snd (from_opt built_ops three_layer_model (resume_opt "none")
                (Some sample_checkpoint))
  = Ok resumed_controller.
Proof. py_eval. reflexivity. Qed.

Lemma sample_from_opt_start :
  snd (from_opt built_ops three_layer_model saved_opt None)
  = Ok started_controller.
Proof. py_eval. reflexivity. Qed.




Lemma sample_from_opt_legacy :
  snd (from_opt built_ops three_layer_model (resume_opt "none")
                (Some legacy_checkpoint))
  = Ok resumed_controller.
Proof. py_eval. reflexivity. Qed.


